(** * Echo Scribe: the audio transcoding path and the recording session

    A shallow embedding of the TypeScript sources

    - [components/AudioPlayer.tsx]  ([bufferToWav], the WAV container builder,
                                     and its call in [createAudioObjects]),
    - [App.tsx]                     (the capture callback [onaudioprocess], the
                                     handlers [stopRecordingFlow],
                                     [handleStartRecording], [handleStopRecording]),
    - [services/geminiService.ts]   ([summarizeText], [synthesizeSpeech]),

    with the properties of the specification stated over it. *)

From Stdlib Require Import ZArith QArith Qround List String Ascii Bool Lia.
From Stdlib Require Import SpecFloat.
Import ListNotations.

Local Open Scope Z_scope.

(* ================================================================== *)
(** ** JavaScript numbers *)
(* ================================================================== *)

Module JS.

(** A JavaScript Number is NaN, an infinity, or a finite value.  The finite
    values met here are the elements of a [Float32Array] and their products
    with the integer constants [32768] and [32767]: a float32 has a 24-bit
    significand, so every such product has at most 40 significant bits and is
    exact in binary64 (see [js_mul_is_binary64] below).  Finite values are
    therefore carried as rationals and the arithmetic on them is exact.  The
    sign of zero is not tracked: no operation used below tells [-0] from
    [+0]. *)
Inductive jsnum : Type :=
| NaN
| Inf (negative : bool)
| Fin (q : Q).

Definition Qltb (x y : Q) : bool := negb (Qle_bool y x).

Definition Qzerob (x : Q) : bool := Qeq_bool x 0.

(** [a * b] *)
Definition js_mul (a b : jsnum) : jsnum :=
  match a, b with
  | NaN, _ | _, NaN => NaN
  | Inf sa, Inf sb => Inf (xorb sa sb)
  | Inf sa, Fin y => if Qzerob y then NaN else Inf (xorb sa (Qltb y 0))
  | Fin x, Inf sb => if Qzerob x then NaN else Inf (xorb (Qltb x 0) sb)
  | Fin x, Fin y => Fin (x * y)
  end.

(** [a < b] *)
Definition js_lt (a b : jsnum) : bool :=
  match a, b with
  | NaN, _ | _, NaN => false
  | Inf sa, Inf sb => sa && negb sb
  | Inf sa, Fin _ => sa
  | Fin _, Inf sb => negb sb
  | Fin x, Fin y => Qltb x y
  end.

(** [Math.min(a, b)] and [Math.max(a, b)]: NaN when an argument is NaN. *)
Definition Math_min (a b : jsnum) : jsnum :=
  match a, b with
  | NaN, _ | _, NaN => NaN
  | _, _ => if js_lt b a then b else a
  end.

Definition Math_max (a b : jsnum) : jsnum :=
  match a, b with
  | NaN, _ | _, NaN => NaN
  | _, _ => if js_lt a b then b else a
  end.

Definition js_int (z : Z) : jsnum := Fin (inject_Z z).

(** Truncation of a rational toward zero. *)
Definition Qtrunc (q : Q) : Z := Z.quot (Qnum q) (Zpos (Qden q)).

(** Reduction of an integer modulo [2^16] into the signed 16-bit range. *)
Definition wrap16 (z : Z) : Z :=
  let r := z mod 65536 in
  if 32768 <=? r then r - 65536 else r.

(** [ToInt16], the conversion applied by a store into an [Int16Array]:
    NaN and the infinities give 0, a finite value is truncated toward zero
    and reduced modulo [2^16]. *)
Definition ToInt16 (n : jsnum) : Z :=
  match n with
  | Fin q => wrap16 (Qtrunc q)
  | _ => 0
  end.

(** [ToUint32] and [ToUint16] on the integers handed to a [DataView]. *)
Definition ToUint32 (z : Z) : Z := z mod 4294967296.
Definition ToUint16 (z : Z) : Z := z mod 65536.

End JS.

(* ================================================================== *)
(** ** IEEE 754 binary64, to justify the exact products *)
(* ================================================================== *)

Module Binary64.
Import JS.

(** The multiplication of binary64, as the Standard Library specifies it. *)
Definition b64_mul : spec_float -> spec_float -> spec_float := SFmul 53 1024.

(** A float32: NaN, an infinity, a zero, or [m * 2^e] up to sign with a
    significand below [2^24] and an exponent between -149 and 104. *)
Definition is_float32 (x : spec_float) : Prop :=
  match x with
  | S754_finite _ m e => Z.pos m < 2 ^ 24 /\ -149 <= e <= 104
  | _ => True
  end.

(** An integer constant of the source. *)
Definition b64_const (k : positive) : spec_float := S754_finite false k 0.

(** The Number a float stands for. *)
Definition number_of (x : spec_float) : jsnum :=
  match x with
  | S754_nan => NaN
  | S754_infinity s => Inf s
  | S754_zero _ => Fin 0
  | S754_finite s m e =>
      Fin (inject_Z (if s then Z.neg m else Z.pos m) * Qpower 2 e)
  end.

(** Two Numbers of the same value. *)
Definition same_number (a b : jsnum) : Prop :=
  match a, b with
  | NaN, NaN => True
  | Inf s, Inf t => s = t
  | Fin x, Fin y => (x == y)%Q
  | _, _ => False
  end.

End Binary64.

(* ================================================================== *)
(** ** Typed arrays and byte buffers *)
(* ================================================================== *)

Module Bytes.
Import JS.

(** A byte is an integer in [0, 256); a buffer is a list of bytes. *)
Definition byte_at (v : Z) (k : Z) : Z := Z.land (Z.shiftr v (8 * k)) 255.

(** The bytes of one [Int16Array] element as a [Uint8Array] over the same
    buffer sees them (typed arrays use the platform byte order, which is
    little-endian on the platforms the application runs on). *)
Definition int16_bytes (v : Z) : list Z := [byte_at v 0; byte_at v 1].

(** [new Uint8Array(a.buffer)] for an [Int16Array] [a]. *)
Definition Uint8Array_of_Int16Array (a : list Z) : list Z :=
  flat_map int16_bytes a.

(** [a.byteLength] for an [Int16Array] [a]. *)
Definition byteLength16 (a : list Z) : nat := 2 * List.length a.

(** [new ArrayBuffer(n)] / [new Uint8Array(n)]: [n] zero bytes. *)
Definition zeros (n : nat) : list Z := repeat 0 n.

(** Overwrite [buf] from [offset] on with [src]
    ([Uint8Array.prototype.set(src, offset)]; every call below stays inside
    the buffer, where the method does not throw). *)
Definition set_bytes (buf src : list Z) (offset : nat) : list Z :=
  firstn offset buf ++ src ++ skipn (offset + List.length src) buf.

(** [view.setUint32(offset, value, true)] and
    [view.setUint16(offset, value, true)]: little-endian stores. *)
Definition setUint32 (view : list Z) (offset : nat) (value : Z) : list Z :=
  let v := ToUint32 value in
  set_bytes view [byte_at v 0; byte_at v 1; byte_at v 2; byte_at v 3] offset.

Definition setUint16 (view : list Z) (offset : nat) (value : Z) : list Z :=
  let v := ToUint16 value in
  set_bytes view [byte_at v 0; byte_at v 1] offset.

(** Readers used to state the properties: the little-endian unsigned 32-bit
    and signed 16-bit integers found at an offset. *)
Definition le_uint32 (buf : list Z) (offset : nat) : Z :=
  nth offset buf 0 + 256 * nth (offset + 1) buf 0
  + 65536 * nth (offset + 2) buf 0 + 16777216 * nth (offset + 3) buf 0.

Definition le_int16 (buf : list Z) (offset : nat) : Z :=
  wrap16 (nth offset buf 0 + 256 * nth (offset + 1) buf 0).

Definition slice (buf : list Z) (offset len : nat) : list Z :=
  firstn len (skipn offset buf).

Definition ascii_bytes (s : string) : list Z :=
  map (fun c => Z.of_N (N_of_ascii c)) (list_ascii_of_string s).

End Bytes.

(* ================================================================== *)
(** ** The capture-side PCM16 encoder ([App.tsx], [onaudioprocess]) *)
(* ================================================================== *)

Module Capture.
Import JS Bytes.

(** One iteration of the loop: [int16[i] = inputData[i] * 32768]. *)
Definition capture_sample (s : jsnum) : Z :=
  ToInt16 (js_mul s (js_int 32768)).

(** The loop over [i = 0 .. l-1] with [l = inputData.length]; the element
    read at an index is [inputData[i]] ([undefined], hence NaN in the
    product, outside the array, which the loop bound excludes). *)
Definition capture_int16 (inputData : list jsnum) : list Z :=
  map (fun i => capture_sample (nth i inputData NaN))
      (seq 0 (List.length inputData)).

(** [new Uint8Array(int16.buffer)], the bytes handed to [encode]. *)
Definition capture_bytes (inputData : list jsnum) : list Z :=
  Uint8Array_of_Int16Array (capture_int16 inputData).

(** The value the specification gives for a sample: [round(s * 32768)],
    the nearest integer (halves upward, as [Math.round] rounds). *)
Definition round_nearest (q : Q) : Z := Qfloor (q + (1 # 2)).

Definition spec_capture_sample (q : Q) : Z :=
  round_nearest (q * inject_Z 32768).


End Capture.

(* ================================================================== *)
(** ** The WAV container builder ([AudioPlayer.tsx], [bufferToWav]) *)
(* ================================================================== *)

Module Wav.
Import JS Bytes.

(** A Web Audio [AudioBuffer]: [buffer.sampleRate], [buffer.length] (the
    number of sample frames) and one [Float32Array] per channel.  The sample
    rates of the application are whole numbers of hertz. *)
Record AudioBuffer : Type := mkAudioBuffer {
  sampleRate : Z;
  frameCount : nat;
  channels : list (list jsnum)
}.

Definition numberOfChannels (buffer : AudioBuffer) : Z :=
  Z.of_nat (List.length (channels buffer)).

(** [buffer.getChannelData(c)] throws for a channel the buffer does not
    have. *)
Definition getChannelData (buffer : AudioBuffer) (c : nat)
  : option (list jsnum) :=
  nth_error (channels buffer) c.

(** What the Web Audio API guarantees of every [AudioBuffer]. *)
Definition well_formed (buffer : AudioBuffer) : Prop :=
  channels buffer <> [] /\
  Forall (fun ch => List.length ch = frameCount buffer) (channels buffer).

Record Blob : Type := mkBlob {
  blob_bytes : list Z;
  blob_type : string
}.

(** The body of the sample loop:
    [sample = Math.max(-1, Math.min(1, channelData[i]))]. *)
Definition clamp_sample (x : jsnum) : jsnum :=
  Math_max (js_int (-1)) (Math_min (js_int 1) x).

(** [sample < 0 ? sample * 0x8000 : sample * 0x7FFF]. *)
Definition scale_sample (sample : jsnum) : jsnum :=
  if js_lt sample (js_int 0)
  then js_mul sample (js_int 0x8000)
  else js_mul sample (js_int 0x7FFF).

(** [pcm[i] = ...]: the store into the [Int16Array]. *)
Definition wav_sample (x : jsnum) : Z :=
  ToInt16 (scale_sample (clamp_sample x)).

(** [len = buffer.length * numOfChan * 2]. *)
Definition declared_len (buffer : AudioBuffer) : Z :=
  Z.of_nat (frameCount buffer) * numberOfChannels buffer * 2.

(** The thirteen stores into the 44-byte header, in source order. *)
Definition wavHeader (buffer : AudioBuffer) : list Z :=
  let numOfChan := numberOfChannels buffer in
  let len := declared_len buffer in
  let view := zeros 44 in
  let view := setUint32 view 0 0x46464952 in
  let view := setUint32 view 4 (36 + len) in
  let view := setUint32 view 8 0x45564157 in
  let view := setUint32 view 12 0x20746d66 in
  let view := setUint32 view 16 16 in
  let view := setUint16 view 20 1 in
  let view := setUint16 view 22 numOfChan in
  let view := setUint32 view 24 (sampleRate buffer) in
  let view := setUint32 view 28 (sampleRate buffer * 2 * numOfChan) in
  let view := setUint16 view 32 (numOfChan * 2) in
  let view := setUint16 view 34 16 in
  let view := setUint32 view 36 0x61746164 in
  let view := setUint32 view 40 len in
  view.

(** The [Int16Array] [pcm]: [buffer.length] elements, filled from
    [channelData = buffer.getChannelData(0)]. *)
Definition wav_pcm (buffer : AudioBuffer) (channelData : list jsnum)
  : list Z :=
  map (fun i => wav_sample (nth i channelData NaN))
      (seq 0 (frameCount buffer)).

(** [bufferToWav]; [None] stands for the exception of [getChannelData]. *)
Definition bufferToWav (buffer : AudioBuffer) : option Blob :=
  let header := wavHeader buffer in
  match getChannelData buffer 0 with
  | None => None
  | Some channelData =>
      let pcm := wav_pcm buffer channelData in
      let wavBytes := zeros (44 + byteLength16 pcm) in
      let wavBytes := set_bytes wavBytes header 0 in
      let wavBytes := set_bytes wavBytes (Uint8Array_of_Int16Array pcm) 44 in
      Some (mkBlob wavBytes "audio/wav")
  end.

(** The part of a WAV file after the 44-byte header. *)
Definition payload (wav : list Z) : list Z := skipn 44 wav.

(** The payload the specification asks for, in its words: the samples of
    all channels interleaved frame by frame in channel order, each quantised
    like [pcm[i]] above. *)
Definition interleave (buffer : AudioBuffer) : list jsnum :=
  flat_map (fun i => map (fun ch => nth i ch NaN) (channels buffer))
           (seq 0 (frameCount buffer)).

Definition interleaved_payload (buffer : AudioBuffer) : list Z :=
  Uint8Array_of_Int16Array (map wav_sample (interleave buffer)).

(** The quantisation rule in the words of the specification: clamp to
    [-1, 1], then scale a non-negative value by 32767 and a negative one by
    32768. *)
Definition Qclamp (q : Q) : Q :=
  if Qle_bool q (inject_Z (-1)) then inject_Z (-1)
  else if Qle_bool (inject_Z 1) q then inject_Z 1
  else q.

Definition spec_quantize (q : Q) : Z :=
  let c := Qclamp q in
  if Qle_bool 0 c then Qtrunc (c * inject_Z 32767)
  else Qtrunc (c * inject_Z 32768).

(** The size invariant in the words of the specification, for the file
    [wav] built from [buffer]: the length is 44 plus two bytes per channel
    and frame, the declared size of the data chunk is the length of the
    payload, and the payload is the interleaving of the channels. *)
Definition size_invariant (buffer : AudioBuffer) (wav : list Z) : Prop :=
  Z.of_nat (List.length wav)
  = 44 + 2 * numberOfChannels buffer * Z.of_nat (frameCount buffer)
  /\ le_uint32 wav 40 = Z.of_nat (List.length (payload wav))
  /\ payload wav = interleaved_payload buffer.

(** A two-channel buffer of one frame at 8000 Hz. *)
Definition stereo_frame : AudioBuffer :=
  mkAudioBuffer 8000 1 [[Fin (1 # 2)]; [Fin (-1 # 2)]].

(** Modelled from the spec: [decodeAudioData] of [utils/audioUtils] is not
    among the sources.  In the words of the specification (PCM16 Decoder):
    the input length must be a multiple of [2 * channelCount], otherwise the
    decoder fails; each 16-bit little-endian signed integer [v] becomes the
    sample [v / 32768]; the samples are de-interleaved into [channelCount]
    arrays of equal length in input order.  [None] stands for the
    failure. *)
Definition decodeAudioData (data : list Z) (sampleRate : Z)
                           (numChannels : nat) : option AudioBuffer :=
  match numChannels with
  | O => None
  | S _ =>
      if (List.length data mod (2 * numChannels) =? 0)%nat then
        let frames := (List.length data / (2 * numChannels))%nat in
        Some (mkAudioBuffer sampleRate frames
                (map (fun c =>
                        map (fun i =>
                               Fin (le_int16 data (2 * (i * numChannels + c))
                                    # 32768))
                            (seq 0 frames))
                     (seq 0 numChannels)))
      else None
  end.

(** [createAudioObjects] up to [setAudioBlob(wavBlob)], the one place
    where [bufferToWav] is called, on the bytes that [decode(base64Audio)]
    returns ([decode] is not among the sources either).  [None] stands for
    the [catch], which logs the error and sets no blob. *)
Definition createAudioObjects (decodedBytes : list Z) : option Blob :=
  match decodeAudioData decodedBytes 24000 1 with
  | Some audioBuffer => bufferToWav audioBuffer
  | None => None
  end.

End Wav.

(* ================================================================== *)
(** ** JavaScript strings *)
(* ================================================================== *)

Module Str.

(** A JavaScript string is its sequence of UTF-16 code units. *)
Definition jsstring : Type := list N.

(** A string literal of the source (all of them are ASCII). *)
Definition lit (s : string) : jsstring :=
  map N_of_ascii (list_ascii_of_string s).

(** The code units [String.prototype.trim] removes: ECMAScript WhiteSpace
    (TAB, VT, FF, SP, NBSP, ZWNBSP and the Unicode space separators) and
    LineTerminator (LF, CR, LS, PS). *)
Definition is_whitespace (c : N) : bool :=
  (existsb (N.eqb c)
     [9; 10; 11; 12; 13; 32; 160; 5760; 8232; 8233; 8239; 8287; 12288; 65279]
   || ((8192 <=? c) && (c <=? 8202)))%N.

Fixpoint trimStart (s : jsstring) : jsstring :=
  match s with
  | [] => []
  | c :: rest => if is_whitespace c then trimStart rest else s
  end.

Definition trimEnd (s : jsstring) : jsstring := rev (trimStart (rev s)).

(** [s.trim()] *)
Definition trim (s : jsstring) : jsstring := trimEnd (trimStart s).

(** [!s]: a string is falsy exactly when it is empty. *)
Definition falsy (s : jsstring) : bool :=
  match s with [] => true | _ :: _ => false end.

(** [a || b] on strings. *)
Definition or_else (a b : jsstring) : jsstring := if falsy a then b else a.

Definition whitespace_only (s : jsstring) : bool := forallb is_whitespace s.

End Str.

(* ================================================================== *)
(** ** Completions, and a state monad with exceptions *)
(* ================================================================== *)

Module Effect.
Import Str.

(** [new Error(message)] *)
Record Error : Type := mkError { message : jsstring }.

(** How a function body ends: normally with a value, or by a [throw]. *)
Inductive Completion (A : Type) : Type :=
| Normal (a : A)
| Throw (e : Error).

Arguments Normal {A} a.
Arguments Throw {A} e.

(** Computations over a world of type [W]. *)
Definition M (W A : Type) : Type := W -> Completion A * W.

Definition ret {W A} (a : A) : M W A := fun w => (Normal a, w).

Definition bind {W A B} (m : M W A) (k : A -> M W B) : M W B :=
  fun w =>
    match m w with
    | (Normal a, w') => k a w'
    | (Throw e, w') => (Throw e, w')
    end.

Definition throw {W A} (e : Error) : M W A := fun w => (Throw e, w).

Definition gets {W A} (f : W -> A) : M W A := fun w => (Normal (f w), w).

Definition modify {W} (f : W -> W) : M W unit := fun w => (Normal tt, f w).

(** [try { body } catch (e) { handler }] *)
Definition try_catch {W A} (body : M W A) (handler : Error -> M W A)
  : M W A :=
  fun w =>
    match body w with
    | (Normal a, w') => (Normal a, w')
    | (Throw e, w') => handler e w'
    end.

(** [try { body } finally { fin }], for a [fin] that cannot throw. *)
Definition try_finally {W A} (body : M W A) (fin : W -> W) : M W A :=
  fun w => let (r, w') := body w in (r, fin w').

(** Run a computation over a part [V] of the world. *)
Definition zoom {W V A} (get : W -> V) (put : V -> W -> W) (m : M V A)
  : M W A :=
  fun w => let (r, v) := m (get w) in (r, put v w).

End Effect.

Declare Scope effect_scope.
Delimit Scope effect_scope with effect.
Notation "x <- m ;; k" := (Effect.bind m (fun x => k))
  (at level 61, m at next level, right associativity) : effect_scope.
Notation "m ;; k" := (Effect.bind m (fun _ => k))
  (at level 61, right associativity) : effect_scope.

(* ================================================================== *)
(** ** The text and speech service ([services/geminiService.ts]) *)
(* ================================================================== *)

Module Gemini.
Import Str Effect.
Local Open Scope effect_scope.

(** Modelled from the spec: the enumeration [VoiceOption] of [types.ts],
    which is not among the sources; the specification gives it two values,
    and the sources name them [Male] and [Female]. *)
Inductive VoiceOption : Type := Male | Female.

(** The part of a [generateContent] response the service reads.  Every
    level that the source reaches through [?.] may be absent. *)
Record InlineData : Type := mkInlineData { data : option jsstring }.
Record Part : Type := mkPart { inlineData : option InlineData }.
Record Content : Type := mkContent { parts : option (list Part) }.
Record Candidate : Type := mkCandidate { content : option Content }.
Record GenerateContentResponse : Type := mkResponse {
  text : jsstring;
  candidates : option (list Candidate)
}.

(** A request to [ai.models.generateContent]: the model, the text sent, and
    the prebuilt voice for a speech request. *)
Record Request : Type := mkRequest {
  model : jsstring;
  contents : jsstring;
  voiceName : option jsstring
}.

(** The remote service: each request is answered by a response or by a
    rejection. *)
Inductive ApiOutcome : Type :=
| ApiResolved (response : GenerateContentResponse)
| ApiRejected (reason : Error).

Definition Remote : Type := Request -> ApiOutcome.

(** The world of the service functions: the requests sent so far. *)
Definition Sent : Type := list Request.

(** [await ai.models.generateContent(...)] *)
Definition generateContent (remote : Remote) (req : Request)
  : M Sent GenerateContentResponse :=
  fun sent =>
    match remote req with
    | ApiResolved response => (Normal response, sent ++ [req])
    | ApiRejected reason => (Throw reason, sent ++ [req])
    end.

Definition summarize_prompt (transcript : jsstring) : jsstring :=
  lit "Create a concise, abbreviated version of the following voice message transcript. Clean it up by removing filler words, pauses, and repetitions, but retain the core meaning and tone. Make it as short as possible. Transcript: "
  ++ [34%N] ++ transcript ++ [34%N].

Definition summarizeText (remote : Remote) (transcript : jsstring)
  : M Sent jsstring :=
  let model := lit "gemini-2.5-flash" in
  let prompt := summarize_prompt transcript in
  try_catch
    (response <- generateContent remote (mkRequest model prompt None) ;;
     ret (text response))
    (fun error => throw (mkError (lit "Failed to summarize text."))).

(** [response.candidates?.[0]?.content?.parts?.[0]?.inlineData?.data] *)
Definition first {A} (l : option (list A)) : option A :=
  match l with
  | Some (x :: _) => Some x
  | _ => None
  end.

Definition opt_bind {A B} (o : option A) (f : A -> option B) : option B :=
  match o with
  | Some a => f a
  | None => None
  end.

Definition audio_of (response : GenerateContentResponse) : option jsstring :=
  opt_bind (first (candidates response)) (fun candidate =>
  opt_bind (content candidate) (fun content =>
  opt_bind (first (parts content)) (fun part =>
  opt_bind (inlineData part) (fun inline => data inline)))).

(** [!base64Audio] for a value that is a string or [undefined]. *)
Definition no_audio (base64Audio : option jsstring) : bool :=
  match base64Audio with
  | None => true
  | Some s => falsy s
  end.

Definition synthesizeSpeech (remote : Remote) (text : jsstring)
                            (voice : VoiceOption) : M Sent jsstring :=
  let model := lit "gemini-2.5-flash-preview-tts" in
  let voiceName := match voice with
                   | Male => lit "Puck"
                   | Female => lit "Kore"
                   end in
  try_catch
    (response <- generateContent remote
                   (mkRequest model text (Some voiceName)) ;;
     let base64Audio := audio_of response in
     match base64Audio with
     | Some audio =>
         if falsy audio
         then throw (mkError (lit "No audio data received from API."))
         else ret audio
     | None => throw (mkError (lit "No audio data received from API."))
     end)
    (fun error => throw (mkError (lit "Failed to synthesize speech."))).

(** The two errors the specification tells apart. *)
Definition generic_synthesis_error : Error :=
  mkError (lit "Failed to synthesize speech.").

Definition no_audio_error : Error :=
  mkError (lit "No audio data received from API.").

End Gemini.

(* ================================================================== *)
(** ** The recording session ([App.tsx]) *)
(* ================================================================== *)

Module Session.
Import JS Bytes Capture Str Effect Gemini.
Local Open Scope effect_scope.

(** [audioContext.state] *)
Inductive AudioContextState : Type := Running | Suspended | Closed.

Definition is_closed (st : AudioContextState) : bool :=
  match st with Closed => true | _ => false end.

(** A [ScriptProcessorNode]: whether [onaudioprocess] holds a handler. *)
Record ScriptProcessorNode : Type := mkProcessor { onaudioprocess_set : bool }.

(** The object sent with [sendRealtimeInput]. *)
Record GenAI_Blob : Type := mkGenAIBlob {
  blob_data : jsstring;
  mimeType : jsstring
}.

(** The promise returned by [ai.live.connect] and the callbacks waiting on
    it.  Two callbacks are ever registered with [.then]: the one of
    [stopRecordingFlow] that closes the session and the one of
    [onaudioprocess] that sends a block. *)
Inductive PromiseStatus : Type := Pending | Fulfilled | Rejected.

Inductive Reaction : Type :=
| CloseSession
| SendInput (media : GenAI_Blob).

Record Promise : Type := mkPromise {
  status : PromiseStatus;
  reactions : list Reaction
}.

(** The calls the application makes on the capture device, the audio graph
    and the live session.  A session, its promise and the stream captured by
    its callbacks are named by the index of the promise. *)
Inductive Call : Type :=
| GetUserMedia
| LiveConnect (p : nat)
| SourceConnect
| ProcessorConnect
| SourceDisconnect
| ProcessorDisconnect
| ClearOnaudioprocess
| ContextClose
| SessionClose (p : nat)
| SendRealtimeInput (p : nat) (media : GenAI_Blob)
| StopTracks (p : nat).

(** The component state ([useState]), its references ([useRef]), the
    promises created so far, the microtask queue, and what has been done to
    the outside world: the calls on the audio and session resources and the
    requests sent to the text and speech service.  A handler reads
    [isRecording] and [selectedVoice] as of the render that created it; the
    handlers run here are those of the latest render, so they read the
    current state. *)
Record App : Type := mkApp {
  isRecording : bool;
  isProcessing : bool;
  processingStep : jsstring;
  selectedVoice : VoiceOption;
  finalAudio : option jsstring;
  error : option jsstring;
  transcriptRef : jsstring;
  audioContextRef : option AudioContextState;
  scriptProcessorRef : option ScriptProcessorNode;
  mediaStreamSourceRef : option unit;
  sessionPromiseRef : option nat;
  promises : list Promise;
  microtasks : list (nat * Reaction);
  calls : list Call;
  requests : Sent
}.

Definition setIsRecording (v : bool) (s : App) : App :=
  mkApp v (isProcessing s) (processingStep s) (selectedVoice s)
        (finalAudio s) (error s) (transcriptRef s) (audioContextRef s)
        (scriptProcessorRef s) (mediaStreamSourceRef s) (sessionPromiseRef s)
        (promises s) (microtasks s) (calls s) (requests s).

Definition setIsProcessing (v : bool) (s : App) : App :=
  mkApp (isRecording s) v (processingStep s) (selectedVoice s)
        (finalAudio s) (error s) (transcriptRef s) (audioContextRef s)
        (scriptProcessorRef s) (mediaStreamSourceRef s) (sessionPromiseRef s)
        (promises s) (microtasks s) (calls s) (requests s).

Definition setProcessingStep (v : jsstring) (s : App) : App :=
  mkApp (isRecording s) (isProcessing s) v (selectedVoice s)
        (finalAudio s) (error s) (transcriptRef s) (audioContextRef s)
        (scriptProcessorRef s) (mediaStreamSourceRef s) (sessionPromiseRef s)
        (promises s) (microtasks s) (calls s) (requests s).

Definition setFinalAudio (v : option jsstring) (s : App) : App :=
  mkApp (isRecording s) (isProcessing s) (processingStep s) (selectedVoice s)
        v (error s) (transcriptRef s) (audioContextRef s)
        (scriptProcessorRef s) (mediaStreamSourceRef s) (sessionPromiseRef s)
        (promises s) (microtasks s) (calls s) (requests s).

Definition setError (v : option jsstring) (s : App) : App :=
  mkApp (isRecording s) (isProcessing s) (processingStep s) (selectedVoice s)
        (finalAudio s) v (transcriptRef s) (audioContextRef s)
        (scriptProcessorRef s) (mediaStreamSourceRef s) (sessionPromiseRef s)
        (promises s) (microtasks s) (calls s) (requests s).

Definition set_transcriptRef (v : jsstring) (s : App) : App :=
  mkApp (isRecording s) (isProcessing s) (processingStep s) (selectedVoice s)
        (finalAudio s) (error s) v (audioContextRef s)
        (scriptProcessorRef s) (mediaStreamSourceRef s) (sessionPromiseRef s)
        (promises s) (microtasks s) (calls s) (requests s).

Definition set_audioContextRef (v : option AudioContextState) (s : App)
  : App :=
  mkApp (isRecording s) (isProcessing s) (processingStep s) (selectedVoice s)
        (finalAudio s) (error s) (transcriptRef s) v
        (scriptProcessorRef s) (mediaStreamSourceRef s) (sessionPromiseRef s)
        (promises s) (microtasks s) (calls s) (requests s).

Definition set_scriptProcessorRef (v : option ScriptProcessorNode) (s : App)
  : App :=
  mkApp (isRecording s) (isProcessing s) (processingStep s) (selectedVoice s)
        (finalAudio s) (error s) (transcriptRef s) (audioContextRef s)
        v (mediaStreamSourceRef s) (sessionPromiseRef s)
        (promises s) (microtasks s) (calls s) (requests s).

Definition set_mediaStreamSourceRef (v : option unit) (s : App) : App :=
  mkApp (isRecording s) (isProcessing s) (processingStep s) (selectedVoice s)
        (finalAudio s) (error s) (transcriptRef s) (audioContextRef s)
        (scriptProcessorRef s) v (sessionPromiseRef s)
        (promises s) (microtasks s) (calls s) (requests s).

Definition set_sessionPromiseRef (v : option nat) (s : App) : App :=
  mkApp (isRecording s) (isProcessing s) (processingStep s) (selectedVoice s)
        (finalAudio s) (error s) (transcriptRef s) (audioContextRef s)
        (scriptProcessorRef s) (mediaStreamSourceRef s) v
        (promises s) (microtasks s) (calls s) (requests s).

Definition set_promises (v : list Promise) (s : App) : App :=
  mkApp (isRecording s) (isProcessing s) (processingStep s) (selectedVoice s)
        (finalAudio s) (error s) (transcriptRef s) (audioContextRef s)
        (scriptProcessorRef s) (mediaStreamSourceRef s) (sessionPromiseRef s)
        v (microtasks s) (calls s) (requests s).

Definition set_microtasks (v : list (nat * Reaction)) (s : App) : App :=
  mkApp (isRecording s) (isProcessing s) (processingStep s) (selectedVoice s)
        (finalAudio s) (error s) (transcriptRef s) (audioContextRef s)
        (scriptProcessorRef s) (mediaStreamSourceRef s) (sessionPromiseRef s)
        (promises s) v (calls s) (requests s).

Definition set_calls (v : list Call) (s : App) : App :=
  mkApp (isRecording s) (isProcessing s) (processingStep s) (selectedVoice s)
        (finalAudio s) (error s) (transcriptRef s) (audioContextRef s)
        (scriptProcessorRef s) (mediaStreamSourceRef s) (sessionPromiseRef s)
        (promises s) (microtasks s) v (requests s).

Definition set_requests (v : Sent) (s : App) : App :=
  mkApp (isRecording s) (isProcessing s) (processingStep s) (selectedVoice s)
        (finalAudio s) (error s) (transcriptRef s) (audioContextRef s)
        (scriptProcessorRef s) (mediaStreamSourceRef s) (sessionPromiseRef s)
        (promises s) (microtasks s) (calls s) v.

(** Perform a call on an outside resource. *)
Definition emit (c : Call) (s : App) : App := set_calls (calls s ++ [c]) s.

(** *** Promises and microtasks *)

Definition promise_status (p : nat) (s : App) : option PromiseStatus :=
  option_map status (nth_error (promises s) p).

Fixpoint update_nth {A} (n : nat) (f : A -> A) (l : list A) : list A :=
  match n, l with
  | _, [] => []
  | O, x :: rest => f x :: rest
  | S n', x :: rest => x :: update_nth n' f rest
  end.

(** [promise.then(r)]: on a fulfilled promise the callback becomes a
    microtask, on a pending one it waits for the fulfilment, on a rejected
    one it never runs. *)
Definition promise_then (p : nat) (r : Reaction) (s : App) : App :=
  match promise_status p s with
  | Some Fulfilled => set_microtasks (microtasks s ++ [(p, r)]) s
  | Some Pending =>
      set_promises
        (update_nth p (fun pr => mkPromise Pending (reactions pr ++ [r]))
                    (promises s)) s
  | Some Rejected | None => s
  end.

(** The body of a registered callback, run with the session [p]:
    [session.close()] or [session.sendRealtimeInput({ media })]. *)
Definition reaction_call (t : nat * Reaction) : Call :=
  match t with
  | (p, CloseSession) => SessionClose p
  | (p, SendInput media) => SendRealtimeInput p media
  end.

Definition run_reaction (t : nat * Reaction) (s : App) : App :=
  emit (reaction_call t) s.

(** Drain the microtask queue (no callback here queues another one). *)
Definition run_microtasks (s : App) : App :=
  fold_left (fun s t => run_reaction t s) (microtasks s)
            (set_microtasks [] s).

(** *** [stopRecordingFlow] *)

Definition stopRecordingFlow (s : App) : App :=
  let s := setIsRecording false s in
  let s := match sessionPromiseRef s with
           | Some p => set_sessionPromiseRef None (promise_then p CloseSession s)
           | None => s
           end in
  let s := match mediaStreamSourceRef s with
           | Some _ => set_mediaStreamSourceRef None (emit SourceDisconnect s)
           | None => s
           end in
  let s := match scriptProcessorRef s with
           | Some _ =>
               set_scriptProcessorRef None
                 (emit ClearOnaudioprocess (emit ProcessorDisconnect s))
           | None => s
           end in
  match audioContextRef s with
  | Some st =>
      if is_closed st then s
      else set_audioContextRef None (emit ContextClose s)
  | None => s
  end.

(** *** The callbacks given to [ai.live.connect] and the capture callback *)

(** A [LiveServerMessage], as far as [onmessage] reads it:
    [message.serverContent?.inputTranscription] and its [text]. *)
Record Transcription : Type := mkTranscription { tr_text : option jsstring }.
Record ServerContent : Type :=
  mkServerContent { inputTranscription : option Transcription }.
Record LiveServerMessage : Type :=
  mkMessage { serverContent : option ServerContent }.

(** [s += x] for an [x] that may be [undefined]. *)
Definition append_text (s : jsstring) (x : option jsstring) : jsstring :=
  match x with
  | Some t => s ++ t
  | None => s ++ lit "undefined"
  end.

Definition onmessage (message : LiveServerMessage) (s : App) : App :=
  match opt_bind (serverContent message) inputTranscription with
  | Some tr => set_transcriptRef (append_text (transcriptRef s) (tr_text tr)) s
  | None => s
  end.

Definition onerror (s : App) : App :=
  let s := setError
             (Some (lit "A connection error occurred. Please try again.")) s in
  stopRecordingFlow s.

(** [onclose] of the session [p]: every track of the stream captured when
    the session was started is stopped, which releases the microphone. *)
Definition onclose (p : nat) (s : App) : App := emit (StopTracks p) s.

(** [scriptProcessorRef.current.onaudioprocess]; [encode] is the base64
    encoder of [utils/audioUtils], which is not among the sources.  With no
    session promise the read of [.then] throws and the handler ends. *)
Definition onaudioprocess (encode : list Z -> jsstring)
                          (inputData : list jsnum) (s : App) : App :=
  let int16 := capture_int16 inputData in
  let pcmBlob := mkGenAIBlob (encode (Uint8Array_of_Int16Array int16))
                             (lit "audio/pcm;rate=16000") in
  match sessionPromiseRef s with
  | Some p => promise_then p (SendInput pcmBlob) s
  | None => s
  end.

(** *** What the environment does between two steps of the application *)

Inductive LiveEvent : Type :=
| Fulfil (p : nat)
| Reject (p : nat)
| Message (message : LiveServerMessage)
| ConnectionError
| ConnectionClosed (p : nat).

(** The connection of session [p] is established: the waiting callbacks
    become microtasks. *)
Definition fulfil (p : nat) (s : App) : App :=
  match nth_error (promises s) p with
  | Some (mkPromise Pending rs) =>
      set_microtasks (microtasks s ++ map (fun r => (p, r)) rs)
        (set_promises (update_nth p (fun _ => mkPromise Fulfilled [])
                                  (promises s)) s)
  | _ => s
  end.

Definition reject (p : nat) (s : App) : App :=
  match nth_error (promises s) p with
  | Some (mkPromise Pending rs) =>
      set_promises (update_nth p (fun _ => mkPromise Rejected [])
                               (promises s)) s
  | _ => s
  end.

(** One event: its handler runs, then the microtasks it queued. *)
Definition deliver (ev : LiveEvent) (s : App) : App :=
  run_microtasks
    match ev with
    | Fulfil p => fulfil p s
    | Reject p => reject p s
    | Message message => onmessage message s
    | ConnectionError => onerror s
    | ConnectionClosed p => onclose p s
    end.

(** An [await]: the handler is suspended, the pending microtasks run, and
    the events [during] of the live sessions are delivered before the
    handler resumes. *)
Definition suspend (during : list LiveEvent) (s : App) : App :=
  fold_left (fun s ev => deliver ev s) during (run_microtasks s).

(** [await m]: [m] is started, and its outcome reaches the handler after
    the suspension. *)
Definition awaiting {A} (during : list LiveEvent) (m : M App A) : M App A :=
  fun s => let (r, s') := m s in (r, suspend during s').

(** *** [handleStartRecording] *)

(** [await navigator.mediaDevices.getUserMedia({ audio: true })] *)
Definition getUserMedia (granted : bool) : M App unit :=
  fun s =>
    if granted then (Normal tt, emit GetUserMedia s)
    else (Throw (mkError (lit "Permission denied")), emit GetUserMedia s).

(** [sessionPromiseRef.current = ai.live.connect({...})] *)
Definition live_connect (s : App) : App :=
  let p := List.length (promises s) in
  set_sessionPromiseRef (Some p)
    (emit (LiveConnect p)
       (set_promises (promises s ++ [mkPromise Pending []]) s)).

(** The calls inside the [try] of [handleStartRecording] that come after
    the capture device is granted and can throw: the constructors and
    methods of the Web Audio API and of the SDK, in source order. *)
Inductive SetupStep : Type :=
| NewAudioContext
| CreateMediaStreamSource
| CreateScriptProcessor
| NewGoogleGenAI
| AiLiveConnect
| ConnectSource
| ConnectProcessor.

Definition same_step (a b : SetupStep) : bool :=
  match a, b with
  | NewAudioContext, NewAudioContext
  | CreateMediaStreamSource, CreateMediaStreamSource
  | CreateScriptProcessor, CreateScriptProcessor
  | NewGoogleGenAI, NewGoogleGenAI
  | AiLiveConnect, AiLiveConnect
  | ConnectSource, ConnectSource
  | ConnectProcessor, ConnectProcessor => true
  | _, _ => false
  end.

(** The call [m] made at the step [step]: when the environment makes this
    step fail the call throws and has no effect (the assignment it stands
    in is not made); the [catch] does not read the error. *)
Definition fallible (failing : option SetupStep) (step : SetupStep)
                    (m : M App unit) : M App unit :=
  match failing with
  | Some f =>
      if same_step f step then throw (mkError (lit "NotSupportedError"))
      else m
  | None => m
  end.

(** [granted] says whether [getUserMedia] resolves, [failing] which of the
    later calls of the [try] block throws, if any. *)
Definition handleStartRecording (granted : bool) (failing : option SetupStep)
                                (during : list LiveEvent) : M App unit :=
  modify (setError None) ;;
  modify (setFinalAudio None) ;;
  modify (set_transcriptRef []) ;;
  recording <- gets isRecording ;;
  if recording : bool then
    modify stopRecordingFlow
  else
    try_catch
      (awaiting during (getUserMedia granted) ;;
       modify (setIsRecording true) ;;
       fallible failing NewAudioContext
         (modify (set_audioContextRef (Some Running))) ;;
       fallible failing CreateMediaStreamSource
         (modify (set_mediaStreamSourceRef (Some tt))) ;;
       fallible failing CreateScriptProcessor
         (modify (set_scriptProcessorRef (Some (mkProcessor false)))) ;;
       fallible failing NewGoogleGenAI (ret tt) ;;
       fallible failing AiLiveConnect (modify live_connect) ;;
       modify (set_scriptProcessorRef (Some (mkProcessor true))) ;;
       fallible failing ConnectSource (modify (emit SourceConnect)) ;;
       fallible failing ConnectProcessor (modify (emit ProcessorConnect)))
      (fun err =>
         modify (setError (Some (lit
           "Could not access the microphone. Please check permissions and try again."))) ;;
         modify (setIsRecording false)).

(** *** [handleStopRecording] *)

Definition no_speech_message : jsstring :=
  lit "No speech was detected. Please try recording again.".

(** The events that arrive at the three [await]s of [handleStopRecording]:
    during the settle delay of 500 ms, and while each of the two requests
    is answered. *)
Record StopAwaits : Type := mkStopAwaits {
  during_settle : list LiveEvent;
  during_summarize : list LiveEvent;
  during_synthesize : list LiveEvent
}.

Definition handleStopRecording (remote : Remote) (env : StopAwaits)
  : M App unit :=
  recording <- gets isRecording ;;
  if negb recording then ret tt
  else
    modify stopRecordingFlow ;;
    modify (setIsProcessing true) ;;
    modify (setError None) ;;
    try_finally
      (try_catch
         (modify (suspend (during_settle env)) ;;
          transcript <- gets transcriptRef ;;
          if falsy (trim transcript) then
            modify (setError (Some no_speech_message)) ;;
            modify (setIsProcessing false)
          else
            modify (setProcessingStep (lit "Cleaning up transcript...")) ;;
            transcript <- gets transcriptRef ;;
            summarizedText <- awaiting (during_summarize env)
                                (zoom requests set_requests
                                   (summarizeText remote transcript)) ;;
            modify (setProcessingStep (lit "Synthesizing audio...")) ;;
            voice <- gets selectedVoice ;;
            audioB64 <- awaiting (during_synthesize env)
                          (zoom requests set_requests
                             (synthesizeSpeech remote summarizedText voice)) ;;
            modify (setFinalAudio (Some audioB64)))
         (fun err =>
            modify (setError (Some
              (or_else (message err)
                       (lit "An error occurred during processing."))))))
      (fun s => setProcessingStep [] (setIsProcessing false s)).

(** The handler up to its [await], and the transcript it reads once the
    settle delay is over. *)
Definition stop_prologue (s : App) : App :=
  setError None (setIsProcessing true (stopRecordingFlow s)).

Definition accumulated_transcript (env : StopAwaits) (s : App) : jsstring :=
  transcriptRef (suspend (during_settle env) (stop_prologue s)).

(** The handler of a start up to the test of [isRecording]. *)
Definition start_prologue (s : App) : App :=
  set_transcriptRef [] (setFinalAudio None (setError None s)).

(** The close notification of session [p] arrives during the settle delay
    and nothing else happens. *)
Definition closed_in_time (p : nat) : StopAwaits :=
  mkStopAwaits [ConnectionClosed p] [] [].

(** All events that arrive while the handler of a stop is suspended. *)
Definition all_events (env : StopAwaits) : list LiveEvent :=
  during_settle env ++ during_summarize env ++ during_synthesize env.

(** The list of calls [l'] continues [l], and releases the capture device
    of a session only if the close notification of that session is among
    the events [evs]. *)
Definition grows (evs : list LiveEvent) (l l' : list Call) : Prop :=
  exists rest,
    l' = l ++ rest
    /\ forall q, In (StopTracks q) rest -> In (ConnectionClosed q) evs.

(** *** The states of a session *)

(** Recording with the live session open: what a successful
    [handleStartRecording] followed by the fulfilment of the connection
    leaves behind. *)
Definition recording_with (p : nat) (s : App) : bool :=
  isRecording s
  && match sessionPromiseRef s with Some q => Nat.eqb q p | None => false end
  && match promise_status p s with Some Fulfilled => true | _ => false end
  && match mediaStreamSourceRef s with Some _ => true | None => false end
  && match scriptProcessorRef s with Some _ => true | None => false end
  && match audioContextRef s with
     | Some st => negb (is_closed st)
     | None => false
     end
  && match microtasks s with [] => true | _ => false end.

(** Recording with the session [p]: what a start that succeeded leaves
    behind, whatever has become of the connection since (still being
    established, established, or failed), and whatever is queued on it. *)
Definition recording_on (p : nat) (s : App) : bool :=
  isRecording s
  && match sessionPromiseRef s with Some q => Nat.eqb q p | None => false end
  && match promise_status p s with Some _ => true | None => false end
  && match mediaStreamSourceRef s with Some _ => true | None => false end
  && match scriptProcessorRef s with Some _ => true | None => false end
  && match audioContextRef s with
     | Some st => negb (is_closed st)
     | None => false
     end
  && match microtasks s with [] => true | _ => false end.

(** Nothing left to tear down. *)
Definition torn_down (s : App) : bool :=
  negb (isRecording s)
  && match sessionPromiseRef s with None => true | Some _ => false end
  && match mediaStreamSourceRef s with None => true | Some _ => false end
  && match scriptProcessorRef s with None => true | Some _ => false end
  && match audioContextRef s with
     | None => true
     | Some st => is_closed st
     end.

(** The component as first rendered. *)
Definition initial : App :=
  mkApp false false [] Female None None [] None None None None [] [] [] [].

(** A session just started: its connection is still being established. *)
Definition connecting : App :=
  snd (handleStartRecording true None [] initial).

(** A session that is recording, with its connection established and some
    text transcribed. *)
Definition started : App :=
  deliver (Message (mkMessage (Some (mkServerContent
             (Some (mkTranscription (Some (lit "hello"))))))))
    (deliver (Fulfil 0) connecting).

(** The same with only blanks transcribed. *)
Definition started_silent : App :=
  deliver (Message (mkMessage (Some (mkServerContent
             (Some (mkTranscription (Some (lit "  "))))))))
    (deliver (Fulfil 0) connecting).

(** A remote service that answers every request with an empty response. *)
Definition silent_remote : Remote :=
  fun _ => ApiResolved (mkResponse [] None).

(** A remote service that condenses every transcript to ["Hello world."]
    and synthesizes the audio ["AAAA"]. *)
Definition helpful_remote : Remote :=
  fun req =>
    match voiceName req with
    | None => ApiResolved (mkResponse (lit "Hello world.") None)
    | Some _ =>
        ApiResolved
          (mkResponse []
             (Some [mkCandidate (Some (mkContent (Some
                [mkPart (Some (mkInlineData (Some (lit "AAAA"))))])))]))
    end.

(** A remote service that rejects every request. *)
Definition failing_remote : Remote :=
  fun _ => ApiRejected (mkError (lit "503")).

(** Nothing arrives while the handler of a stop is suspended. *)
Definition no_events : StopAwaits := mkStopAwaits [] [] [].

(** A session whose connection has failed while it was being
    established. *)
Definition connection_failed : App := deliver (Reject 0) connecting.

End Session.

(* ================================================================== *)
(** ** Readers and observers for the further properties *)
(* ================================================================== *)

Module Observe.
Import JS Bytes Capture Wav Str Effect Gemini Session.

(** The little-endian unsigned 16-bit integer found at an offset. *)
Definition le_uint16 (buf : list Z) (offset : nat) : Z :=
  nth offset buf 0 + 256 * nth (offset + 1) buf 0.

Definition is_byte (b : Z) : Prop := 0 <= b < 256.

(** The sample a signed 16-bit integer [v] stands for on the PCM grid:
    [v / 32768]. *)
Definition pcm_value (v : Z) : Q := v # 32768.

(** The two requests of [geminiService.ts]. *)
Definition summarize_request (transcript : jsstring) : Request :=
  mkRequest (lit "gemini-2.5-flash") (summarize_prompt transcript) None.

Definition voice_name (voice : VoiceOption) : jsstring :=
  match voice with
  | Male => lit "Puck"
  | Female => lit "Kore"
  end.

Definition speech_request (text : jsstring) (voice : VoiceOption) : Request :=
  mkRequest (lit "gemini-2.5-flash-preview-tts") text
            (Some (voice_name voice)).

(** What one message adds to the transcript in [onmessage]. *)
Definition message_text (message : LiveServerMessage) : jsstring :=
  match opt_bind (serverContent message) inputTranscription with
  | Some tr =>
      match tr_text tr with
      | Some t => t
      | None => lit "undefined"
      end
  | None => []
  end.

(** The object [pcmBlob] built by [onaudioprocess] for one block. *)
Definition pcm_blob (encode : list Z -> jsstring) (block : list jsnum)
  : GenAI_Blob :=
  mkGenAIBlob (encode (capture_bytes block)) (lit "audio/pcm;rate=16000").

(** One [audioprocess] event: the handler, then the microtasks it
    queued; and a run of such events, one per captured block. *)
Definition audio_event (encode : list Z -> jsstring) (block : list jsnum)
                       (s : App) : App :=
  run_microtasks (onaudioprocess encode block s).

Definition capture_blocks (encode : list Z -> jsstring)
                          (blocks : list (list jsnum)) (s : App) : App :=
  fold_left (fun s block => audio_event encode block s) blocks s.

(** The calls [stopRecordingFlow] makes at once in a state: one group per
    resource the state still holds. *)
Definition held_calls (s : App) : list Call :=
  match mediaStreamSourceRef s with
  | Some _ => [SourceDisconnect]
  | None => []
  end
  ++ match scriptProcessorRef s with
     | Some _ => [ProcessorDisconnect; ClearOnaudioprocess]
     | None => []
     end
  ++ match audioContextRef s with
     | Some st => if is_closed st then [] else [ContextClose]
     | None => []
     end.

(** The speech request for [text] and [voice] does not yield audio: it is
    rejected, or its response carries no audio in the first part of its
    first candidate. *)
Definition speech_fails (remote : Remote) (text : jsstring)
                        (voice : VoiceOption) : Prop :=
  match remote (speech_request text voice) with
  | ApiResolved response => no_audio (audio_of response) = true
  | ApiRejected _ => True
  end.

(** Recording while the connection of session [p] is still being
    established, with nothing queued yet. *)
Definition connecting_with (p : nat) (s : App) : bool :=
  isRecording s
  && match sessionPromiseRef s with Some q => Nat.eqb q p | None => false end
  && match nth_error (promises s) p with
     | Some (mkPromise Pending []) => true
     | _ => false
     end
  && match mediaStreamSourceRef s with Some _ => true | None => false end
  && match scriptProcessorRef s with Some _ => true | None => false end
  && match audioContextRef s with
     | Some st => negb (is_closed st)
     | None => false
     end
  && match microtasks s with [] => true | _ => false end.


(** The teardown of a stop in the words of the specification, as a
    property of the calls [added] by the stop: the capture source is
    disconnected, then the processing node, then the live session is
    closed, then its capture device is released. *)
Definition spec_teardown_order (added : list Call) : Prop :=
  exists p a b c d e,
    added = a ++ SourceDisconnect :: b ++ ProcessorDisconnect :: c
              ++ SessionClose p :: d ++ StopTracks p :: e.

(** Two states agree on what the callbacks of the live session and the
    teardown read and write: the references, the promises, the queued
    callbacks and the calls made. *)
Definition same_session (s s' : App) : Prop :=
  audioContextRef s = audioContextRef s'
  /\ scriptProcessorRef s = scriptProcessorRef s'
  /\ mediaStreamSourceRef s = mediaStreamSourceRef s'
  /\ sessionPromiseRef s = sessionPromiseRef s'
  /\ promises s = promises s'
  /\ microtasks s = microtasks s'
  /\ calls s = calls s'.

(** The callbacks waiting on the connection [p]. *)
Definition waiting_on (p : nat) (s : App) : list Reaction :=
  match nth_error (promises s) p with
  | Some promise => reactions promise
  | None => []
  end.

(** A stand-in for the base64 encoder in concrete runs. *)
Definition raw_encode (bytes : list Z) : jsstring := map Z.to_N bytes.

End Observe.

(* ================================================================== *)
(** * Properties *)
(* ================================================================== *)

Import JS Bytes Capture Wav Str Effect Gemini Session Observe.

(** ** Products in binary64 *)

Section Binary64Facts.
Import Binary64.

Lemma digits2_pos_le (p : positive) :
  forall n, Z.pos p < 2 ^ n -> 0 <= n -> Z.pos (digits2_pos p) <= n.
Proof.
  induction p as [p IH | p IH |]; intros n Hp Hn; cbn [digits2_pos].
  - assert (n <> 0) by (intros ->; cbn in Hp; lia).
    replace n with (Z.succ (n - 1)) in Hp by lia.
    rewrite Z.pow_succ_r in Hp by lia.
    specialize (IH (n - 1) ltac:(lia) ltac:(lia)). lia.
  - assert (n <> 0) by (intros ->; cbn in Hp; lia).
    replace n with (Z.succ (n - 1)) in Hp by lia.
    rewrite Z.pow_succ_r in Hp by lia.
    specialize (IH (n - 1) ltac:(lia) ltac:(lia)). lia.
  - assert (n <> 0) by (intros ->; cbn in Hp; lia). lia.
Qed.

(** A significand of at most 53 bits is not shifted, hence not rounded. *)
Lemma shr_fexp_exact (m : positive) (e : Z) :
  Z.pos (digits2_pos m) <= 53 -> -1074 <= e ->
  shr_fexp 53 1024 (Z.pos m) e loc_Exact
  = (Build_shr_record (Z.pos m) false false, e).
Proof.
  intros Hd He. unfold shr_fexp, shr, fexp, emin.
  cbn [Zdigits2 shr_record_of_loc].
  destruct (Z.sub _ e) eqn:E; try reflexivity.
  exfalso. lia.
Qed.

(** The binary64 product of a float32 and an integer below [2^16] is the
    exact product. *)
Lemma b64_mul_exact (s : bool) (m k : positive) (e : Z) :
  Z.pos m < 2 ^ 24 -> Z.pos k < 2 ^ 16 -> -149 <= e <= 104 ->
  b64_mul (S754_finite s m e) (b64_const k) = S754_finite s (m * k) e.
Proof.
  intros Hm Hk He. unfold b64_mul, b64_const, SFmul, binary_round_aux.
  rewrite Z.add_0_r, xorb_false_r.
  assert (Z.pos (digits2_pos (m * k)) <= 53) as Hd.
  { assert (Z.pos (digits2_pos (m * k)) <= 40); [| lia].
    apply digits2_pos_le; [| lia].
    rewrite Pos2Z.inj_mul. change (2 ^ 40) with (2 ^ 24 * 2 ^ 16). nia. }
  rewrite shr_fexp_exact by lia.
  cbn [shr_m loc_of_shr_record round_nearest_even].
  rewrite shr_fexp_exact by lia.
  cbn [shr_m].
  replace (e <=? 1024 - 53) with true by (symmetry; apply Z.leb_le; lia).
  reflexivity.
Qed.

(** [js_mul] computes what binary64 computes on the products of the
    source: a float32 times [32768] or [32767]. *)
Lemma js_mul_is_binary64 (x : spec_float) (k : positive) :
  is_float32 x -> Z.pos k < 2 ^ 16 ->
  same_number (number_of (b64_mul x (b64_const k)))
              (js_mul (number_of x) (js_int (Z.pos k))).
Proof.
  intros Hx Hk. destruct x as [s | s | | s m e].
  - cbn. unfold Qeq. cbn. reflexivity.
  - cbn. destruct s; reflexivity.
  - exact I.
  - destruct Hx as [Hm He]. rewrite b64_mul_exact by assumption.
    unfold number_of, js_mul, js_int, same_number.
    destruct s.
    + change (Z.neg (m * k)) with (Z.neg m * Z.pos k).
      rewrite inject_Z_mult. ring.
    + change (Z.pos (m * k)) with (Z.pos m * Z.pos k).
      rewrite inject_Z_mult. ring.
Qed.

(** The same on normalised binary64 operands: [1.75 * 2^-15] times
    [32768] is [1.75]. *)
Example b64_mul_normalised :
  b64_mul (S754_finite false 7881299347898368 (-67))
          (S754_finite false 4503599627370496 (-37))
  = S754_finite false 7881299347898368 (-52)
  /\ valid_binary 53 1024 (S754_finite false 7881299347898368 (-67)) = true
  /\ same_number (number_of (S754_finite false 7881299347898368 (-67)))
                 (Fin (7 # 131072))
  /\ same_number (number_of (S754_finite false 7881299347898368 (-52)))
                 (Fin (7 # 4)).
Proof. repeat split. Qed.

End Binary64Facts.

(** ** Integers, bytes and truncation *)

Section Integers.

Lemma wrap16_range (z : Z) : -32768 <= wrap16 z <= 32767.
Proof.
  unfold wrap16.
  pose proof (Z.mod_pos_bound z 65536 ltac:(lia)) as Hr.
  destruct (32768 <=? z mod 65536) eqn:E;
    [apply Z.leb_le in E | apply Z.leb_gt in E]; lia.
Qed.

Lemma wrap16_id (z : Z) : -32768 <= z <= 32767 -> wrap16 z = z.
Proof.
  intros Hz. unfold wrap16.
  destruct (Z_lt_le_dec z 0) as [Hneg | Hpos].
  - replace (z mod 65536) with (z + 65536).
    + destruct (32768 <=? z + 65536) eqn:E;
        [lia | apply Z.leb_gt in E; lia].
    + apply Z.mod_unique with (q := -1); lia.
  - rewrite Z.mod_small by lia.
    destruct (32768 <=? z) eqn:E; [apply Z.leb_le in E; lia | reflexivity].
Qed.


Lemma wrap16_mod (z : Z) : wrap16 (z mod 65536) = wrap16 z.
Proof. unfold wrap16. rewrite Z.mod_mod by lia. reflexivity. Qed.

Lemma byte_at_div (v k : Z) :
  0 <= k -> byte_at v k = (v / 2 ^ (8 * k)) mod 256.
Proof.
  intros Hk. unfold byte_at.
  change 255 with (Z.ones 8).
  rewrite Z.land_ones by lia.
  rewrite Z.shiftr_div_pow2 by lia.
  reflexivity.
Qed.

Lemma byte_at_range (v k : Z) : 0 <= k -> 0 <= byte_at v k < 256.
Proof.
  intros Hk. rewrite byte_at_div by assumption.
  apply Z.mod_pos_bound; lia.
Qed.

(** Two little-endian bytes hold a value modulo [2^16]. *)
Lemma le_bytes16 (v : Z) : byte_at v 0 + 256 * byte_at v 1 = v mod 65536.
Proof.
  rewrite !byte_at_div by lia.
  change (2 ^ (8 * 0)) with 1. change (2 ^ (8 * 1)) with 256.
  rewrite Z.div_1_r.
  pose proof (Z.div_mod v 256 ltac:(lia)).
  pose proof (Z.div_mod (v / 256) 256 ltac:(lia)).
  pose proof (Z.mod_pos_bound v 256 ltac:(lia)).
  pose proof (Z.mod_pos_bound (v / 256) 256 ltac:(lia)).
  apply Z.mod_unique with (q := v / 256 / 256); lia.
Qed.

(** Four little-endian bytes hold a value modulo [2^32]. *)
Lemma le_bytes32 (v : Z) :
  byte_at v 0 + 256 * byte_at v 1 + 65536 * byte_at v 2
  + 16777216 * byte_at v 3 = v mod 4294967296.
Proof.
  rewrite !byte_at_div by lia.
  change (2 ^ (8 * 0)) with 1. change (2 ^ (8 * 1)) with 256.
  change (2 ^ (8 * 2)) with (256 * 256).
  change (2 ^ (8 * 3)) with (256 * 256 * 256).
  rewrite Z.div_1_r, <- !Z.div_div by lia.
  pose proof (Z.div_mod v 256 ltac:(lia)).
  pose proof (Z.div_mod (v / 256) 256 ltac:(lia)).
  pose proof (Z.div_mod (v / 256 / 256) 256 ltac:(lia)).
  pose proof (Z.div_mod (v / 256 / 256 / 256) 256 ltac:(lia)).
  pose proof (Z.mod_pos_bound v 256 ltac:(lia)).
  pose proof (Z.mod_pos_bound (v / 256) 256 ltac:(lia)).
  pose proof (Z.mod_pos_bound (v / 256 / 256) 256 ltac:(lia)).
  pose proof (Z.mod_pos_bound (v / 256 / 256 / 256) 256 ltac:(lia)).
  apply Z.mod_unique with (q := v / 256 / 256 / 256 / 256); lia.
Qed.

(** Reading back a stored 16-bit element. *)
Lemma le_int16_bytes (v : Z) rest :
  -32768 <= v <= 32767 -> le_int16 (int16_bytes v ++ rest) 0 = v.
Proof.
  intros Hv. unfold le_int16, int16_bytes. cbn [nth app Nat.add].
  rewrite le_bytes16, wrap16_mod. apply wrap16_id, Hv.
Qed.

(** Truncation toward zero: the quotient and a remainder on the side of
    the numerator. *)
Lemma Qtrunc_spec (q : Q) :
  exists r, Qnum q = Zpos (Qden q) * Qtrunc q + r
            /\ Z.abs r < Zpos (Qden q)
            /\ (0 <= Qnum q -> 0 <= r) /\ (Qnum q <= 0 -> r <= 0).
Proof.
  unfold Qtrunc. exists (Z.rem (Qnum q) (Zpos (Qden q))).
  pose proof (Z.quot_rem' (Qnum q) (Zpos (Qden q))) as Hqr.
  pose proof (Z.rem_bound_abs (Qnum q) (Zpos (Qden q)) ltac:(lia)) as Hb.
  repeat split.
  - exact Hqr.
  - lia.
  - intros Hn. apply Z.rem_nonneg; lia.
  - intros Hn. apply Z.rem_nonpos; lia.
Qed.

(** Truncation never moves a value across an integer bound it respects. *)
Lemma Qtrunc_bounds (q : Q) (lo hi : Z) :
  lo <= 0 <= hi ->
  (inject_Z lo <= q)%Q -> (q <= inject_Z hi)%Q ->
  lo <= Qtrunc q <= hi.
Proof.
  intros Hlh Hlo Hhi.
  destruct (Qtrunc_spec q) as (r & Heq & Habs & Hpos & Hneg).
  unfold Qle in Hlo, Hhi. cbn in Hlo, Hhi.
  destruct (Z_lt_le_dec (Qnum q) 0); split; nia.
Qed.

Lemma Qtrunc_between (q : Q) (lo hi : Z) :
  0 <= lo ->
  (inject_Z lo <= q)%Q -> (q < inject_Z hi)%Q ->
  lo <= Qtrunc q < hi.
Proof.
  intros Hlo Hle Hlt.
  destruct (Qtrunc_spec q) as (r & Heq & Habs & Hpos & Hneg).
  unfold Qle in Hle. unfold Qlt in Hlt. cbn in Hle, Hlt.
  assert (0 <= Qnum q) as Hn by nia.
  specialize (Hpos Hn). split; nia.
Qed.


(** Scaling by a positive integer keeps the order. *)
Lemma Qscale_le (q : Q) (a k : Z) :
  0 < k -> (inject_Z a <= q)%Q ->
  (inject_Z (a * k) <= q * inject_Z k)%Q.
Proof.
  intros Hk H. unfold Qle in *. destruct q as [n d]. cbn in *.
  rewrite Pos.mul_1_r. nia.
Qed.

Lemma Qscale_ge (q : Q) (a k : Z) :
  0 < k -> (q <= inject_Z a)%Q ->
  (q * inject_Z k <= inject_Z (a * k))%Q.
Proof.
  intros Hk H. unfold Qle in *. destruct q as [n d]. cbn in *.
  rewrite Pos.mul_1_r. nia.
Qed.

Lemma Qscale_lt (q : Q) (a k : Z) :
  0 < k -> (q < inject_Z a)%Q ->
  (q * inject_Z k < inject_Z (a * k))%Q.
Proof.
  intros Hk H. unfold Qlt in *. destruct q as [n d]. cbn in *.
  rewrite Pos.mul_1_r. nia.
Qed.

Lemma Qtrunc_sign (q : Q) :
  ((0 <= q)%Q -> 0 <= Qtrunc q) /\ ((q <= 0)%Q -> Qtrunc q <= 0).
Proof.
  destruct (Qtrunc_spec q) as (r & Heq & Habs & Hpos & Hneg).
  unfold Qle. cbn. split; intros H; nia.
Qed.

Lemma Qltb_lt (x y : Q) : Qltb x y = true <-> (x < y)%Q.
Proof.
  unfold Qltb. rewrite negb_true_iff.
  split; intros H.
  - apply Qnot_le_lt. intros Hle. apply Qle_bool_iff in Hle. congruence.
  - destruct (Qle_bool y x) eqn:E; [|reflexivity].
    apply Qle_bool_iff in E. exfalso. exact (Qlt_not_le _ _ H E).
Qed.

Lemma Qltb_ge (x y : Q) : Qltb x y = false <-> (y <= x)%Q.
Proof.
  unfold Qltb. rewrite negb_false_iff. apply Qle_bool_iff.
Qed.

End Integers.

(** ** Typed arrays *)

Section TypedArrays.

Lemma Uint8Array_of_Int16Array_length (a : list Z) :
  List.length (Uint8Array_of_Int16Array a) = (2 * List.length a)%nat.
Proof.
  unfold Uint8Array_of_Int16Array.
  induction a as [| v a IH]; cbn [flat_map List.length app int16_bytes].
  - reflexivity.
  - rewrite IH. lia.
Qed.

(** The element [i] of an [Int16Array] sits at byte offset [2 * i]. *)
Lemma le_int16_element (a : list Z) (i : nat) (v : Z) :
  nth_error a i = Some v -> -32768 <= v <= 32767 ->
  le_int16 (Uint8Array_of_Int16Array a) (2 * i) = v.
Proof.
  unfold Uint8Array_of_Int16Array.
  revert i. induction a as [| w a IH]; intros i Hi Hv.
  - destruct i; discriminate.
  - destruct i as [| i].
    + cbn in Hi. injection Hi as ->.
      cbn [flat_map]. apply le_int16_bytes, Hv.
    + cbn in Hi. specialize (IH i Hi Hv).
      replace (2 * S i)%nat with (S (S (2 * i))) by lia.
      unfold le_int16 in *. cbn [flat_map int16_bytes app nth Nat.add].
      replace (S (S (2 * i)) + 1)%nat with (S (S (2 * i + 1))) by lia.
      cbn [nth]. exact IH.
Qed.

Lemma nth_error_map_seq {A} (f : nat -> A) (n i : nat) :
  (i < n)%nat -> nth_error (map f (seq 0 n)) i = Some (f i).
Proof.
  intros Hi.
  rewrite nth_error_map, nth_error_nth' with (d := O)
    by (rewrite length_seq; lia).
  rewrite seq_nth by lia. reflexivity.
Qed.

Lemma set_bytes_zeros (header body : list Z) :
  set_bytes (set_bytes (zeros (List.length header + List.length body))
                       header 0)
            body (List.length header)
  = header ++ body.
Proof.
  unfold set_bytes, zeros. cbn [firstn Nat.add app].
  rewrite firstn_app, firstn_all, Nat.sub_diag.
  cbn [firstn]. rewrite !app_nil_r.
  rewrite skipn_all2 with (n := (List.length header + List.length body)%nat).
  - rewrite app_nil_r. reflexivity.
  - rewrite length_app, length_skipn, repeat_length. lia.
Qed.

End TypedArrays.

(** ** The capture-side encoder *)

Section CaptureEncoder.

Lemma capture_sample_finite (q : Q) :
  capture_sample (Fin q) = wrap16 (Qtrunc (q * inject_Z 32768)).
Proof. reflexivity. Qed.

Lemma capture_sample_range (s : jsnum) : -32768 <= capture_sample s <= 32767.
Proof.
  unfold capture_sample, ToInt16.
  destruct (js_mul s (js_int 32768)); try lia. apply wrap16_range.
Qed.

Lemma capture_int16_length (inputData : list jsnum) :
  List.length (capture_int16 inputData) = List.length inputData.
Proof. unfold capture_int16. rewrite length_map, length_seq. reflexivity. Qed.

Lemma capture_int16_nth (inputData : list jsnum) (i : nat) (s : jsnum) :
  nth_error inputData i = Some s ->
  nth_error (capture_int16 inputData) i = Some (capture_sample s).
Proof.
  intros Hi. unfold capture_int16.
  assert (i < List.length inputData)%nat as Hlt
    by (apply nth_error_Some; congruence).
  rewrite nth_error_map_seq by exact Hlt.
  rewrite (nth_error_nth _ _ NaN Hi). reflexivity.
Qed.

(** C2, as the specification words it, fails: the sample [1.75 * 2^-15]
    (a float32) scales to [1.75], whose nearest integer is 2; the store into
    the [Int16Array] truncates and the encoder emits 1. *)
Lemma C2_round_counterexample :
  le_int16 (capture_bytes [Fin (7 # 131072)]) 0 = 1
  /\ ((7 # 131072) * inject_Z 32768 == 7 # 4)%Q
  /\ spec_capture_sample (7 # 131072) = 2
  /\ le_int16 (capture_bytes [Fin (7 # 131072)]) 0
     <> spec_capture_sample (7 # 131072).
Proof. vm_compute. repeat split; discriminate. Qed.

(** C2 (amended): for every sequence of samples the encoder emits
    [2 * length] bytes, and the little-endian signed 16-bit integer at
    offset [2 * i] is the conversion [ToInt16] of [s * 32768] for the sample
    [s] at index [i]: for a finite [s] the product truncated toward zero and
    reduced modulo [2^16] (the truncated product itself when the product
    lies in [-32768, 32767]), and 0 for NaN and the infinities. *)
Theorem capture_encoder_truncates (inputData : list jsnum) (i : nat)
    (s : jsnum) :
  nth_error inputData i = Some s ->
  List.length (capture_bytes inputData) = (2 * List.length inputData)%nat
  /\ le_int16 (capture_bytes inputData) (2 * i)
     = ToInt16 (js_mul s (js_int 32768))
  /\ (forall q, s = Fin q ->
        le_int16 (capture_bytes inputData) (2 * i)
        = wrap16 (Qtrunc (q * inject_Z 32768))
        /\ ((inject_Z (-32768) <= q * inject_Z 32768)%Q ->
            (q * inject_Z 32768 <= inject_Z 32767)%Q ->
            le_int16 (capture_bytes inputData) (2 * i)
            = Qtrunc (q * inject_Z 32768)))
  /\ (s = NaN \/ (exists b, s = Inf b) ->
        le_int16 (capture_bytes inputData) (2 * i) = 0).
Proof.
  intros Hi.
  assert (le_int16 (capture_bytes inputData) (2 * i) = capture_sample s)
    as Hread.
  { unfold capture_bytes.
    apply le_int16_element.
    - apply capture_int16_nth, Hi.
    - apply capture_sample_range. }
  repeat split.
  - unfold capture_bytes.
    rewrite Uint8Array_of_Int16Array_length, capture_int16_length.
    reflexivity.
  - exact Hread.
  - subst s. rewrite Hread. reflexivity.
  - subst s. rewrite Hread, capture_sample_finite. intros Hlo Hhi.
    apply wrap16_id. apply Qtrunc_bounds; [lia | assumption | assumption].
  - intros [-> | [b ->]]; rewrite Hread; reflexivity.
Qed.

Lemma capture_encoder_truncates_witness :
  nth_error [Fin (7 # 131072); Fin 1] 1 = Some (Fin 1)
  /\ le_int16 (capture_bytes [Fin (7 # 131072); Fin 1]) 2
     = ToInt16 (js_mul (Fin 1) (js_int 32768)).
Proof.
  split; [reflexivity |].
  exact (proj1 (proj2
    (capture_encoder_truncates [Fin (7 # 131072); Fin 1] 1 (Fin 1)
       eq_refl))).
Defined.

(** The length part of C2 alone holds for every input. *)
Lemma capture_bytes_length (inputData : list jsnum) :
  List.length (capture_bytes inputData) = (2 * List.length inputData)%nat.
Proof.
  unfold capture_bytes.
  rewrite Uint8Array_of_Int16Array_length, capture_int16_length.
  reflexivity.
Qed.




End CaptureEncoder.

(** ** The WAV container builder *)

Section WavBuilder.

Lemma Qle_bool_false (x y : Q) : Qle_bool x y = false <-> (y < x)%Q.
Proof.
  split; intros H.
  - apply Qnot_le_lt. intros Hle. apply Qle_bool_iff in Hle. congruence.
  - destruct (Qle_bool x y) eqn:E; [| reflexivity].
    apply Qle_bool_iff in E. exfalso. exact (Qlt_not_le _ _ H E).
Qed.

Lemma Qclamp_range (q : Q) :
  (inject_Z (-1) <= Qclamp q)%Q /\ (Qclamp q <= inject_Z 1)%Q.
Proof.
  unfold Qclamp.
  destruct (Qle_bool q (inject_Z (-1))) eqn:Elo.
  - split; [apply Qle_refl | discriminate].
  - apply Qle_bool_false in Elo.
    destruct (Qle_bool (inject_Z 1) q) eqn:Ehi.
    + split; [discriminate | apply Qle_refl].
    + apply Qle_bool_false in Ehi. split; apply Qlt_le_weak; assumption.
Qed.

(** [Math.max(-1, Math.min(1, x))] on a finite value is the clamp. *)
Lemma clamp_sample_finite (q : Q) : clamp_sample (Fin q) = Fin (Qclamp q).
Proof.
  unfold clamp_sample, Qclamp, Math_min, Math_max, js_int, js_lt, Qltb.
  destruct (Qle_bool (inject_Z 1) q) eqn:E1; cbn [negb].
  - (* 1 <= q *)
    apply Qle_bool_iff in E1.
    replace (Qle_bool q (inject_Z (-1))) with false; [reflexivity |].
    symmetry. apply Qle_bool_false.
    apply Qlt_le_trans with (inject_Z 1); [reflexivity | exact E1].
  - (* q < 1 *)
    destruct (Qle_bool q (inject_Z (-1))); reflexivity.
Qed.

Lemma clamp_sample_infinite (b : bool) :
  clamp_sample (Inf b) = js_int (if b then -1 else 1).
Proof. destruct b; reflexivity. Qed.

(** NaN passes through the clamp and is stored as 0. *)
Lemma clamp_sample_nan : clamp_sample NaN = NaN /\ wav_sample NaN = 0.
Proof. split; reflexivity. Qed.


(** *** Size and header *)

Lemma wavHeader_length (buffer : AudioBuffer) :
  List.length (wavHeader buffer) = 44%nat.
Proof. reflexivity. Qed.

Lemma wav_pcm_length (buffer : AudioBuffer) (channelData : list jsnum) :
  List.length (wav_pcm buffer channelData) = frameCount buffer.
Proof. unfold wav_pcm. rewrite length_map, length_seq. reflexivity. Qed.

(** The output is the header followed by the bytes of [pcm], which holds
    one element per frame of channel 0. *)
Lemma bufferToWav_bytes (buffer : AudioBuffer) (channelData : list jsnum) :
  getChannelData buffer 0 = Some channelData ->
  bufferToWav buffer
  = Some (mkBlob (wavHeader buffer
                  ++ Uint8Array_of_Int16Array (wav_pcm buffer channelData))
                 "audio/wav").
Proof.
  intros Hch. unfold bufferToWav. rewrite Hch. cbv zeta.
  do 2 f_equal.
  pose proof (set_bytes_zeros (wavHeader buffer)
               (Uint8Array_of_Int16Array (wav_pcm buffer channelData))) as H.
  rewrite wavHeader_length, Uint8Array_of_Int16Array_length in H.
  exact H.
Qed.

(** The size of the output: 44 bytes and two bytes per frame, whatever the
    number of channels. *)
Lemma bufferToWav_length (buffer : AudioBuffer) (blob : Blob) :
  bufferToWav buffer = Some blob ->
  List.length (blob_bytes blob) = (44 + 2 * frameCount buffer)%nat.
Proof.
  intros Hb.
  destruct (getChannelData buffer 0) as [channelData |] eqn:Hch.
  2: { unfold bufferToWav in Hb. rewrite Hch in Hb. discriminate. }
  rewrite (bufferToWav_bytes buffer channelData Hch) in Hb.
  assert (blob_bytes blob
          = wavHeader buffer
            ++ Uint8Array_of_Int16Array (wav_pcm buffer channelData)) as ->
    by (apply (f_equal (option_map blob_bytes)) in Hb;
        cbn [option_map blob_bytes] in Hb; congruence).
  rewrite length_app, wavHeader_length, Uint8Array_of_Int16Array_length,
    wav_pcm_length.
  reflexivity.
Qed.

(** The fields of the header the specification names. *)
Lemma wavHeader_fields (buffer : AudioBuffer) :
  slice (wavHeader buffer) 0 4 = ascii_bytes "RIFF"
  /\ slice (wavHeader buffer) 8 4 = ascii_bytes "WAVE"
  /\ slice (wavHeader buffer) 12 4 = ascii_bytes "fmt "
  /\ slice (wavHeader buffer) 36 4 = ascii_bytes "data"
  /\ le_uint32 (wavHeader buffer) 4 = ToUint32 (36 + declared_len buffer)
  /\ le_uint32 (wavHeader buffer) 24 = ToUint32 (sampleRate buffer)
  /\ le_uint32 (wavHeader buffer) 40 = ToUint32 (declared_len buffer).
Proof.
  repeat split; try reflexivity.
  - unfold le_uint32, wavHeader. cbn [Nat.add]. 
    change (nth 4 _ 0) with (byte_at (ToUint32 (36 + declared_len buffer)) 0).
    change (nth 5 _ 0) with (byte_at (ToUint32 (36 + declared_len buffer)) 1).
    change (nth 6 _ 0) with (byte_at (ToUint32 (36 + declared_len buffer)) 2).
    change (nth 7 _ 0) with (byte_at (ToUint32 (36 + declared_len buffer)) 3).
    rewrite le_bytes32. unfold ToUint32. apply Z.mod_mod. lia.
  - unfold le_uint32, wavHeader. cbn [Nat.add].
    change (nth 24 _ 0) with (byte_at (ToUint32 (sampleRate buffer)) 0).
    change (nth 25 _ 0) with (byte_at (ToUint32 (sampleRate buffer)) 1).
    change (nth 26 _ 0) with (byte_at (ToUint32 (sampleRate buffer)) 2).
    change (nth 27 _ 0) with (byte_at (ToUint32 (sampleRate buffer)) 3).
    rewrite le_bytes32. unfold ToUint32. apply Z.mod_mod. lia.
  - unfold le_uint32, wavHeader. cbn [Nat.add].
    change (nth 40 _ 0) with (byte_at (ToUint32 (declared_len buffer)) 0).
    change (nth 41 _ 0) with (byte_at (ToUint32 (declared_len buffer)) 1).
    change (nth 42 _ 0) with (byte_at (ToUint32 (declared_len buffer)) 2).
    change (nth 43 _ 0) with (byte_at (ToUint32 (declared_len buffer)) 3).
    rewrite le_bytes32. unfold ToUint32. apply Z.mod_mod. lia.
Qed.

(** Reading the header fields in the whole file. *)
Lemma wav_file_fields (buffer : AudioBuffer) (body : list Z) :
  let wav := wavHeader buffer ++ body in
  slice wav 0 4 = ascii_bytes "RIFF"
  /\ slice wav 8 4 = ascii_bytes "WAVE"
  /\ le_uint32 wav 4 = ToUint32 (36 + declared_len buffer)
  /\ le_uint32 wav 40 = ToUint32 (declared_len buffer)
  /\ payload wav = body.
Proof.
  destruct (wavHeader_fields buffer) as (_ & _ & _ & _ & H4 & _ & H40).
  cbv zeta. repeat split; try reflexivity.
  - rewrite <- H4. reflexivity.
  - rewrite <- H40. reflexivity.
Qed.

(** Where the application uses the builder, on a single-channel buffer
    (of a size whose fields fit 32 bits), the size invariant and the header
    properties of the specification hold. *)
Lemma bufferToWav_mono (buffer : AudioBuffer) (channelData : list jsnum) :
  channels buffer = [channelData] ->
  36 + 2 * Z.of_nat (frameCount buffer) < 4294967296 ->
  exists blob,
    bufferToWav buffer = Some blob
    /\ List.length (blob_bytes blob) = (44 + 2 * 1 * frameCount buffer)%nat
    /\ slice (blob_bytes blob) 0 4 = ascii_bytes "RIFF"
    /\ slice (blob_bytes blob) 8 4 = ascii_bytes "WAVE"
    /\ le_uint32 (blob_bytes blob) 4
       = 36 + Z.of_nat (List.length (payload (blob_bytes blob)))
    /\ le_uint32 (blob_bytes blob) 40
       = Z.of_nat (List.length (payload (blob_bytes blob)))
    /\ payload (blob_bytes blob) = interleaved_payload buffer.
Proof.
  intros Hch Hsize.
  assert (getChannelData buffer 0 = Some channelData) as Hget
    by (unfold getChannelData; rewrite Hch; reflexivity).
  pose proof (bufferToWav_bytes buffer channelData Hget) as Hb.
  eexists. split; [exact Hb |].
  pose proof (bufferToWav_length buffer _ Hb) as Hlen.
  cbn [blob_bytes] in *.
  destruct (wav_file_fields buffer
              (Uint8Array_of_Int16Array (wav_pcm buffer channelData)))
    as (Hriff & Hwave & H4 & H40 & Hpay).
  cbv zeta in Hriff, Hwave, H4, H40, Hpay.
  assert (declared_len buffer = 2 * Z.of_nat (frameCount buffer)) as Hdecl.
  { unfold declared_len, numberOfChannels. rewrite Hch. cbn [List.length].
    lia. }
  assert (List.length (Uint8Array_of_Int16Array (wav_pcm buffer channelData))
          = (2 * frameCount buffer)%nat) as Hbody
    by (rewrite Uint8Array_of_Int16Array_length, wav_pcm_length; reflexivity).
  split; [lia |]. split; [exact Hriff |]. split; [exact Hwave |].
  rewrite H4, H40, Hpay, Hbody, Hdecl. unfold ToUint32.
  rewrite !Z.mod_small by lia.
  split; [lia |]. split; [lia |].
  unfold interleaved_payload, interleave, wav_pcm. rewrite Hch.
  f_equal.
  induction (seq 0 (frameCount buffer)) as [| i l IH]; [reflexivity |].
  cbn [flat_map map app]. f_equal. exact IH.
Qed.

(** On every buffer with several channels and at least one frame the
    output is shorter than the size invariant of the specification asks. *)
Lemma bufferToWav_multichannel_short (buffer : AudioBuffer) (blob : Blob) :
  bufferToWav buffer = Some blob ->
  (2 <= List.length (channels buffer))%nat ->
  (0 < frameCount buffer)%nat ->
  (List.length (blob_bytes blob)
   < 44 + 2 * List.length (channels buffer) * frameCount buffer)%nat.
Proof.
  intros Hb Hch Hf. rewrite (bufferToWav_length buffer blob Hb). nia.
Qed.

(** The file built from a buffer with one channel. *)
Lemma one_channel_file (buffer : AudioBuffer) (channelData : list jsnum) :
  channels buffer = [channelData] ->
  36 + 2 * Z.of_nat (frameCount buffer) < 4294967296 ->
  let wav := wavHeader buffer
             ++ Uint8Array_of_Int16Array (wav_pcm buffer channelData) in
  bufferToWav buffer = Some (mkBlob wav "audio/wav")
  /\ List.length wav = (44 + 2 * frameCount buffer)%nat
  /\ List.length (payload wav) = (2 * frameCount buffer)%nat
  /\ slice wav 0 4 = ascii_bytes "RIFF"
  /\ slice wav 8 4 = ascii_bytes "WAVE"
  /\ le_uint32 wav 4 = 36 + 2 * Z.of_nat (frameCount buffer)
  /\ le_uint32 wav 40 = 2 * Z.of_nat (frameCount buffer)
  /\ payload wav = interleaved_payload buffer.
Proof.
  intros Hch Hsize. cbv zeta.
  assert (getChannelData buffer 0 = Some channelData) as Hget
    by (unfold getChannelData; rewrite Hch; reflexivity).
  pose proof (bufferToWav_bytes buffer channelData Hget) as Hb.
  destruct (wav_file_fields buffer
              (Uint8Array_of_Int16Array (wav_pcm buffer channelData)))
    as (Hriff & Hwave & H4 & H40 & Hpay).
  cbv zeta in Hriff, Hwave, H4, H40, Hpay.
  assert (declared_len buffer = 2 * Z.of_nat (frameCount buffer)) as Hdecl.
  { unfold declared_len, numberOfChannels. rewrite Hch. cbn [List.length].
    lia. }
  assert (List.length (Uint8Array_of_Int16Array (wav_pcm buffer channelData))
          = (2 * frameCount buffer)%nat) as Hbody
    by (rewrite Uint8Array_of_Int16Array_length, wav_pcm_length; reflexivity).
  split; [exact Hb |].
  split; [rewrite length_app, wavHeader_length, Hbody; reflexivity |].
  split; [rewrite Hpay; exact Hbody |].
  split; [exact Hriff |]. split; [exact Hwave |].
  rewrite H4, H40, Hpay, Hdecl. unfold ToUint32.
  rewrite !Z.mod_small by lia.
  split; [reflexivity |]. split; [reflexivity |].
  unfold interleaved_payload, interleave, wav_pcm. rewrite Hch.
  f_equal.
  induction (seq 0 (frameCount buffer)) as [| i l IH]; [reflexivity |].
  cbn [flat_map map app]. f_equal. exact IH.
Qed.

Lemma one_channel (buffer : AudioBuffer) :
  numberOfChannels buffer = 1 ->
  exists channelData, channels buffer = [channelData].
Proof.
  unfold numberOfChannels.
  destruct (channels buffer) as [| channelData [| ch rest]];
    cbn [List.length]; intros H; try lia.
  exists channelData. reflexivity.
Qed.

(** C1 (amended): for every buffer with one channel, whatever its
    sample rate and frame count [F] (with sizes that fit the 32-bit
    fields), the file built has [44 + 2 * channelCount * F] bytes, its
    declared data-chunk size is the length of the payload, and the payload
    is the samples of the channel in order, which for one channel is their
    interleaving. *)
Theorem mono_wav_size_invariant (buffer : AudioBuffer) :
  numberOfChannels buffer = 1 ->
  36 + 2 * Z.of_nat (frameCount buffer) < 4294967296 ->
  exists blob,
    bufferToWav buffer = Some blob
    /\ size_invariant buffer (blob_bytes blob).
Proof.
  intros Hone Hsize.
  destruct (one_channel buffer Hone) as (channelData & Hch).
  destruct (one_channel_file buffer channelData Hch Hsize)
    as (Hb & Hlen & Hpl & _ & _ & _ & H40 & Hpay).
  cbv zeta in *.
  eexists. split; [exact Hb |].
  unfold size_invariant. cbn [blob_bytes].
  rewrite Hlen, H40, Hpl, Hone. repeat split; [lia | lia | exact Hpay].
Qed.

(** C1 fails as stated at a two-channel buffer of one frame,
    8000 Hz.  The file built has 46 bytes where the invariant asks for
    [44 + 2 * 2 * 1 = 48]; the header declares a data chunk of 4 bytes
    while 2 follow; the payload holds the sample of channel 0 alone, not
    the interleaving of both channels. *)
Lemma C1_stereo_counterexample :
  well_formed stereo_frame
  /\ numberOfChannels stereo_frame = 2
  /\ sampleRate stereo_frame = 8000
  /\ exists blob,
       bufferToWav stereo_frame = Some blob
       /\ List.length (blob_bytes blob) = 46%nat
       /\ 44 + 2 * numberOfChannels stereo_frame
               * Z.of_nat (frameCount stereo_frame) = 48
       /\ le_uint32 (blob_bytes blob) 40 = 4
       /\ List.length (payload (blob_bytes blob)) = 2%nat
       /\ payload (blob_bytes blob) <> interleaved_payload stereo_frame
       /\ ~ size_invariant stereo_frame (blob_bytes blob).
Proof.
  split.
  { split; [discriminate | repeat constructor]. }
  split; [reflexivity |]. split; [reflexivity |].
  eexists. split; [reflexivity |].
  split; [reflexivity |]. split; [reflexivity |].
  split; [reflexivity |]. split; [reflexivity |].
  split; [vm_compute; discriminate |].
  intros (Hlen & _). vm_compute in Hlen. discriminate.
Qed.

(** *** The one call of the builder *)

(** The buffer that [createAudioObjects] hands to the builder has one
    channel, the sample rate 24000 and one frame for every two bytes. *)
Lemma decodeAudioData_mono (data : list Z) (rate : Z) (buffer : AudioBuffer) :
  decodeAudioData data rate 1 = Some buffer ->
  numberOfChannels buffer = 1
  /\ sampleRate buffer = rate
  /\ List.length data = (2 * frameCount buffer)%nat
  /\ well_formed buffer.
Proof.
  unfold decodeAudioData.
  destruct (List.length data mod (2 * 1) =? 0)%nat eqn:E; [| discriminate].
  intros H. injection H as <-.
  apply Nat.eqb_eq in E. apply Nat.Div0.div_exact in E.
  cbn [numberOfChannels channels sampleRate frameCount seq map List.length].
  split; [reflexivity |]. split; [reflexivity |].
  split; [exact E |].
  split; [discriminate |].
  constructor; [| constructor].
  rewrite length_map, length_seq. reflexivity.
Qed.

(** Every even number of bytes is decoded and built into a file. *)
Lemma createAudioObjects_builds (decodedBytes : list Z) :
  Nat.even (List.length decodedBytes) = true ->
  exists blob, createAudioObjects decodedBytes = Some blob.
Proof.
  intros Heven. unfold createAudioObjects, decodeAudioData.
  apply Nat.even_spec in Heven. destruct Heven as (k & Hk).
  assert ((List.length decodedBytes mod (2 * 1))%nat = 0%nat) as ->
    by (rewrite Hk, Nat.mul_comm; apply Nat.Div0.mod_mul).
  cbn [Nat.eqb]. unfold bufferToWav, getChannelData.
  cbn [channels seq map nth_error]. eexists. reflexivity.
Qed.

(** C4: every file the builder produces comes from a buffer with one
    channel, the buffer of its one call in [createAudioObjects].  Every
    such file (of a size that fits the 32-bit fields) starts with ["RIFF"],
    has ["WAVE"] at offset 8, holds [36 + dataSize] at offset 4 and
    [dataSize] at offset 40, where [dataSize] is the length of the PCM
    payload, the part of the file after the 44-byte header. *)
Theorem built_wav_header (buffer : AudioBuffer) (blob : Blob) :
  numberOfChannels buffer = 1 ->
  bufferToWav buffer = Some blob ->
  36 + 2 * Z.of_nat (frameCount buffer) < 4294967296 ->
  let wav := blob_bytes blob in
  let dataSize := Z.of_nat (List.length (payload wav)) in
  slice wav 0 4 = ascii_bytes "RIFF"
  /\ slice wav 8 4 = ascii_bytes "WAVE"
  /\ le_uint32 wav 4 = 36 + dataSize
  /\ le_uint32 wav 40 = dataSize
  /\ List.length wav = (44 + List.length (payload wav))%nat.
Proof.
  intros Hone Hb Hsize.
  destruct (one_channel buffer Hone) as (channelData & Hch).
  destruct (one_channel_file buffer channelData Hch Hsize)
    as (Hb' & Hlw & Hpl & Hriff & Hwave & H4 & H40 & _).
  cbv zeta in *. rewrite Hb' in Hb.
  apply (f_equal (option_map blob_bytes)) in Hb.
  cbn [option_map blob_bytes] in Hb.
  assert (blob_bytes blob
          = wavHeader buffer
            ++ Uint8Array_of_Int16Array (wav_pcm buffer channelData)) as ->
    by congruence.
  rewrite Hpl, Hlw, H4, H40.
  split; [exact Hriff |]. split; [exact Hwave |].
  split; [lia |]. split; [lia | reflexivity].
Qed.

(** The same at the call: every blob [createAudioObjects] builds from
    decoded bytes has this header, and its payload is as long as the bytes
    decoded. *)
Lemma createAudioObjects_header (decodedBytes : list Z) (blob : Blob) :
  createAudioObjects decodedBytes = Some blob ->
  36 + Z.of_nat (List.length decodedBytes) < 4294967296 ->
  let wav := blob_bytes blob in
  let dataSize := Z.of_nat (List.length (payload wav)) in
  slice wav 0 4 = ascii_bytes "RIFF"
  /\ slice wav 8 4 = ascii_bytes "WAVE"
  /\ le_uint32 wav 4 = 36 + dataSize
  /\ le_uint32 wav 40 = dataSize
  /\ List.length (payload wav) = List.length decodedBytes
  /\ List.length wav = (44 + List.length (payload wav))%nat.
Proof.
  unfold createAudioObjects.
  destruct (decodeAudioData decodedBytes 24000 1) as [buffer |] eqn:Hdec;
    [| discriminate].
  intros Hb Hsize.
  destruct (decodeAudioData_mono decodedBytes 24000 buffer Hdec)
    as (Hone & _ & Hlen & _).
  destruct (one_channel buffer Hone) as (channelData & Hch).
  assert (36 + 2 * Z.of_nat (frameCount buffer) < 4294967296) as Hfit
    by lia.
  destruct (one_channel_file buffer channelData Hch Hfit)
    as (Hb' & Hlw & Hpl & Hriff & Hwave & H4 & H40 & _).
  cbv zeta in *. rewrite Hb' in Hb.
  apply (f_equal (option_map blob_bytes)) in Hb.
  cbn [option_map blob_bytes] in Hb.
  assert (blob_bytes blob
          = wavHeader buffer
            ++ Uint8Array_of_Int16Array (wav_pcm buffer channelData)) as ->
    by congruence.
  rewrite Hpl, Hlw, H4, H40, Hlen.
  split; [exact Hriff |]. split; [exact Hwave |].
  split; [lia |]. split; [lia |]. split; reflexivity.
Qed.

Lemma mono_wav_size_invariant_witness :
  numberOfChannels (mkAudioBuffer 24000 2 [[Fin (1 # 2); Fin (-1 # 4)]]) = 1
  /\ 36 + 2 * Z.of_nat 2 < 4294967296
  /\ exists blob,
       bufferToWav (mkAudioBuffer 24000 2 [[Fin (1 # 2); Fin (-1 # 4)]])
       = Some blob
       /\ size_invariant (mkAudioBuffer 24000 2 [[Fin (1 # 2); Fin (-1 # 4)]])
                         (blob_bytes blob).
Proof.
  split; [reflexivity |]. split; [reflexivity |].
  exact (mono_wav_size_invariant
           (mkAudioBuffer 24000 2 [[Fin (1 # 2); Fin (-1 # 4)]])
           eq_refl eq_refl).
Defined.

Lemma built_wav_header_witness :
  decodeAudioData [0; 64; 0; 224] 24000 1
  = Some (mkAudioBuffer 24000 2 [[Fin (16384 # 32768); Fin (-8192 # 32768)]])
  /\ numberOfChannels
       (mkAudioBuffer 24000 2 [[Fin (16384 # 32768); Fin (-8192 # 32768)]])
     = 1
  /\ createAudioObjects [0; 64; 0; 224]
     = Some (mkBlob
               (wavHeader
                  (mkAudioBuffer 24000 2
                     [[Fin (16384 # 32768); Fin (-8192 # 32768)]])
                ++ [255; 63; 0; 224])
               "audio/wav")
  /\ le_uint32
       (wavHeader
          (mkAudioBuffer 24000 2
             [[Fin (16384 # 32768); Fin (-8192 # 32768)]])
        ++ [255; 63; 0; 224]) 4 = 36 + 4
  /\ le_uint32
       (wavHeader
          (mkAudioBuffer 24000 2
             [[Fin (16384 # 32768); Fin (-8192 # 32768)]])
        ++ [255; 63; 0; 224]) 40 = 4.
Proof.
  split; [reflexivity |]. split; [reflexivity |].
  assert (bufferToWav
            (mkAudioBuffer 24000 2
               [[Fin (16384 # 32768); Fin (-8192 # 32768)]])
          = Some (mkBlob
                    (wavHeader
                       (mkAudioBuffer 24000 2
                          [[Fin (16384 # 32768); Fin (-8192 # 32768)]])
                     ++ [255; 63; 0; 224])
                    "audio/wav")) as Hrun by (vm_compute; reflexivity).
  split; [exact Hrun |].
  destruct (built_wav_header
              (mkAudioBuffer 24000 2
                 [[Fin (16384 # 32768); Fin (-8192 # 32768)]])
              _ eq_refl Hrun eq_refl)
    as (_ & _ & H4 & H40 & _).
  split; [exact H4 | exact H40].
Defined.

End WavBuilder.

(** ** The text and speech service *)

Section Service.

Variable remote : Remote.

(** Whatever goes wrong inside [synthesizeSpeech], its caller sees the one
    error of the [catch] block. *)
Lemma synthesizeSpeech_throws_generic (text : jsstring) (voice : VoiceOption)
    (sent sent' : Sent) (e : Error) :
  synthesizeSpeech remote text voice sent = (Throw e, sent') ->
  e = generic_synthesis_error.
Proof.
  unfold synthesizeSpeech, try_catch, bind, generateContent, throw, ret.
  destruct (remote _) as [response | reason].
  - destruct (audio_of response) as [audio |].
    + destruct (falsy audio); intros H; inversion H; reflexivity.
    + intros H; inversion H; reflexivity.
  - intros H; inversion H; reflexivity.
Qed.

Lemma synthesizeSpeech_no_audio (text : jsstring) (voice : VoiceOption)
    (sent : Sent) (response : GenerateContentResponse) :
  remote (mkRequest (lit "gemini-2.5-flash-preview-tts") text
            (Some match voice with
                  | Male => lit "Puck"
                  | Female => lit "Kore"
                  end))
  = ApiResolved response ->
  no_audio (audio_of response) = true ->
  fst (synthesizeSpeech remote text voice sent)
  = Throw generic_synthesis_error.
Proof.
  intros Hresp Hno.
  unfold synthesizeSpeech, try_catch, bind, generateContent, throw, ret.
  rewrite Hresp.
  destruct (audio_of response) as [audio |]; cbn in Hno |- *.
  - rewrite Hno. reflexivity.
  - reflexivity.
Qed.

Lemma synthesizeSpeech_sends_one (text : jsstring) (voice : VoiceOption)
    (sent : Sent) :
  exists req, snd (synthesizeSpeech remote text voice sent) = sent ++ [req].
Proof.
  unfold synthesizeSpeech, try_catch, bind, generateContent, throw, ret.
  eexists.
  destruct (remote _) as [response | reason]; [| reflexivity].
  destruct (audio_of response) as [audio |]; [| reflexivity].
  destruct (falsy audio); reflexivity.
Qed.

Lemma summarizeText_sends_one (transcript : jsstring) (sent : Sent) :
  exists req, snd (summarizeText remote transcript sent) = sent ++ [req].
Proof.
  unfold summarizeText, try_catch, bind, generateContent, throw, ret.
  eexists. destruct (remote _); reflexivity.
Qed.

End Service.

(** C7 on a response without audio: the error raised for the missing
    payload is thrown inside the [try] block and replaced by its [catch]
    block, so the caller receives the generic error, the same as when the
    request itself is rejected. *)
Theorem missing_audio_raises_generic_error :
  no_audio (audio_of (mkResponse [] None)) = true
  /\ fst (synthesizeSpeech silent_remote (lit "Hello world.") Female [])
     = Throw generic_synthesis_error
  /\ fst (synthesizeSpeech failing_remote (lit "Hello world.") Female [])
     = Throw generic_synthesis_error
  /\ generic_synthesis_error <> no_audio_error.
Proof.
  split; [reflexivity |].
  split; [apply synthesizeSpeech_no_audio with (response := mkResponse [] None);
          reflexivity |].
  split; [reflexivity |].
  discriminate.
Qed.

(** ** The recording session *)

Section Teardown.

(** The state a teardown leaves has nothing left to tear down ... *)
Lemma stopRecordingFlow_torn_down (s : App) :
  torn_down (stopRecordingFlow s) = true.
Proof.
  destruct s as [rec proc step voice fa err tr ctx sp src sess proms micro
                 cls reqs].
  unfold stopRecordingFlow, torn_down, promise_then, promise_status.
  cbn.
  destruct sess as [p |]; cbn;
    [destruct (nth_error proms p) as [[[ | | ] rs] |]; cbn |];
    destruct src; cbn; destruct sp; cbn;
    destruct ctx as [[ | | ] |]; reflexivity.
Qed.

(** ... and on such a state a teardown changes nothing. *)
Lemma stopRecordingFlow_noop (s : App) :
  torn_down s = true -> stopRecordingFlow s = s.
Proof.
  destruct s as [rec proc step voice fa err tr ctx sp src sess proms micro
                 cls reqs].
  unfold torn_down, stopRecordingFlow. cbn.
  destruct rec; [discriminate |].
  destruct sess; [discriminate |].
  destruct src; [discriminate |].
  destruct sp; [discriminate |].
  destruct ctx as [[ | | ] |]; cbn; try discriminate; reflexivity.
Qed.

(** C8: a second teardown right after a first one returns the state of the
    first unchanged: no flag, reference, promise or queued callback
    changes, and no call is added to those made on the resources, so nothing
    is released twice.  The function is total, so it raises no error. *)
Theorem teardown_idempotent (s : App) :
  stopRecordingFlow (stopRecordingFlow s) = stopRecordingFlow s
  /\ calls (stopRecordingFlow (stopRecordingFlow s))
     = calls (stopRecordingFlow s)
  /\ microtasks (stopRecordingFlow (stopRecordingFlow s))
     = microtasks (stopRecordingFlow s).
Proof.
  assert (stopRecordingFlow (stopRecordingFlow s) = stopRecordingFlow s) as H
    by apply stopRecordingFlow_noop, stopRecordingFlow_torn_down.
  rewrite H. repeat split.
Qed.

(** Running the queued callbacks keeps a torn-down state torn down, so the
    second teardown is also a no-op once the session has been closed. *)
Lemma run_microtasks_fields (s : App) :
  let s' := run_microtasks s in
  isRecording s' = isRecording s
  /\ isProcessing s' = isProcessing s
  /\ processingStep s' = processingStep s
  /\ selectedVoice s' = selectedVoice s
  /\ finalAudio s' = finalAudio s
  /\ error s' = error s
  /\ transcriptRef s' = transcriptRef s
  /\ audioContextRef s' = audioContextRef s
  /\ scriptProcessorRef s' = scriptProcessorRef s
  /\ mediaStreamSourceRef s' = mediaStreamSourceRef s
  /\ sessionPromiseRef s' = sessionPromiseRef s
  /\ promises s' = promises s
  /\ microtasks s' = []
  /\ requests s' = requests s.
Proof.
  unfold run_microtasks.
  generalize (microtasks s) as ts.
  assert (forall ts s0,
            let s' := fold_left (fun s t => run_reaction t s) ts s0 in
            isRecording s' = isRecording s0
            /\ isProcessing s' = isProcessing s0
            /\ processingStep s' = processingStep s0
            /\ selectedVoice s' = selectedVoice s0
            /\ finalAudio s' = finalAudio s0
            /\ error s' = error s0
            /\ transcriptRef s' = transcriptRef s0
            /\ audioContextRef s' = audioContextRef s0
            /\ scriptProcessorRef s' = scriptProcessorRef s0
            /\ mediaStreamSourceRef s' = mediaStreamSourceRef s0
            /\ sessionPromiseRef s' = sessionPromiseRef s0
            /\ promises s' = promises s0
            /\ microtasks s' = microtasks s0
            /\ requests s' = requests s0) as Hfold.
  { induction ts as [| [p r] ts IH]; intros s0; cbn [fold_left].
    - repeat split.
    - specialize (IH (run_reaction (p, r) s0)). cbv zeta in IH.
      exact IH. }
  intros ts. specialize (Hfold ts (set_microtasks [] s)).
  cbv zeta in *. exact Hfold.
Qed.

Lemma run_microtasks_torn_down (s : App) :
  torn_down s = true -> torn_down (run_microtasks s) = true.
Proof.
  intros H. unfold torn_down in *.
  destruct (run_microtasks_fields s)
    as (-> & _ & _ & _ & _ & _ & _ & -> & -> & -> & -> & _).
  exact H.
Qed.

Lemma teardown_twice_after_close (s : App) :
  stopRecordingFlow (run_microtasks (stopRecordingFlow s))
  = run_microtasks (stopRecordingFlow s).
Proof.
  apply stopRecordingFlow_noop, run_microtasks_torn_down,
    stopRecordingFlow_torn_down.
Qed.

End Teardown.

Section Calls.

Lemma nth_error_update_nth {A} (f : A -> A) (l : list A) (n : nat) (x : A) :
  nth_error l n = Some x -> nth_error (update_nth n f l) n = Some (f x).
Proof.
  revert n. induction l as [| y l IH]; intros [| n] H; try discriminate.
  - cbn in *. congruence.
  - cbn in *. apply IH, H.
Qed.

Lemma update_nth_same {A} (l : list A) (n : nat) (x : A) :
  nth_error l n = Some x -> update_nth n (fun _ => x) l = l.
Proof.
  revert n. induction l as [| y l IH]; intros [| n] H; try discriminate.
  - cbn in *. congruence.
  - cbn in *. f_equal. apply IH, H.
Qed.

Lemma update_nth_twice {A} (f g : A -> A) (l : list A) (n : nat) :
  update_nth n f (update_nth n g l) = update_nth n (fun x => f (g x)) l.
Proof.
  revert n. induction l as [| y l IH]; intros [| n]; cbn; try reflexivity.
  f_equal. apply IH.
Qed.

Lemma nth_error_update_nth_other {A} (f : A -> A) (l : list A) (n m : nat) :
  n <> m -> nth_error (update_nth n f l) m = nth_error l m.
Proof.
  revert n m. induction l as [| y l IH]; intros [| n] [| m] H;
    cbn; try reflexivity; try congruence.
  apply IH. congruence.
Qed.


(** A step of the application only adds calls; [released_by] says which
    of the added calls release a capture device. *)
Lemma run_microtasks_calls (s : App) :
  calls (run_microtasks s) = calls s ++ map reaction_call (microtasks s).
Proof.
  unfold run_microtasks.
  change (calls s) with (calls (set_microtasks [] s)).
  generalize (set_microtasks [] s) as s0.
  induction (microtasks s) as [| t ts IH]; intros s0; cbn [fold_left map].
  - rewrite app_nil_r. reflexivity.
  - rewrite IH. unfold run_reaction, emit. cbn [calls set_calls].
    rewrite <- app_assoc. reflexivity.
Qed.

Lemma promise_then_calls (p : nat) (r : Reaction) (s : App) :
  calls (promise_then p r s) = calls s.
Proof.
  unfold promise_then. destruct (promise_status p s) as [[ | | ] |];
    reflexivity.
Qed.

Lemma stopRecordingFlow_calls (s : App) :
  exists rest,
    calls (stopRecordingFlow s) = calls s ++ rest
    /\ forall q, ~ In (StopTracks q) rest.
Proof.
  destruct s as [rec proc step voice fa err tr ctx sp src sess proms micro
                 cls reqs].
  unfold stopRecordingFlow, promise_then, promise_status. cbn.
  destruct sess as [p |]; cbn;
    [destruct (nth_error proms p) as [[[ | | ] rs] |]; cbn |];
    destruct src; cbn; destruct sp; cbn;
    destruct ctx as [[ | | ] |]; cbn;
    rewrite <- ?app_assoc; cbn [app];
    (eexists; split; [reflexivity || (rewrite app_nil_r; reflexivity) |]);
    intros q; cbn; intuition discriminate.
Qed.

(** The calls of a teardown are those for the resources still held. *)
Lemma stopRecordingFlow_held (s : App) :
  calls (stopRecordingFlow s) = calls s ++ held_calls s.
Proof.
  destruct s as [rec proc step voice fa err tr ctx sp src sess proms micro
                 cls reqs].
  unfold stopRecordingFlow, held_calls, promise_then, promise_status. cbn.
  destruct sess as [p |]; cbn;
    [destruct (nth_error proms p) as [[[ | | ] rs] |]; cbn |];
    destruct src; cbn; destruct sp; cbn;
    destruct ctx as [[ | | ] |]; cbn;
    rewrite <- ?app_assoc, ?app_nil_r; reflexivity.
Qed.

Lemma fulfil_calls (p : nat) (s : App) : calls (fulfil p s) = calls s.
Proof.
  unfold fulfil. destruct (nth_error (promises s) p) as [[[ | | ] rs] |];
    reflexivity.
Qed.

Lemma reject_calls (p : nat) (s : App) : calls (reject p s) = calls s.
Proof.
  unfold reject. destruct (nth_error (promises s) p) as [[[ | | ] rs] |];
    reflexivity.
Qed.

Lemma onmessage_calls (m : LiveServerMessage) (s : App) :
  calls (onmessage m s) = calls s.
Proof.
  unfold onmessage.
  destruct (opt_bind (serverContent m) inputTranscription); reflexivity.
Qed.

Lemma reaction_call_not_release (ts : list (nat * Reaction)) (q : nat) :
  ~ In (StopTracks q) (map reaction_call ts).
Proof.
  induction ts as [| [p r] ts IH]; cbn; [tauto |].
  intros [H | H]; [destruct r; discriminate | exact (IH H)].
Qed.

(** One event adds calls, and a capture device is released among them only
    when the event is the close notification of its session. *)
Lemma deliver_calls (ev : LiveEvent) (s : App) :
  exists rest,
    calls (deliver ev s) = calls s ++ rest
    /\ forall q, In (StopTracks q) rest -> ev = ConnectionClosed q.
Proof.
  unfold deliver. rewrite run_microtasks_calls.
  destruct ev as [p | p | m | | p].
  - rewrite fulfil_calls. eexists. split; [reflexivity |].
    intros q H. exfalso. exact (reaction_call_not_release _ _ H).
  - rewrite reject_calls. eexists. split; [reflexivity |].
    intros q H. exfalso. exact (reaction_call_not_release _ _ H).
  - rewrite onmessage_calls. eexists. split; [reflexivity |].
    intros q H. exfalso. exact (reaction_call_not_release _ _ H).
  - unfold onerror.
    destruct (stopRecordingFlow_calls
                (setError
                   (Some (lit "A connection error occurred. Please try again."))
                   s)) as (rest & -> & Hrest).
    cbn [calls setError]. rewrite <- app_assoc.
    eexists. split; [reflexivity |].
    intros q H. exfalso. apply in_app_or in H. destruct H as [H | H].
    + exact (Hrest q H).
    + exact (reaction_call_not_release _ _ H).
  - unfold onclose, emit. cbn [calls set_calls microtasks].
    rewrite <- app_assoc. eexists. split; [reflexivity |].
    intros q H. apply in_app_or in H. destruct H as [H | H].
    + cbn in H. destruct H as [H | []]. congruence.
    + exfalso. exact (reaction_call_not_release _ _ H).
Qed.

Lemma deliver_all_calls (late : list LiveEvent) (s : App) :
  exists rest,
    calls (fold_left (fun s ev => deliver ev s) late s) = calls s ++ rest
    /\ forall q, In (StopTracks q) rest -> In (ConnectionClosed q) late.
Proof.
  revert s. induction late as [| ev late IH]; intros s; cbn [fold_left].
  - exists []. rewrite app_nil_r. split; [reflexivity | intros q []].
  - destruct (IH (deliver ev s)) as (rest2 & -> & H2).
    destruct (deliver_calls ev s) as (rest1 & -> & H1).
    exists (rest1 ++ rest2). rewrite app_assoc. split; [reflexivity |].
    intros q H. apply in_app_or in H. destruct H as [H | H].
    + left. exact (H1 q H).
    + right. exact (H2 q H).
Qed.

(** The synchronous part of a stop from the recording state. *)
Lemma stopRecordingFlow_recording (p : nat) (s : App) :
  recording_with p s = true ->
  calls (stopRecordingFlow s)
  = calls s ++ [SourceDisconnect; ProcessorDisconnect; ClearOnaudioprocess;
                ContextClose]
  /\ microtasks (stopRecordingFlow s) = [(p, CloseSession)].
Proof.
  destruct s as [rec proc step voice fa err tr ctx sp src sess proms micro
                 cls reqs].
  unfold recording_with, stopRecordingFlow, promise_then, promise_status.
  cbn. intros H.
  destruct rec; [| discriminate].
  destruct sess as [q |]; [| discriminate].
  destruct (Nat.eqb_spec q p) as [-> |]; [| discriminate].
  destruct (nth_error proms p) as [[[ | | ] rs] |]; cbn in H |- *;
    try discriminate.
  destruct src; [| discriminate].
  destruct sp; [| discriminate].
  destruct ctx as [[ | | ] |]; cbn in H |- *; try discriminate;
    (destruct micro; [| discriminate]);
    rewrite <- ?app_assoc; split; reflexivity.
Qed.

End Calls.

Section StopHandler.

Variable remote : Remote.
Variable env : StopAwaits.

Ltac run_handler :=
  cbv beta iota zeta
      delta [handleStopRecording handleStartRecording bind gets modify
             try_finally try_catch ret zoom throw awaiting fst snd].


(** With no speech in the transcript read after the settle delay, the
    handler reports it and ends. *)
Lemma handleStopRecording_no_speech (s : App) :
  isRecording s = true ->
  falsy (trim (accumulated_transcript env s)) = true ->
  handleStopRecording remote env s
  = (Normal tt,
     setProcessingStep []
       (setIsProcessing false
          (setIsProcessing false
             (setError (Some no_speech_message)
                (suspend (during_settle env) (stop_prologue s)))))).
Proof.
  intros Hrec Hempty. unfold accumulated_transcript, stop_prologue in *.
  run_handler. rewrite Hrec. cbn [negb]. run_handler.
  rewrite Hempty. reflexivity.
Qed.

Lemma grows_refl (evs : list LiveEvent) (l : list Call) : grows evs l l.
Proof. exists []. rewrite app_nil_r. split; [reflexivity | intros q []]. Qed.

Lemma grows_trans (evs1 evs2 : list LiveEvent) (l1 l2 l3 : list Call) :
  grows evs1 l1 l2 -> grows evs2 l2 l3 -> grows (evs1 ++ evs2) l1 l3.
Proof.
  intros (r1 & -> & H1) (r2 & -> & H2).
  exists (r1 ++ r2). rewrite app_assoc. split; [reflexivity |].
  intros q H. apply in_or_app. apply in_app_or in H.
  destruct H as [H | H]; [left; exact (H1 q H) | right; exact (H2 q H)].
Qed.

Lemma grows_more (evs evs' : list LiveEvent) (l l' : list Call) :
  grows evs l l' -> incl evs evs' -> grows evs' l l'.
Proof.
  intros (r & -> & H) Hincl. exists r. split; [reflexivity |].
  intros q Hq. apply Hincl, H, Hq.
Qed.

(** Every suspension adds calls, and releases a capture device only on a
    close notification among its events. *)
Lemma suspend_grows (during : list LiveEvent) (s : App) :
  microtasks s = [] -> grows during (calls s) (calls (suspend during s)).
Proof.
  intros Hq. unfold suspend.
  destruct (deliver_all_calls during (run_microtasks s)) as (rest & -> & H).
  rewrite run_microtasks_calls, Hq. cbn [map]. rewrite app_nil_r.
  exists rest. split; [reflexivity | exact H].
Qed.

Lemma suspend_nil (s : App) : microtasks s = [] -> suspend [] s = s.
Proof.
  destruct s as [rec proc step voice fa err tr ctx sp src sess proms micro
                 cls reqs].
  cbn. intros ->. reflexivity.
Qed.

Lemma deliver_quiet (ev : LiveEvent) (s : App) : microtasks (deliver ev s) = [].
Proof.
  unfold deliver.
  match goal with |- microtasks (run_microtasks ?x) = _ =>
    destruct (run_microtasks_fields x)
      as (_ & _ & _ & _ & _ & _ & _ & _ & _ & _ & _ & _ & H & _)
  end.
  exact H.
Qed.

Lemma suspend_quiet (during : list LiveEvent) (s : App) :
  microtasks (suspend during s) = [].
Proof.
  unfold suspend.
  assert (microtasks (run_microtasks s) = []) as H0.
  { destruct (run_microtasks_fields s)
      as (_ & _ & _ & _ & _ & _ & _ & _ & _ & _ & _ & _ & H & _).
    exact H. }
  revert H0. generalize (run_microtasks s) as s0.
  induction during as [| ev during IH]; intros s0 H0; cbn [fold_left].
  - exact H0.
  - apply IH, deliver_quiet.
Qed.

(** The calls of the handler after the settle delay are those of the
    events that arrive while the two requests are awaited. *)
Lemma handleStopRecording_calls (s : App) :
  isRecording s = true ->
  grows (during_summarize env ++ during_synthesize env)
        (calls (suspend (during_settle env) (stop_prologue s)))
        (calls (snd (handleStopRecording remote env s))).
Proof.
  intros Hrec. unfold stop_prologue.
  run_handler. rewrite Hrec. cbn [negb]. run_handler.
  set (s1 := suspend (during_settle env) _).
  assert (microtasks s1 = []) as Hq1 by apply suspend_quiet.
  destruct (falsy (trim (transcriptRef s1))); [apply grows_refl |].
  run_handler.
  destruct (summarizeText remote _ _) as [[summarizedText | e] sent];
    run_handler.
  - match goal with |- context [suspend (during_summarize env) ?x] =>
      pose proof (suspend_grows (during_summarize env) x Hq1) as G1;
      pose proof (suspend_quiet (during_summarize env) x) as Hq2;
      set (s2 := suspend (during_summarize env) x) in *
    end.
    destruct (synthesizeSpeech remote _ _ _) as [[audioB64 | e] sent'];
      run_handler;
      match goal with |- context [suspend (during_synthesize env) ?y] =>
        pose proof (suspend_grows (during_synthesize env) y Hq2) as G2
      end;
      exact (grows_trans _ _ _ _ _ G1 G2).
  - match goal with |- context [suspend (during_summarize env) ?x] =>
      pose proof (suspend_grows (during_summarize env) x Hq1) as G1
    end.
    apply (grows_more _ _ _ _ G1). apply incl_appl, incl_refl.
Qed.

(** When nothing happens while the requests are awaited, the calls are
    those made by the end of the settle delay. *)
Lemma handleStopRecording_calls_quiet (s : App) :
  isRecording s = true ->
  during_summarize env = [] -> during_synthesize env = [] ->
  calls (snd (handleStopRecording remote env s))
  = calls (suspend (during_settle env) (stop_prologue s)).
Proof.
  intros Hrec E1 E2. unfold stop_prologue.
  run_handler. rewrite Hrec, E1, E2. cbn [negb]. run_handler.
  set (s1 := suspend (during_settle env) _).
  assert (microtasks s1 = []) as Hq1 by apply suspend_quiet.
  destruct (falsy (trim (transcriptRef s1))); [reflexivity |].
  run_handler.
  destruct (summarizeText remote _ _) as [[summarizedText | e] sent];
    run_handler; rewrite suspend_nil by exact Hq1; [| reflexivity].
  destruct (synthesizeSpeech remote _ _ _) as [[audioB64 | e] sent'];
    run_handler; rewrite suspend_nil by exact Hq1; reflexivity.
Qed.

End StopHandler.

Section Frames.

(** What a teardown and the events of the live session leave alone. *)
Lemma stopRecordingFlow_frame (s : App) :
  let s' := stopRecordingFlow s in
  requests s' = requests s
  /\ finalAudio s' = finalAudio s
  /\ transcriptRef s' = transcriptRef s
  /\ error s' = error s
  /\ isProcessing s' = isProcessing s
  /\ isRecording s' = false.
Proof.
  destruct s as [rec proc step voice fa err tr ctx sp src sess proms micro
                 cls reqs].
  unfold stopRecordingFlow, promise_then, promise_status. cbn.
  destruct sess as [p |]; cbn;
    [destruct (nth_error proms p) as [[[ | | ] rs] |]; cbn |];
    destruct src; cbn; destruct sp; cbn;
    destruct ctx as [[ | | ] |]; cbn; repeat split.
Qed.

Lemma deliver_frame (ev : LiveEvent) (s : App) :
  requests (deliver ev s) = requests s
  /\ finalAudio (deliver ev s) = finalAudio s.
Proof.
  unfold deliver.
  destruct (run_microtasks_fields
              match ev with
              | Fulfil p => fulfil p s
              | Reject p => reject p s
              | Message message => onmessage message s
              | ConnectionError => onerror s
              | ConnectionClosed p => onclose p s
              end)
    as (_ & _ & _ & _ & Hfa & _ & _ & _ & _ & _ & _ & _ & _ & Hreq).
  cbv zeta in Hfa, Hreq. rewrite Hfa, Hreq.
  destruct ev as [p | p | m | | p].
  - unfold fulfil.
    destruct (nth_error (promises s) p) as [[[ | | ] rs] |]; split; reflexivity.
  - unfold reject.
    destruct (nth_error (promises s) p) as [[[ | | ] rs] |]; split; reflexivity.
  - unfold onmessage.
    destruct (opt_bind (serverContent m) inputTranscription);
      split; reflexivity.
  - unfold onerror.
    destruct (stopRecordingFlow_frame
                (setError
                   (Some (lit "A connection error occurred. Please try again."))
                   s)) as (-> & -> & _).
    split; reflexivity.
  - split; reflexivity.
Qed.

Lemma suspend_frame (during : list LiveEvent) (s : App) :
  requests (suspend during s) = requests s
  /\ finalAudio (suspend during s) = finalAudio s.
Proof.
  unfold suspend.
  destruct (run_microtasks_fields s)
    as (_ & _ & _ & _ & Hfa & _ & _ & _ & _ & _ & _ & _ & _ & Hreq).
  cbv zeta in Hfa, Hreq. rewrite <- Hfa, <- Hreq.
  generalize (run_microtasks s) as s0.
  induction during as [| ev during IH]; intros s0; cbn [fold_left].
  - split; reflexivity.
  - destruct (IH (deliver ev s0)) as [-> ->]. apply deliver_frame.
Qed.

(** [!s.trim()] holds exactly of the strings made of white space only. *)
Lemma trimStart_empty (s : jsstring) :
  trimStart s = [] <-> whitespace_only s = true.
Proof.
  unfold whitespace_only.
  induction s as [| c s IH]; cbn [trimStart forallb].
  - tauto.
  - destruct (is_whitespace c); cbn [andb].
    + exact IH.
    + split; discriminate.
Qed.

Lemma trimStart_head (s : jsstring) :
  whitespace_only (trimStart s) = true -> trimStart s = [].
Proof.
  unfold whitespace_only.
  induction s as [| c s IH]; cbn [trimStart]; [reflexivity |].
  destruct (is_whitespace c) eqn:E; [exact IH |].
  cbn [forallb]. rewrite E. discriminate.
Qed.

Lemma whitespace_only_rev (s : jsstring) :
  whitespace_only (rev s) = whitespace_only s.
Proof.
  unfold whitespace_only.
  destruct (forallb is_whitespace s) eqn:E.
  - apply forallb_forall. intros c Hc. apply in_rev in Hc.
    rewrite forallb_forall in E. exact (E c Hc).
  - destruct (forallb is_whitespace (rev s)) eqn:E'; [| reflexivity].
    rewrite <- E. symmetry. apply forallb_forall. intros c Hc.
    rewrite forallb_forall in E'. apply E', in_rev. rewrite rev_involutive.
    exact Hc.
Qed.

Lemma falsy_trim (s : jsstring) : falsy (trim s) = whitespace_only s.
Proof.
  destruct (whitespace_only s) eqn:E.
  - apply trimStart_empty in E. unfold trim. rewrite E. reflexivity.
  - destruct (falsy (trim s)) eqn:F; [| reflexivity].
    exfalso.
    assert (trim s = []) as Ht by (destruct (trim s); [reflexivity | discriminate]).
    unfold trim, trimEnd in Ht.
    assert (trimStart (rev (trimStart s)) = []) as Hr.
    { apply (f_equal (@rev N)) in Ht. rewrite rev_involutive in Ht.
      exact Ht. }
    apply trimStart_empty in Hr. rewrite whitespace_only_rev in Hr.
    apply trimStart_head, trimStart_empty in Hr. congruence.
Qed.

End Frames.

(** *** The live connection during a stop *)

Section Connection.

Lemma same_session_refl (s : App) : same_session s s.
Proof. repeat split. Qed.

Lemma same_session_trans (s1 s2 s3 : App) :
  same_session s1 s2 -> same_session s2 s3 -> same_session s1 s3.
Proof.
  unfold same_session.
  intros (A1 & A2 & A3 & A4 & A5 & A6 & A7) (B1 & B2 & B3 & B4 & B5 & B6 & B7).
  repeat split; congruence.
Qed.

Lemma run_microtasks_same (s s' : App) :
  same_session s s' -> same_session (run_microtasks s) (run_microtasks s').
Proof.
  intros H. unfold run_microtasks.
  assert (microtasks s = microtasks s') as -> by apply H.
  assert (same_session (set_microtasks [] s) (set_microtasks [] s')) as H0.
  { unfold same_session in *. cbn. intuition. }
  revert H0. generalize (set_microtasks [] s) (set_microtasks [] s').
  induction (microtasks s') as [| t ts IH]; intros a a' Ha; cbn [fold_left].
  - exact Ha.
  - apply IH. unfold run_reaction, emit, same_session in *. cbn.
    destruct Ha as (A1 & A2 & A3 & A4 & A5 & A6 & A7).
    rewrite A7. repeat split; assumption.
Qed.

Lemma deliver_same (ev : LiveEvent) (s s' : App) :
  same_session s s' -> same_session (deliver ev s) (deliver ev s').
Proof.
  intros H. unfold deliver. apply run_microtasks_same.
  destruct s as [rec proc step voice fa err tr ctx sp src sess proms micro
                 cls reqs].
  destruct s' as [rec' proc' step' voice' fa' err' tr' ctx' sp' src' sess'
                  proms' micro' cls' reqs'].
  unfold same_session in H. cbn in H.
  destruct H as (<- & <- & <- & <- & <- & <- & <-).
  destruct ev as [p | p | m | | p].
  - unfold fulfil. cbn.
    destruct (nth_error proms p) as [[[ | | ] rs] |]; repeat split.
  - unfold reject. cbn.
    destruct (nth_error proms p) as [[[ | | ] rs] |]; repeat split.
  - unfold onmessage. cbn.
    destruct (opt_bind (serverContent m) inputTranscription); repeat split.
  - unfold onerror, stopRecordingFlow, promise_then, promise_status. cbn.
    destruct sess as [p |]; cbn;
      [destruct (nth_error proms p) as [[[ | | ] rs] |]; cbn |];
      destruct src; cbn; destruct sp; cbn;
      destruct ctx as [[ | | ] |]; cbn; repeat split.
  - repeat split.
Qed.

Lemma deliver_all_same (evs : list LiveEvent) (s s' : App) :
  same_session s s' ->
  same_session (fold_left (fun s ev => deliver ev s) evs s)
               (fold_left (fun s ev => deliver ev s) evs s').
Proof.
  revert s s'. induction evs as [| ev evs IH]; intros s s' H; cbn [fold_left].
  - exact H.
  - apply IH, deliver_same, H.
Qed.

Lemma deliver_all_quiet (evs : list LiveEvent) (s : App) :
  microtasks s = [] ->
  microtasks (fold_left (fun s ev => deliver ev s) evs s) = [].
Proof.
  revert s. induction evs as [| ev evs IH]; intros s H; cbn [fold_left].
  - exact H.
  - apply IH, deliver_quiet.
Qed.

(** A suspension of a handler with nothing queued is the delivery of its
    events. *)
Lemma suspend_as_events (during : list LiveEvent) (s s' : App) :
  same_session s s' -> microtasks s' = [] ->
  same_session (suspend during s)
               (fold_left (fun s ev => deliver ev s) during s').
Proof.
  intros H Hq. unfold suspend. apply deliver_all_same.
  apply same_session_trans with (run_microtasks s');
    [apply run_microtasks_same, H |].
  unfold run_microtasks. rewrite Hq. cbn [fold_left].
  unfold same_session. cbn. rewrite Hq. repeat split.
Qed.


Variable remote : Remote.
Variable env : StopAwaits.

Ltac run_stop_handler :=
  cbv beta iota zeta
      delta [handleStopRecording bind gets modify
             try_finally try_catch ret zoom throw awaiting fst snd].

Ltac setters_same :=
  unfold same_session; repeat split.

(** For the calls and the session, a stop is its synchronous part followed
    by the events that arrive during the settle delay and during the
    requests it gets to make. *)
Lemma handleStopRecording_events (s : App) :
  isRecording s = true ->
  exists tail,
    incl tail (during_summarize env ++ during_synthesize env)
    /\ same_session
         (snd (handleStopRecording remote env s))
         (fold_left (fun s ev => deliver ev s) (during_settle env ++ tail)
                    (run_microtasks (stop_prologue s))).
Proof.
  intros Hrec. unfold stop_prologue.
  run_stop_handler. rewrite Hrec. cbn [negb]. run_stop_handler.
  set (s1 := suspend (during_settle env) _).
  assert (microtasks s1 = []) as Hq1 by apply suspend_quiet.
  destruct (falsy (trim (transcriptRef s1))).
  - exists []. rewrite app_nil_r. split; [intros x [] |]. setters_same.
  - run_stop_handler.
    destruct (summarizeText remote _ _) as [[summarizedText | e] sent];
      run_stop_handler.
    + match goal with |- context [suspend (during_summarize env) ?x] =>
        assert (same_session (suspend (during_summarize env) x)
                  (fold_left (fun s ev => deliver ev s)
                             (during_summarize env) s1)) as H2
          by (apply suspend_as_events; [setters_same | exact Hq1]);
        set (s2 := suspend (during_summarize env) x) in *
      end.
      assert (microtasks (fold_left (fun s ev => deliver ev s)
                            (during_summarize env) s1) = []) as Hq2
        by (apply deliver_all_quiet; exact Hq1).
      exists (during_summarize env ++ during_synthesize env).
      split; [apply incl_refl |].
      rewrite !fold_left_app. fold (suspend (during_settle env)
        (setError None (setIsProcessing true (stopRecordingFlow s)))).
      fold s1.
      destruct (synthesizeSpeech remote _ _ _) as [[audioB64 | e] sent'];
        run_stop_handler;
        match goal with |- context [suspend (during_synthesize env) ?y] =>
          apply same_session_trans with (suspend (during_synthesize env) y);
            [setters_same |];
          apply suspend_as_events; [| exact Hq2];
          apply same_session_trans with s2; [setters_same | exact H2]
        end.
    + exists (during_summarize env).
      split; [apply incl_appl, incl_refl |].
      rewrite fold_left_app. fold (suspend (during_settle env)
        (setError None (setIsProcessing true (stopRecordingFlow s)))).
      fold s1.
      match goal with |- context [suspend (during_summarize env) ?x] =>
        apply same_session_trans with (suspend (during_summarize env) x);
          [setters_same |];
        apply suspend_as_events; [setters_same | exact Hq1]
      end.
Qed.


Lemma held_calls_no_close (p : nat) (s : App) :
  ~ In (SessionClose p) (held_calls s).
Proof.
  unfold held_calls.
  destruct (mediaStreamSourceRef s); destruct (scriptProcessorRef s);
    destruct (audioContextRef s) as [[ | | ] |]; cbn;
    intuition discriminate.
Qed.

(** Without a session reference a teardown leaves the promises and the
    queue alone. *)
Lemma stopRecordingFlow_no_session (s : App) :
  sessionPromiseRef s = None ->
  sessionPromiseRef (stopRecordingFlow s) = None
  /\ promises (stopRecordingFlow s) = promises s
  /\ microtasks (stopRecordingFlow s) = microtasks s.
Proof.
  destruct s as [rec proc step voice fa err tr ctx sp src sess proms micro
                 cls reqs].
  unfold stopRecordingFlow. cbn. intros ->.
  destruct src; cbn; destruct sp; cbn;
    destruct ctx as [[ | | ] |]; cbn; repeat split.
Qed.

Lemma close_of_other_session (p q : nat) (rs : list Reaction) :
  q <> p ->
  ~ In (SessionClose p) (map reaction_call (map (fun r => (q, r)) rs)).
Proof.
  intros Hne. induction rs as [| r rs IH]; cbn; [tauto |].
  intros [H | H]; [| exact (IH H)].
  destruct r; cbn in H; congruence.
Qed.

(** One event on a torn-down session whose connection [p] is not
    established: unless the event establishes it, the session [p] is not
    closed, and its connection stays as it is or fails. *)
Lemma deliver_unestablished (p : nat) (ev : LiveEvent) (s : App) :
  sessionPromiseRef s = None ->
  microtasks s = [] ->
  promise_status p s <> Some Fulfilled ->
  ev <> Fulfil p \/ promise_status p s = Some Rejected ->
  exists rest,
    calls (deliver ev s) = calls s ++ rest
    /\ ~ In (SessionClose p) rest
    /\ sessionPromiseRef (deliver ev s) = None
    /\ (promise_status p (deliver ev s) = promise_status p s
        \/ promise_status p (deliver ev s) = Some Rejected).
Proof.
  intros Hsess Hq Hst Hev.
  unfold deliver. rewrite run_microtasks_calls.
  match goal with |- context [run_microtasks ?x] =>
    destruct (run_microtasks_fields x)
      as (_ & _ & _ & _ & _ & _ & _ & _ & _ & _ & Hs & Hp & _)
  end.
  cbv zeta in Hs, Hp. unfold promise_status in *. rewrite Hs, Hp.
  clear Hs Hp.
  destruct ev as [q | q | m | | q].
  - (* the connection q is established *)
    unfold fulfil.
    destruct (nth_error (promises s) q) as [[[ | | ] rs] |] eqn:En;
      cbn [calls microtasks promises sessionPromiseRef set_microtasks
           set_promises];
      rewrite ?Hq; cbn [map app];
      try (exists [];
           (split; [reflexivity |]); (split; [intros [] |]);
           (split; [exact Hsess |]); left; reflexivity).
    assert (q <> p) as Hne.
    { intros ->. destruct Hev as [Hev | Hev]; [congruence |].
      rewrite En in Hev. discriminate. }
    eexists. split; [reflexivity |].
    split; [apply close_of_other_session, Hne |].
    split; [exact Hsess |]. left.
    rewrite nth_error_update_nth_other by exact Hne. reflexivity.
  - (* the connection q fails *)
    unfold reject.
    destruct (nth_error (promises s) q) as [[[ | | ] rs] |] eqn:En;
      cbn [calls microtasks promises sessionPromiseRef set_microtasks
           set_promises];
      rewrite ?Hq; cbn [map];
      exists [];
      (split; [reflexivity |]); (split; [intros [] |]);
      (split; [exact Hsess |]); try (left; reflexivity).
    destruct (Nat.eq_dec q p) as [-> | Hne].
    + right. rewrite (nth_error_update_nth _ _ _ _ En). reflexivity.
    + left. rewrite nth_error_update_nth_other by exact Hne. reflexivity.
  - unfold onmessage.
    destruct (opt_bind (serverContent m) inputTranscription);
      cbn [calls microtasks promises sessionPromiseRef set_transcriptRef];
      rewrite Hq; exists [];
      (split; [reflexivity |]); (split; [intros [] |]);
      (split; [exact Hsess |]); left; reflexivity.
  - unfold onerror.
    set (s1 := setError _ s).
    destruct (stopRecordingFlow_no_session s1 Hsess) as (Hs1 & Hp1 & Hq1).
    rewrite (stopRecordingFlow_held s1), Hs1, Hp1, Hq1.
    subst s1. cbn [calls microtasks promises setError]. rewrite Hq.
    cbn [map]. rewrite app_nil_r.
    eexists. split; [reflexivity |].
    split; [apply held_calls_no_close |].
    split; [reflexivity | left; reflexivity].
  - unfold onclose, emit.
    cbn [calls microtasks promises sessionPromiseRef set_calls].
    rewrite Hq. cbn [map]. rewrite app_nil_r.
    eexists. split; [reflexivity |].
    split; [cbn; intuition discriminate |].
    split; [exact Hsess | left; reflexivity].
Qed.

(** The session [p] of a connection that failed is never closed. *)
Lemma failed_session_never_closed (p : nat) (evs : list LiveEvent) (s : App) :
  sessionPromiseRef s = None ->
  microtasks s = [] ->
  promise_status p s = Some Rejected ->
  exists rest,
    calls (fold_left (fun s ev => deliver ev s) evs s) = calls s ++ rest
    /\ ~ In (SessionClose p) rest.
Proof.
  revert s. induction evs as [| ev evs IH]; intros s Hsess Hq Hst;
    cbn [fold_left].
  - exists []. rewrite app_nil_r. split; [reflexivity | tauto].
  - destruct (deliver_unestablished p ev s Hsess Hq)
      as (rest1 & Hc1 & Hn1 & Hs1 & Hst1);
      [congruence | right; exact Hst |].
    assert (promise_status p (deliver ev s) = Some Rejected) as Hst'
      by (destruct Hst1 as [H | H]; congruence).
    destruct (IH (deliver ev s) Hs1 (deliver_quiet ev s) Hst')
      as (rest2 & Hc2 & Hn2).
    exists (rest1 ++ rest2). rewrite Hc2, Hc1, <- app_assoc.
    split; [reflexivity |].
    intros H. apply in_app_or in H. tauto.
Qed.

(** The session [p] of a connection that is not established is closed
    only after the connection is established. *)
Lemma close_needs_connection (p : nat) (evs : list LiveEvent) (s : App) :
  sessionPromiseRef s = None ->
  microtasks s = [] ->
  promise_status p s <> Some Fulfilled ->
  exists rest,
    calls (fold_left (fun s ev => deliver ev s) evs s) = calls s ++ rest
    /\ (In (SessionClose p) rest -> In (Fulfil p) evs).
Proof.
  revert s. induction evs as [| ev evs IH]; intros s Hsess Hq Hst;
    cbn [fold_left].
  - exists []. rewrite app_nil_r. split; [reflexivity | intros []].
  - assert (ev = Fulfil p \/ ev <> Fulfil p) as [-> | Hne].
    { destruct ev as [q | q | m | | q]; try (right; discriminate).
      destruct (Nat.eq_dec q p) as [-> | Hne];
        [left; reflexivity | right; congruence]. }
    + destruct (deliver_all_calls (Fulfil p :: evs) s) as (rest & Hc & _).
      exists rest. split; [exact Hc | intros _; left; reflexivity].
    + destruct (deliver_unestablished p ev s Hsess Hq Hst (or_introl Hne))
        as (rest1 & Hc1 & Hn1 & Hs1 & Hst1).
      assert (promise_status p (deliver ev s) <> Some Fulfilled) as Hst'
        by (destruct Hst1 as [H | H]; congruence).
      destruct (IH (deliver ev s) Hs1 (deliver_quiet ev s) Hst')
        as (rest2 & Hc2 & Hn2).
      exists (rest1 ++ rest2). rewrite Hc2, Hc1, <- app_assoc.
      split; [reflexivity |].
      intros H. apply in_app_or in H. destruct H as [H | H];
        [tauto | right; exact (Hn2 H)].
Qed.


(** Every close notification delivered releases the capture device of its
    session. *)
Lemma close_notification_releases (q : nat) (evs : list LiveEvent) (s : App) :
  In (ConnectionClosed q) evs ->
  exists rest,
    calls (fold_left (fun s ev => deliver ev s) evs s) = calls s ++ rest
    /\ In (StopTracks q) rest.
Proof.
  revert s. induction evs as [| ev evs IH]; intros s Hin; [destruct Hin |].
  cbn [fold_left]. destruct Hin as [-> | Hin].
  - destruct (deliver_all_calls evs (deliver (ConnectionClosed q) s))
      as (rest2 & Hc2 & _).
    exists ((StopTracks q :: map reaction_call (microtasks s)) ++ rest2).
    split; [| left; reflexivity].
    rewrite Hc2. unfold deliver. rewrite run_microtasks_calls.
    unfold onclose, emit. cbn [calls set_calls microtasks].
    rewrite <- !app_assoc. reflexivity.
  - destruct (IH (deliver ev s) Hin) as (rest2 & Hc2 & Hin2).
    destruct (deliver_calls ev s) as (rest1 & Hc1 & _).
    exists (rest1 ++ rest2). rewrite Hc2, Hc1, <- app_assoc.
    split; [reflexivity | apply in_or_app; right; exact Hin2].
Qed.

(** The synchronous part of a stop while recording with the session
    [p]. *)
Lemma stopRecordingFlow_on (p : nat) (s : App) :
  recording_on p s = true ->
  isRecording s = true
  /\ calls (stopRecordingFlow s)
     = calls s ++ [SourceDisconnect; ProcessorDisconnect; ClearOnaudioprocess;
                   ContextClose]
  /\ sessionPromiseRef (stopRecordingFlow s) = None
  /\ (promise_status p s = Some Fulfilled ->
      microtasks (stopRecordingFlow s) = [(p, CloseSession)])
  /\ (promise_status p s <> Some Fulfilled ->
      microtasks (stopRecordingFlow s) = []
      /\ promise_status p (stopRecordingFlow s) = promise_status p s)
  /\ (promise_status p s = Some Pending ->
      nth_error (promises (stopRecordingFlow s)) p
      = Some (mkPromise Pending (waiting_on p s ++ [CloseSession]))
      /\ microtasks (stopRecordingFlow s) = []).
Proof.
  destruct s as [rec proc step voice fa err tr ctx sp src sess proms micro
                 cls reqs].
  unfold recording_on, stopRecordingFlow, promise_then, promise_status,
    waiting_on.
  cbn. intros H.
  destruct rec; [| discriminate].
  destruct sess as [q |]; [| discriminate].
  destruct (Nat.eqb_spec q p) as [-> |]; [| discriminate].
  destruct (nth_error proms p) as [[[ | | ] rs] |] eqn:En; cbn in H |- *;
    try discriminate;
    (destruct src; [| discriminate]);
    (destruct sp; [| discriminate]);
    (destruct ctx as [[ | | ] |]; cbn in H |- *; try discriminate);
    (destruct micro; [| discriminate]);
    rewrite <- ?app_assoc; cbn [app];
    rewrite ?En, ?(nth_error_update_nth _ _ _ _ En); cbn;
    repeat split; try reflexivity; try congruence; intros; congruence.
Qed.

End Connection.

Section Reach.

Lemma update_nth_defined {A} (f : A -> A) (l : list A) (n m : nat) :
  match nth_error (update_nth n f l) m with Some _ => true | None => false end
  = match nth_error l m with Some _ => true | None => false end.
Proof.
  revert n m. induction l as [| y l IH]; intros [| n] [| m];
    cbn; try reflexivity.
  apply IH.
Qed.


(** The same for a captured block. *)
Lemma recording_on_audio_event (encode : list Z -> jsstring)
    (block : list jsnum) (p : nat) (s : App) :
  recording_on p s = true ->
  recording_on p (audio_event encode block s) = true.
Proof.
  unfold audio_event, recording_on, promise_status.
  match goal with |- context [run_microtasks ?x] =>
    destruct (run_microtasks_fields x)
      as (-> & _ & _ & _ & _ & _ & _ & -> & -> & -> & -> & -> & -> & _)
  end.
  intros H. apply andb_prop in H. destruct H as [H _].
  cbv beta iota. rewrite andb_true_r.
  unfold onaudioprocess, promise_then, promise_status.
  destruct (sessionPromiseRef s) as [q |] eqn:Es; [| rewrite Es; exact H].
  destruct (nth_error (promises s) q) as [[[ | | ] rs] |] eqn:En;
    cbn [option_map status isRecording sessionPromiseRef promises
         mediaStreamSourceRef scriptProcessorRef audioContextRef
         set_microtasks set_promises];
    rewrite ?Es; try exact H.
  destruct (nth_error (update_nth q _ (promises s)) p) eqn:E1;
    pose proof (update_nth_defined
                  (fun pr => mkPromise Pending
                     (reactions pr
                      ++ [SendInput
                            (mkGenAIBlob
                               (encode (Uint8Array_of_Int16Array
                                          (capture_int16 block)))
                               (lit "audio/pcm;rate=16000"))]))
                  (promises s) q p) as Hd;
    rewrite E1 in Hd; destruct (nth_error (promises s) p);
    cbn [option_map] in *; try discriminate; exact H.
Qed.

Lemma connecting_is_recording_on (p : nat) (s : App) :
  connecting_with p s = true -> recording_on p s = true.
Proof.
  unfold connecting_with, recording_on, promise_status.
  destruct (nth_error (promises s) p) as [[[ | | ] [| r rs]] |];
    cbn [option_map status]; rewrite ?andb_false_r, ?andb_false_l;
    try discriminate; intros H; exact H.
Qed.

Lemma recording_with_is_recording_on (p : nat) (s : App) :
  recording_with p s = true
  <-> recording_on p s = true /\ promise_status p s = Some Fulfilled.
Proof.
  unfold recording_with, recording_on.
  destruct (promise_status p s) as [[ | | ] |];
    rewrite ?andb_false_r, ?andb_false_l; cbn [andb];
    split; try discriminate; try (intros [_ H]; discriminate);
    try (intros [H _]; discriminate); intuition.
Qed.

End Reach.


Section SessionClaims.

Variable remote : Remote.

(** C5: when the transcript read after the settle delay is empty or made
    of white space only, a stop from the recording state ends with the
    no-speech error, sends no request to the text and speech service
    (neither [summarizeText] nor [synthesizeSpeech] runs), and yields no
    audio. *)
Theorem no_speech_aborts (env : StopAwaits) (s : App) :
  isRecording s = true ->
  whitespace_only (accumulated_transcript env s) = true ->
  let r := handleStopRecording remote env s in
  fst r = Normal tt
  /\ error (snd r) = Some no_speech_message
  /\ requests (snd r) = requests s
  /\ finalAudio (snd r) = finalAudio s
  /\ isProcessing (snd r) = false.
Proof.
  intros Hrec Hws. cbv zeta.
  rewrite <- falsy_trim in Hws.
  rewrite (handleStopRecording_no_speech remote env s Hrec Hws).
  cbn [fst snd error requests finalAudio isProcessing
       setProcessingStep setIsProcessing setError].
  destruct (suspend_frame (during_settle env) (stop_prologue s))
    as [Hreq Hfa].
  destruct (stopRecordingFlow_frame s) as (Hreq' & Hfa' & _).
  cbv zeta in Hreq', Hfa'.
  rewrite Hreq, Hfa. unfold stop_prologue.
  cbn [requests finalAudio setIsProcessing setError].
  rewrite Hreq', Hfa'. repeat split.
Qed.

(** C6 (amended): a stop while recording with the session [p] makes at
    once, in this order, the disconnect of the capture source, the
    disconnect of the processing node with the clearing of its callback,
    and the close of the audio context.  The live session is closed after
    these, by a callback on its connection: next when the connection is
    established; only after the connection is established when it is still
    pending, and then after the blocks queued on it; never when the
    connection has failed.  The capture device of a session is released
    when, and only when, the close notification of that session arrives:
    with an established connection this is after the close, and it is the
    last call when the notification is the one event of the settle
    delay. *)
Theorem teardown_order (env : StopAwaits) (p : nat) (s : App) :
  recording_on p s = true ->
  exists rest,
    calls (snd (handleStopRecording remote env s))
    = calls s
      ++ [SourceDisconnect; ProcessorDisconnect; ClearOnaudioprocess;
          ContextClose]
      ++ rest
    /\ (forall q, In (StopTracks q) rest ->
                  In (ConnectionClosed q) (all_events env))
    /\ (forall q, In (ConnectionClosed q) (during_settle env) ->
                  In (StopTracks q) rest)
    /\ (promise_status p s = Some Fulfilled ->
        exists rest',
          rest = SessionClose p :: rest'
          /\ (env = closed_in_time p -> rest' = [StopTracks p]))
    /\ (promise_status p s = Some Pending ->
        (In (SessionClose p) rest -> In (Fulfil p) (all_events env))
        /\ calls (deliver (Fulfil p) (stopRecordingFlow s))
           = calls s
             ++ [SourceDisconnect; ProcessorDisconnect; ClearOnaudioprocess;
                 ContextClose]
             ++ map (fun r => reaction_call (p, r)) (waiting_on p s)
             ++ [SessionClose p])
    /\ (promise_status p s = Some Rejected -> ~ In (SessionClose p) rest).
Proof.
  intros Hon.
  destruct (stopRecordingFlow_on p s Hon)
    as (Hrec & Hcalls & Hsess & Hful & Hun & Hpend).
  destruct (handleStopRecording_events remote env s Hrec)
    as (tail & Hincl & Hsame).
  destruct Hsame as (_ & _ & _ & _ & _ & _ & Hfinal).
  assert (incl (during_settle env ++ tail) (all_events env)) as Hall.
  { unfold all_events. apply incl_app; [apply incl_appl, incl_refl |].
    apply incl_appr. exact Hincl. }
  destruct (run_microtasks_fields (stop_prologue s))
    as (_ & _ & _ & _ & _ & _ & _ & _ & _ & _ & Hs0 & Hp0 & Hq0 & _).
  cbv zeta in Hs0, Hp0, Hq0.
  pose proof (run_microtasks_calls (stop_prologue s)) as Hc0.
  unfold stop_prologue in Hs0, Hp0, Hc0.
  cbn [calls microtasks promises sessionPromiseRef setError setIsProcessing]
    in Hs0, Hp0, Hc0.
  fold (stop_prologue s) in Hs0, Hp0, Hc0.
  rewrite Hsess in Hs0. rewrite Hcalls in Hc0.
  assert (promise_status p (run_microtasks (stop_prologue s))
          = promise_status p (stopRecordingFlow s)) as Hst0
    by (unfold promise_status; rewrite Hp0; reflexivity).
  destruct (deliver_all_calls (during_settle env ++ tail)
              (run_microtasks (stop_prologue s))) as (rest1 & Hc1 & Hrel1).
  exists (map reaction_call (microtasks (stopRecordingFlow s)) ++ rest1).
  split.
  { rewrite Hfinal, Hc1, Hc0, <- !app_assoc. reflexivity. }
  split.
  { intros q H. apply in_app_or in H. destruct H as [H | H].
    - exfalso. exact (reaction_call_not_release _ _ H).
    - apply Hall, Hrel1, H. }
  split.
  { intros q H. apply in_or_app. right.
    destruct (close_notification_releases q (during_settle env ++ tail)
                (run_microtasks (stop_prologue s)))
      as (rest2 & Hc2 & Hin2); [apply in_or_app; left; exact H |].
    rewrite Hc1 in Hc2. apply app_inv_head in Hc2. subst rest2. exact Hin2. }
  split.
  { intros Hf. rewrite (Hful Hf). cbn [map app].
    exists rest1. split; [reflexivity |]. intros ->.
    cbn [closed_in_time during_summarize during_synthesize during_settle app]
      in *.
    assert (tail = []) as ->
      by (destruct tail as [| x t];
          [reflexivity | destruct (Hincl x (or_introl eq_refl))]).
    cbn [app fold_left] in Hc1.
    unfold deliver in Hc1. rewrite run_microtasks_calls in Hc1.
    unfold onclose, emit in Hc1. cbn [calls set_calls microtasks] in Hc1.
    rewrite Hq0 in Hc1. cbn [map] in Hc1. rewrite app_nil_r in Hc1.
    apply app_inv_head in Hc1. symmetry. exact Hc1. }
  split.
  { intros Hp.
    assert (promise_status p s <> Some Fulfilled) as Hnf by congruence.
    destruct (Hun Hnf) as (Hm & Hst). rewrite Hm. cbn [map app].
    split.
    - intros Hin.
      destruct (close_needs_connection p (during_settle env ++ tail)
                  (run_microtasks (stop_prologue s)) Hs0 Hq0)
        as (rest2 & Hc2 & Hn2); [rewrite Hst0, Hst; exact Hnf |].
      rewrite Hc1 in Hc2. apply app_inv_head in Hc2. subst rest2.
      apply Hall, Hn2, Hin.
    - destruct (Hpend Hp) as (Hnth & Hm').
      unfold deliver. rewrite run_microtasks_calls.
      unfold fulfil. rewrite Hnth.
      cbn [calls microtasks set_microtasks set_promises].
      rewrite Hm', Hcalls. cbn [app].
      rewrite map_map, map_app. cbn [map].
      rewrite <- !app_assoc. reflexivity. }
  intros Hr.
  assert (promise_status p s <> Some Fulfilled) as Hnf by congruence.
  destruct (Hun Hnf) as (Hm & Hst). rewrite Hm. cbn [map app].
  destruct (failed_session_never_closed p (during_settle env ++ tail)
              (run_microtasks (stop_prologue s)) Hs0 Hq0)
    as (rest2 & Hc2 & Hn2); [rewrite Hst0, Hst; exact Hr |].
  rewrite Hc1 in Hc2. apply app_inv_head in Hc2. subst rest2. exact Hn2.
Qed.


(** C10: every start first clears the error, the final audio and the
    transcript, whatever the recording state: its outcome does not depend
    on the transcript and the audio it finds, and the final audio stays
    cleared.  A start while recording then only tears the session down: the
    transcript collected so far is gone; the calls made are exactly those
    that release the resources held, in the order of a teardown; with the
    live session [p] open these are the two disconnects, the clearing of
    the callback and the close of the audio context, with
    [session.close()] queued and called next, or, while the connection is
    still being established, registered on it behind the callbacks already
    waiting; no request is sent to the text and speech service, and no
    audio results. *)
Theorem start_clears_then_toggles (granted : bool)
    (failing : option SetupStep) (during : list LiveEvent) (s : App) :
  let r := handleStartRecording granted failing during s in
  (forall transcript audio,
     handleStartRecording granted failing during
       (set_transcriptRef transcript (setFinalAudio audio s)) = r)
  /\ finalAudio (snd r) = None
  /\ (during = [] -> transcriptRef (snd r) = [])
  /\ (isRecording s = true ->
        fst r = Normal tt
        /\ snd r = stopRecordingFlow (start_prologue s)
        /\ transcriptRef (snd r) = []
        /\ torn_down (snd r) = true
        /\ calls (snd r) = calls s ++ held_calls s
        /\ (forall p, recording_with p s = true ->
              calls (snd r)
              = calls s ++ [SourceDisconnect; ProcessorDisconnect;
                            ClearOnaudioprocess; ContextClose]
              /\ microtasks (snd r) = [(p, CloseSession)]
              /\ calls (run_microtasks (snd r))
                 = calls s ++ [SourceDisconnect; ProcessorDisconnect;
                               ClearOnaudioprocess; ContextClose;
                               SessionClose p])
        /\ (forall p, recording_on p s = true ->
              promise_status p s = Some Pending ->
              calls (snd r)
              = calls s ++ [SourceDisconnect; ProcessorDisconnect;
                            ClearOnaudioprocess; ContextClose]
              /\ nth_error (promises (snd r)) p
                 = Some (mkPromise Pending
                           (waiting_on p s ++ [CloseSession])))
        /\ requests (snd r) = requests s
        /\ requests (run_microtasks (snd r)) = requests s
        /\ finalAudio (run_microtasks (snd r)) = None).
Proof.
  cbv zeta.
  assert (isRecording s = true ->
          handleStartRecording granted failing during s
          = (Normal tt, stopRecordingFlow (start_prologue s))) as Hrun.
  { intros Hrec.
    cbv beta iota zeta delta [handleStartRecording bind gets modify].
    cbn [isRecording set_transcriptRef setFinalAudio setError].
    rewrite Hrec. reflexivity. }
  pose proof (stopRecordingFlow_frame (start_prologue s))
    as (Hreq & Hfa & Htr & _).
  cbv zeta in Hreq, Hfa, Htr. unfold start_prologue in Hreq, Hfa, Htr.
  cbn [requests finalAudio transcriptRef set_transcriptRef setFinalAudio
       setError] in Hreq, Hfa, Htr.
  fold (start_prologue s) in Hreq, Hfa, Htr.
  split; [intros transcript audio; reflexivity |].
  destruct (isRecording s) eqn:Hrec.
  - rewrite (Hrun eq_refl). cbn [fst snd].
    split; [exact Hfa |]. split; [intros _; exact Htr |]. intros _.
    split; [reflexivity |]. split; [reflexivity |].
    split; [exact Htr |].
    split; [apply stopRecordingFlow_torn_down |].
    split; [exact (stopRecordingFlow_held (start_prologue s)) |].
    split.
    { intros p Hp.
      destruct (stopRecordingFlow_recording p (start_prologue s) Hp)
        as [Hcalls Hmicro].
      cbn [calls start_prologue set_transcriptRef setFinalAudio setError]
        in Hcalls.
      split; [exact Hcalls |]. split; [exact Hmicro |].
      rewrite run_microtasks_calls, Hcalls, Hmicro, <- app_assoc.
      reflexivity. }
    split.
    { intros p Hon Hpend.
      destruct (stopRecordingFlow_on p (start_prologue s) Hon)
        as (_ & Hcalls & _ & _ & _ & Hq).
      destruct (Hq Hpend) as (Hnth & _).
      split; [exact Hcalls | exact Hnth]. }
    split; [exact Hreq |].
    destruct (run_microtasks_fields (stopRecordingFlow (start_prologue s)))
      as (_ & _ & _ & _ & Hfa2 & _ & _ & _ & _ & _ & _ & _ & _ & Hreq2).
    cbv zeta in Hfa2, Hreq2. rewrite Hfa2, Hreq2. split; assumption.
  - split; [| split; [| discriminate]].
    + cbv beta iota zeta delta [handleStartRecording bind gets modify
                                try_catch getUserMedia awaiting].
      cbn [isRecording set_transcriptRef setFinalAudio setError].
      rewrite Hrec.
      destruct granted; [destruct failing as [[ | | | | | | ] |] |];
        cbv beta iota zeta delta [fallible same_step throw ret modify];
        match goal with |- context [suspend during ?x] =>
          pose proof (proj2 (suspend_frame during x)) as Hs
        end;
        cbn [snd finalAudio setError setIsRecording
             set_audioContextRef set_mediaStreamSourceRef
             set_scriptProcessorRef live_connect set_sessionPromiseRef
             emit set_calls set_promises];
        rewrite Hs; reflexivity.
    + intros ->.
      cbv beta iota zeta delta [handleStartRecording bind gets modify
                                try_catch getUserMedia awaiting].
      cbn [isRecording set_transcriptRef setFinalAudio setError].
      rewrite Hrec.
      destruct granted; [destruct failing as [[ | | | | | | ] |] |];
        cbv beta iota zeta delta [fallible same_step throw ret modify];
        match goal with |- context [suspend [] ?x] =>
          destruct (run_microtasks_fields x)
            as (_ & _ & _ & _ & _ & _ & Htr' & _);
          change (suspend [] x) with (run_microtasks x)
        end;
        cbv zeta in Htr';
        cbn [snd transcriptRef setError setIsRecording
             set_audioContextRef set_mediaStreamSourceRef
             set_scriptProcessorRef live_connect set_sessionPromiseRef
             emit set_calls set_promises];
        rewrite Htr'; reflexivity.
Qed.

End SessionClaims.

(** ** The session on concrete runs *)

Lemma no_speech_aborts_witness :
  isRecording started_silent = true
  /\ whitespace_only
       (accumulated_transcript (closed_in_time 0) started_silent) = true
  /\ let r := handleStopRecording silent_remote (closed_in_time 0)
                 started_silent in
     fst r = Normal tt
     /\ error (snd r) = Some no_speech_message
     /\ requests (snd r) = requests started_silent
     /\ finalAudio (snd r) = finalAudio started_silent
     /\ isProcessing (snd r) = false.
Proof.
  split; [reflexivity |]. split; [reflexivity |].
  apply (no_speech_aborts silent_remote (closed_in_time 0) started_silent);
    reflexivity.
Defined.

Lemma teardown_order_witness :
  recording_on 0 started = true
  /\ calls (snd (handleStopRecording silent_remote (closed_in_time 0)
                   started))
     = calls started
       ++ [SourceDisconnect; ProcessorDisconnect; ClearOnaudioprocess;
           ContextClose; SessionClose 0; StopTracks 0].
Proof.
  split; [reflexivity |].
  destruct (teardown_order silent_remote (closed_in_time 0) 0%nat started
              eq_refl) as (rest & Hc & _ & _ & Hf & _).
  destruct (Hf eq_refl) as (rest' & Hrest & Hlast).
  rewrite Hrest, (Hlast eq_refl) in Hc. exact Hc.
Defined.

(** C6 fails as stated for a stop while the connection has failed, and
    for one while it is still being established, with no event arriving:
    the component is recording, and the stop makes the disconnects and
    closes the audio context, but it neither closes the live session nor
    releases the capture device. *)
Lemma C6_unestablished_counterexample :
  isRecording connection_failed = true
  /\ calls (snd (handleStopRecording silent_remote no_events
                   connection_failed))
     = calls connection_failed
       ++ [SourceDisconnect; ProcessorDisconnect; ClearOnaudioprocess;
           ContextClose]
  /\ isRecording connecting = true
  /\ calls (snd (handleStopRecording silent_remote no_events connecting))
     = calls connecting
       ++ [SourceDisconnect; ProcessorDisconnect; ClearOnaudioprocess;
           ContextClose]
  /\ ~ spec_teardown_order
         [SourceDisconnect; ProcessorDisconnect; ClearOnaudioprocess;
          ContextClose].
Proof.
  split; [reflexivity |]. split; [reflexivity |].
  split; [reflexivity |]. split; [reflexivity |].
  intros (p & a & b & c & d & e & H).
  assert (In (SessionClose p)
             [SourceDisconnect; ProcessorDisconnect; ClearOnaudioprocess;
              ContextClose]) as Hin.
  { rewrite H. apply in_or_app. right. right.
    apply in_or_app. right. right.
    apply in_or_app. right. left. reflexivity. }
  cbn in Hin. intuition discriminate.
Qed.

Lemma start_clears_then_toggles_witness :
  isRecording started = true
  /\ recording_with 0 started = true
  /\ transcriptRef started = lit "hello"
  /\ (let r := handleStartRecording true None [] started in
      transcriptRef (snd r) = []
      /\ torn_down (snd r) = true
      /\ calls (snd r)
         = calls started ++ [SourceDisconnect; ProcessorDisconnect;
                             ClearOnaudioprocess; ContextClose]
      /\ microtasks (snd r) = [(0%nat, CloseSession)]
      /\ calls (run_microtasks (snd r))
         = calls started ++ [SourceDisconnect; ProcessorDisconnect;
                             ClearOnaudioprocess; ContextClose;
                             SessionClose 0]
      /\ requests (snd r) = requests started
      /\ finalAudio (run_microtasks (snd r)) = None).
Proof.
  split; [reflexivity |]. split; [reflexivity |]. split; [reflexivity |].
  pose proof (start_clears_then_toggles true None [] started) as H.
  cbv zeta in H |- *. destruct H as (_ & _ & _ & H).
  specialize (H eq_refl).
  destruct H as (_ & _ & Htr & Htd & _ & Hp & _ & Hreq & _ & Hfa).
  destruct (Hp 0%nat eq_refl) as (Hc & Hm & Hc').
  split; [exact Htr |]. split; [exact Htd |]. split; [exact Hc |].
  split; [exact Hm |]. split; [exact Hc' |]. split; [exact Hreq | exact Hfa].
Defined.

(** A whole stop of a recording session with the close notification
    arriving in time: the calls on the resources from the first start on. *)
Example stop_run_calls :
  calls (snd (handleStopRecording helpful_remote (closed_in_time 0) started))
  = [GetUserMedia; LiveConnect 0; SourceConnect; ProcessorConnect;
     SourceDisconnect; ProcessorDisconnect; ClearOnaudioprocess;
     ContextClose; SessionClose 0; StopTracks 0].
Proof. reflexivity. Qed.

(** The same run ends with the synthesized audio and two requests sent. *)
Example stop_run_result :
  let s := snd (handleStopRecording helpful_remote (closed_in_time 0) started)
  in finalAudio s = Some (lit "AAAA")
     /\ error s = None
     /\ List.length (requests s) = 2%nat
     /\ torn_down s = true.
Proof. repeat split. Qed.

(** A stop before the connection is established: the session is closed
    when the connection completes, still after the disconnects, and the
    device is released on the close notification. *)
Example stop_while_connecting :
  calls (snd (handleStopRecording helpful_remote
                (mkStopAwaits [Fulfil 0; ConnectionClosed 0] [] [])
                connecting))
  = [GetUserMedia; LiveConnect 0; SourceConnect; ProcessorConnect;
     SourceDisconnect; ProcessorDisconnect; ClearOnaudioprocess;
     ContextClose; SessionClose 0; StopTracks 0].
Proof. reflexivity. Qed.

(** A start whose capture device is refused leaves the component idle with
    the microphone error. *)
Example start_refused :
  let s := snd (handleStartRecording false None [] initial) in
  isRecording s = false
  /\ error s = Some (lit
       "Could not access the microphone. Please check permissions and try again.")
  /\ torn_down s = true.
Proof. repeat split. Qed.

(* ================================================================== *)
(** * Further properties of the code *)
(* ================================================================== *)

(** ** Truncation *)

Section Truncation.

Lemma Qtrunc_floor (x : Q) : (0 <= x)%Q -> Qtrunc x = Qfloor x.
Proof.
  destruct x as [n d]. unfold Qle, Qtrunc, Qfloor. cbn. intros Hn.
  apply Z.quot_div_nonneg; lia.
Qed.

Lemma Qtrunc_ceiling (x : Q) : (x <= 0)%Q -> Qtrunc x = Qceiling x.
Proof.
  destruct x as [n d]. unfold Qle, Qtrunc, Qceiling, Qfloor. cbn. intros Hn.
  rewrite <- (Z.opp_involutive n) at 1.
  rewrite Z.quot_opp_l by lia.
  rewrite Z.quot_div_nonneg by lia. reflexivity.
Qed.

Lemma Qtrunc_mono (x y : Q) : (x <= y)%Q -> Qtrunc x <= Qtrunc y.
Proof.
  intros Hxy.
  destruct (Qlt_le_dec x 0) as [Hx | Hx]; destruct (Qlt_le_dec y 0) as [Hy | Hy].
  - rewrite !Qtrunc_ceiling by (apply Qlt_le_weak; assumption).
    apply Qceiling_resp_le, Hxy.
  - pose proof (proj2 (Qtrunc_sign x) (Qlt_le_weak _ _ Hx)).
    pose proof (proj1 (Qtrunc_sign y) Hy). lia.
  - exfalso. apply (Qlt_not_le _ _ Hy). apply Qle_trans with x; assumption.
  - rewrite !Qtrunc_floor by assumption. apply Qfloor_resp_le, Hxy.
Qed.

(** Truncation moves a value toward zero by less than one. *)
Lemma Qtrunc_error (x : Q) :
  (inject_Z (Qtrunc x) - 1 < x)%Q /\ (x < inject_Z (Qtrunc x) + 1)%Q
  /\ ((0 <= x)%Q -> (inject_Z (Qtrunc x) <= x)%Q)
  /\ ((x <= 0)%Q -> (x <= inject_Z (Qtrunc x))%Q).
Proof.
  destruct (Qtrunc_spec x) as (r & Heq & Habs & Hpos & Hneg).
  destruct x as [n d]. remember (Qtrunc (n # d)) as t eqn:Et. clear Et.
  unfold Qlt, Qle, Qminus, Qplus, Qopp, inject_Z.
  cbn [Qnum Qden] in *.
  repeat split; intros; nia.
Qed.

Lemma Qtrunc_inject (v : Z) (d : positive) :
  Qtrunc (v * Z.pos d # d) = v.
Proof. unfold Qtrunc. cbn. apply Z.quot_mul. lia. Qed.

End Truncation.

(** ** The capture-side encoder, further *)

Section CaptureMore.

Lemma map_seq_nth {A B} (f : A -> B) (d : A) (l : list A) :
  map (fun i => f (nth i l d)) (seq 0 (List.length l)) = map f l.
Proof.
  induction l as [| x l IH]; [reflexivity |].
  cbn [List.length seq map nth]. f_equal.
  rewrite <- seq_shift, map_map. exact IH.
Qed.

(** The loop is a map over the block. *)
Lemma capture_int16_map (inputData : list jsnum) :
  capture_int16 inputData = map capture_sample inputData.
Proof. unfold capture_int16. apply map_seq_nth. Qed.

Lemma ToInt16_range (n : jsnum) : -32768 <= ToInt16 n <= 32767.
Proof. destruct n; cbn; try lia. apply wrap16_range. Qed.

Lemma int16_bytes_valid (a : list Z) :
  Forall is_byte (Uint8Array_of_Int16Array a).
Proof.
  unfold Uint8Array_of_Int16Array.
  induction a as [| v a IH]; cbn [flat_map int16_bytes app].
  - constructor.
  - constructor; [apply byte_at_range; lia |].
    constructor; [apply byte_at_range; lia | exact IH].
Qed.

(** The encoder is exact on the 16-bit grid: a block of samples
    [v / 32768], with every [v] a signed 16-bit integer, is encoded as these
    integers, so the encoder undoes the decoding of 16-bit PCM. *)
Theorem capture_exact_on_grid (vs : list Z) :
  Forall (fun v => -32768 <= v <= 32767) vs ->
  capture_int16 (map (fun v => Fin (pcm_value v)) vs) = vs.
Proof.
  intros Hvs. rewrite capture_int16_map, map_map.
  induction Hvs as [| v vs Hv _ IH]; [reflexivity |].
  cbn [map]. f_equal; [| exact IH].
  rewrite capture_sample_finite.
  change (Qtrunc (pcm_value v * inject_Z 32768))
    with (Z.quot (v * 32768) 32768).
  rewrite Z.quot_mul by lia. apply wrap16_id, Hv.
Qed.

Lemma capture_exact_on_grid_witness :
  Forall (fun v => -32768 <= v <= 32767) [-32768; -1; 0; 1; 32767]
  /\ capture_int16 (map (fun v => Fin (pcm_value v)) [-32768; -1; 0; 1; 32767])
     = [-32768; -1; 0; 1; 32767].
Proof.
  assert (Forall (fun v => -32768 <= v <= 32767) [-32768; -1; 0; 1; 32767])
    as H by (repeat constructor; lia).
  split; [exact H | exact (capture_exact_on_grid _ H)].
Defined.

Lemma capture_sample_in_range (q : Q) :
  (inject_Z (-1) <= q)%Q -> (q < inject_Z 1)%Q ->
  capture_sample (Fin q) = Qtrunc (q * inject_Z 32768).
Proof.
  intros Hlo Hhi.
  pose proof (Qscale_le q (-1) 32768 eq_refl Hlo) as Hxlo.
  pose proof (Qscale_lt q 1 32768 eq_refl Hhi) as Hxhi.
  rewrite capture_sample_finite. apply wrap16_id.
  destruct (Qlt_le_dec q 0) as [Hneg | Hpos].
  - assert (-32768 <= Qtrunc (q * inject_Z 32768) <= 0); [| lia].
    apply Qtrunc_bounds; [lia | exact Hxlo |].
    exact (Qscale_ge q 0 32768 eq_refl (Qlt_le_weak _ _ Hneg)).
  - assert (0 <= Qtrunc (q * inject_Z 32768) < 32768); [| lia].
    apply Qtrunc_between; [lia | | exact Hxhi].
    exact (Qscale_le q 0 32768 eq_refl Hpos).
Qed.

(** On the nominal range [-1 <= s < 1] the store does not wrap: the stored
    integer is [s * 32768] truncated toward zero, less than one step away
    from it and never of the other sign. *)
Theorem capture_accurate_in_range (q : Q) :
  (inject_Z (-1) <= q)%Q -> (q < inject_Z 1)%Q ->
  let x := (q * inject_Z 32768)%Q in
  capture_sample (Fin q) = Qtrunc x
  /\ -32768 <= capture_sample (Fin q) <= 32767
  /\ (inject_Z (capture_sample (Fin q)) - 1 < x)%Q
  /\ (x < inject_Z (capture_sample (Fin q)) + 1)%Q
  /\ ((0 <= q)%Q -> 0 <= capture_sample (Fin q)
                   /\ (inject_Z (capture_sample (Fin q)) <= x)%Q)
  /\ ((q <= 0)%Q -> capture_sample (Fin q) <= 0
                   /\ (x <= inject_Z (capture_sample (Fin q)))%Q).
Proof.
  intros Hlo Hhi. cbv zeta.
  pose proof (Qscale_le q (-1) 32768 eq_refl Hlo) as Hxlo.
  pose proof (Qscale_lt q 1 32768 eq_refl Hhi) as Hxhi.
  assert (-32768 <= Qtrunc (q * inject_Z 32768) <= 32767) as Hr.
  { destruct (Qlt_le_dec q 0) as [Hneg | Hpos].
    - assert (-32768 <= Qtrunc (q * inject_Z 32768) <= 0); [| lia].
      apply Qtrunc_bounds; [lia | exact Hxlo |].
      exact (Qscale_ge q 0 32768 eq_refl (Qlt_le_weak _ _ Hneg)).
    - assert (0 <= Qtrunc (q * inject_Z 32768) < 32768); [| lia].
      apply Qtrunc_between; [lia | | exact Hxhi].
      exact (Qscale_le q 0 32768 eq_refl Hpos). }
  rewrite capture_sample_finite, wrap16_id by exact Hr.
  destruct (Qtrunc_error (q * inject_Z 32768)) as (E1 & E2 & E3 & E4).
  split; [reflexivity |]. split; [exact Hr |].
  split; [exact E1 |]. split; [exact E2 |]. split.
  - intros Hq.
    pose proof (Qscale_le q 0 32768 eq_refl Hq) as Hx.
    split; [apply (proj1 (Qtrunc_sign _)), Hx | apply E3, Hx].
  - intros Hq.
    pose proof (Qscale_ge q 0 32768 eq_refl Hq) as Hx.
    split; [apply (proj2 (Qtrunc_sign _)), Hx | apply E4, Hx].
Qed.

Lemma capture_accurate_in_range_witness :
  (inject_Z (-1) <= 7 # 131072)%Q /\ (7 # 131072 < inject_Z 1)%Q
  /\ capture_sample (Fin (7 # 131072)) = 1.
Proof.
  assert ((inject_Z (-1) <= 7 # 131072)%Q) as H1 by discriminate.
  assert ((7 # 131072 < inject_Z 1)%Q) as H2 by reflexivity.
  split; [exact H1 |]. split; [exact H2 |].
  exact (proj1 (capture_accurate_in_range (7 # 131072) H1 H2)).
Defined.

(** On the nominal range the encoder keeps the order of the samples. *)
Theorem capture_monotone_in_range (q1 q2 : Q) :
  (inject_Z (-1) <= q1)%Q -> (q1 <= q2)%Q -> (q2 < inject_Z 1)%Q ->
  capture_sample (Fin q1) <= capture_sample (Fin q2).
Proof.
  intros Hlo H12 Hhi.
  assert ((q1 < inject_Z 1)%Q) as Hhi1 by (apply Qle_lt_trans with q2; assumption).
  assert ((inject_Z (-1) <= q2)%Q) as Hlo2 by (apply Qle_trans with q1; assumption).
  rewrite (capture_sample_in_range q1 Hlo Hhi1).
  rewrite (capture_sample_in_range q2 Hlo2 Hhi).
  apply Qtrunc_mono.
  apply Qmult_le_compat_r; [exact H12 | discriminate].
Qed.

Lemma capture_monotone_in_range_witness :
  (inject_Z (-1) <= -1 # 2)%Q /\ (-1 # 2 <= 1 # 2)%Q /\ (1 # 2 < inject_Z 1)%Q
  /\ capture_sample (Fin (-1 # 2)) <= capture_sample (Fin (1 # 2)).
Proof.
  assert ((inject_Z (-1) <= -1 # 2)%Q) as H1 by discriminate.
  assert ((-1 # 2 <= 1 # 2)%Q) as H2 by discriminate.
  assert ((1 # 2 < inject_Z 1)%Q) as H3 by reflexivity.
  split; [exact H1 |]. split; [exact H2 |]. split; [exact H3 |].
  exact (capture_monotone_in_range _ _ H1 H2 H3).
Defined.

(** Encoding is blockwise: the bytes of two blocks captured one after the
    other are the bytes of the first followed by those of the second, and
    every byte produced is in [0, 256). *)
Theorem capture_bytes_app (a b : list jsnum) :
  capture_bytes (a ++ b) = capture_bytes a ++ capture_bytes b
  /\ Forall is_byte (capture_bytes (a ++ b)).
Proof.
  split; [| apply int16_bytes_valid].
  unfold capture_bytes, Uint8Array_of_Int16Array.
  rewrite !capture_int16_map, map_app, flat_map_app. reflexivity.
Qed.

(** Samples smaller than one step in magnitude, silence among them, are
    encoded as zero bytes. *)
Theorem capture_dead_zone (block : list Q) :
  Forall (fun q => (-1 # 32768 < q)%Q /\ (q < 1 # 32768)%Q) block ->
  capture_bytes (map Fin block) = repeat 0 (2 * List.length block).
Proof.
  intros Hb. unfold capture_bytes, Uint8Array_of_Int16Array.
  rewrite capture_int16_map, map_map.
  induction Hb as [| q block [Hlo Hhi] _ IH]; [reflexivity |].
  cbn [map flat_map List.length].
  replace (2 * S (List.length block))%nat
    with (S (S (2 * List.length block))) by lia.
  cbn [repeat]. rewrite IH.
  assert (capture_sample (Fin q) = 0) as ->; [| reflexivity].
  rewrite capture_sample_finite.
  assert (-1 < Qtrunc (q * inject_Z 32768) < 1) as Hz.
  { destruct (Qtrunc_spec (q * inject_Z 32768)) as (r & Heq & Habs & Hp & Hn).
    remember (Qtrunc (q * inject_Z 32768)) as t eqn:Et. clear Et.
    destruct q as [n d]. unfold Qlt in Hlo, Hhi.
    cbn [Qnum Qden Qmult inject_Z] in *. nia. }
  replace (Qtrunc (q * inject_Z 32768)) with 0 by lia. reflexivity.
Qed.

Lemma capture_dead_zone_witness :
  Forall (fun q => (-1 # 32768 < q)%Q /\ (q < 1 # 32768)%Q) [0%Q; 1 # 65536]
  /\ capture_bytes (map Fin [0%Q; 1 # 65536]) = [0; 0; 0; 0].
Proof.
  assert (Forall (fun q => (-1 # 32768 < q)%Q /\ (q < 1 # 32768)%Q)
                 [0%Q; 1 # 65536]) as H
    by (repeat constructor).
  split; [exact H | exact (capture_dead_zone _ H)].
Defined.

End CaptureMore.

(** ** The WAV container builder, further *)

Section WavMore.

Lemma wav_sample_quantize (q : Q) : wav_sample (Fin q) = spec_quantize q.
Proof.
  destruct (Qclamp_range q) as [Hlo Hhi].
  unfold wav_sample, spec_quantize.
  rewrite clamp_sample_finite.
  unfold scale_sample, js_lt, js_int, Qltb.
  change (inject_Z 0) with 0%Q.
  destruct (Qle_bool 0 (Qclamp q)) eqn:E; cbn [negb js_mul ToInt16].
  - apply Qle_bool_iff in E. apply wrap16_id.
    assert (0 <= Qtrunc (Qclamp q * inject_Z 32767) <= 32767); [| lia].
    apply Qtrunc_bounds; [lia | |].
    + exact (Qscale_le (Qclamp q) 0 32767 eq_refl E).
    + exact (Qscale_ge (Qclamp q) 1 32767 eq_refl Hhi).
  - apply Qle_bool_false in E. apply wrap16_id.
    assert (-32768 <= Qtrunc (Qclamp q * inject_Z 32768) <= 0); [| lia].
    apply Qtrunc_bounds; [lia | |].
    + exact (Qscale_le (Qclamp q) (-1) 32768 eq_refl Hlo).
    + apply Qlt_le_weak in E.
      exact (Qscale_ge (Qclamp q) 0 32768 eq_refl E).
Qed.

Lemma Qclamp_mono (q1 q2 : Q) : (q1 <= q2)%Q -> (Qclamp q1 <= Qclamp q2)%Q.
Proof.
  intros H. unfold Qclamp.
  destruct (Qle_bool q1 (inject_Z (-1))) eqn:A1;
    destruct (Qle_bool q2 (inject_Z (-1))) eqn:A2;
    destruct (Qle_bool (inject_Z 1) q1) eqn:B1;
    destruct (Qle_bool (inject_Z 1) q2) eqn:B2;
    try apply Qle_bool_iff in A1; try apply Qle_bool_iff in A2;
    try apply Qle_bool_iff in B1; try apply Qle_bool_iff in B2;
    try apply Qle_bool_false in A1; try apply Qle_bool_false in A2;
    try apply Qle_bool_false in B1; try apply Qle_bool_false in B2;
    try apply Qle_refl; try discriminate; try assumption;
    try (apply Qlt_le_weak; assumption);
    exfalso;
    unfold Qle, Qlt in *; cbn [Qnum Qden inject_Z] in *; nia.
Qed.

Lemma Qclamp_sign (q : Q) :
  ((0 <= q)%Q -> (0 <= Qclamp q)%Q) /\ ((q <= 0)%Q -> (Qclamp q <= 0)%Q).
Proof.
  unfold Qclamp.
  destruct (Qle_bool q (inject_Z (-1))) eqn:A;
    destruct (Qle_bool (inject_Z 1) q) eqn:B;
    try apply Qle_bool_iff in A; try apply Qle_bool_iff in B;
    try apply Qle_bool_false in A; try apply Qle_bool_false in B;
    split; intros H; try assumption; try discriminate;
    exfalso; unfold Qle, Qlt in *; cbn [Qnum Qden inject_Z] in *; nia.
Qed.

Lemma spec_quantize_sign (q : Q) :
  ((0 <= Qclamp q)%Q -> spec_quantize q = Qtrunc (Qclamp q * inject_Z 32767)
                        /\ 0 <= spec_quantize q)
  /\ ((Qclamp q <= 0)%Q -> spec_quantize q <= 0).
Proof.
  unfold spec_quantize. cbv zeta. split; intros H.
  - replace (Qle_bool 0 (Qclamp q)) with true
      by (symmetry; apply Qle_bool_iff, H).
    split; [reflexivity |].
    apply (proj1 (Qtrunc_sign _)).
    exact (Qscale_le (Qclamp q) 0 32767 eq_refl H).
  - destruct (Qle_bool 0 (Qclamp q)) eqn:E.
    + apply (proj2 (Qtrunc_sign _)).
      exact (Qscale_ge (Qclamp q) 0 32767 eq_refl H).
    + apply (proj2 (Qtrunc_sign _)).
      exact (Qscale_ge (Qclamp q) 0 32768 eq_refl H).
Qed.

(** The second encode pass keeps the order and the sign of the samples,
    whatever their size, and saturates: every sample of at least 1 is
    stored as 32767 and every sample of at most -1 as -32768. *)
Theorem wav_sample_monotone (q1 q2 : Q) :
  (q1 <= q2)%Q ->
  wav_sample (Fin q1) <= wav_sample (Fin q2)
  /\ ((0 <= q1)%Q -> 0 <= wav_sample (Fin q1))
  /\ ((q1 <= 0)%Q -> wav_sample (Fin q1) <= 0)
  /\ ((inject_Z 1 <= q1)%Q -> wav_sample (Fin q1) = 32767)
  /\ ((q2 <= inject_Z (-1))%Q -> wav_sample (Fin q2) = -32768).
Proof.
  intros H12. rewrite !wav_sample_quantize.
  pose proof (Qclamp_mono q1 q2 H12) as Hc.
  split; [| split; [| split; [| split]]].
  - destruct (Qlt_le_dec (Qclamp q1) 0) as [N1 | P1].
    + destruct (Qlt_le_dec (Qclamp q2) 0) as [N2 | P2].
      * unfold spec_quantize. cbv zeta.
        replace (Qle_bool 0 (Qclamp q1)) with false
          by (symmetry; apply Qle_bool_false, N1).
        replace (Qle_bool 0 (Qclamp q2)) with false
          by (symmetry; apply Qle_bool_false, N2).
        apply Qtrunc_mono, Qmult_le_compat_r; [exact Hc | discriminate].
      * pose proof (proj2 (spec_quantize_sign q1) (Qlt_le_weak _ _ N1)).
        pose proof (proj2 (proj1 (spec_quantize_sign q2) P2)). lia.
    + assert ((0 <= Qclamp q2)%Q) as P2 by (apply Qle_trans with (Qclamp q1); assumption).
      rewrite (proj1 (proj1 (spec_quantize_sign q1) P1)).
      rewrite (proj1 (proj1 (spec_quantize_sign q2) P2)).
      apply Qtrunc_mono, Qmult_le_compat_r; [exact Hc | discriminate].
  - intros H. apply (proj1 (spec_quantize_sign q1)), (proj1 (Qclamp_sign q1)), H.
  - intros H. apply (proj2 (spec_quantize_sign q1)), (proj2 (Qclamp_sign q1)), H.
  - intros H. unfold spec_quantize, Qclamp. cbv zeta.
    replace (Qle_bool q1 (inject_Z (-1))) with false.
    + replace (Qle_bool (inject_Z 1) q1) with true
        by (symmetry; apply Qle_bool_iff, H).
      reflexivity.
    + symmetry. apply Qle_bool_false.
      apply Qlt_le_trans with (inject_Z 1); [reflexivity | exact H].
  - intros H. unfold spec_quantize, Qclamp. cbv zeta.
    replace (Qle_bool q2 (inject_Z (-1))) with true
      by (symmetry; apply Qle_bool_iff, H).
    reflexivity.
Qed.

Lemma wav_sample_monotone_witness :
  (3 # 2 <= 2 # 1)%Q
  /\ wav_sample (Fin (3 # 2)) <= wav_sample (Fin (2 # 1))
  /\ wav_sample (Fin (3 # 2)) = 32767.
Proof.
  assert ((3 # 2 <= 2 # 1)%Q) as H by discriminate.
  split; [exact H |].
  pose proof (wav_sample_monotone (3 # 2) (2 # 1) H) as (Hm & _ & _ & Hs & _).
  split; [exact Hm | apply Hs; discriminate].
Defined.

(** On the 16-bit grid the second encode pass returns a non-positive
    integer unchanged and a positive one lowered by one: the sample
    [v / 32768] is stored as [v] for [-32768 <= v <= 0] and as [v - 1] for
    [1 <= v <= 32767]. *)
Theorem wav_sample_on_grid (v : Z) :
  -32768 <= v <= 32767 ->
  wav_sample (Fin (pcm_value v)) = if 0 <? v then v - 1 else v.
Proof.
  intros Hv. rewrite wav_sample_quantize.
  destruct (Z.eq_dec v (-32768)) as [-> | Hmin]; [reflexivity |].
  assert (Qclamp (pcm_value v) = pcm_value v) as Hc.
  { unfold Qclamp, pcm_value.
    destruct (Qle_bool (v # 32768) (inject_Z (-1))) eqn:A.
    - apply Qle_bool_iff in A. unfold Qle in A. cbn in A. lia.
    - destruct (Qle_bool (inject_Z 1) (v # 32768)) eqn:B; [| reflexivity].
      apply Qle_bool_iff in B. unfold Qle in B. cbn in B. lia. }
  unfold spec_quantize. cbv zeta. rewrite Hc. unfold pcm_value.
  destruct (0 <? v) eqn:Epos.
  - apply Z.ltb_lt in Epos.
    replace (Qle_bool 0 (v # 32768)) with true
      by (symmetry; apply Qle_bool_iff; unfold Qle; cbn; lia).
    change (Qtrunc ((v # 32768) * inject_Z 32767))
      with (Z.quot (v * 32767) 32768).
    symmetry. apply Z.quot_unique with (r := 32768 - v); lia.
  - apply Z.ltb_ge in Epos.
    destruct (Qle_bool 0 (v # 32768)) eqn:E.
    + apply Qle_bool_iff in E. unfold Qle in E. cbn in E.
      assert (v = 0) as -> by lia. reflexivity.
    + change (Qtrunc ((v # 32768) * inject_Z 32768))
        with (Z.quot (v * 32768) 32768).
      apply Z.quot_mul. lia.
Qed.

Lemma wav_sample_on_grid_witness :
  -32768 <= 32767 <= 32767 /\ wav_sample (Fin (pcm_value 32767)) = 32766.
Proof.
  assert (-32768 <= 32767 <= 32767) as H by lia.
  split; [exact H | exact (wav_sample_on_grid 32767 H)].
Defined.

End WavMore.

Section WavFile.

Lemma wavHeader_valid (buffer : AudioBuffer) : Forall is_byte (wavHeader buffer).
Proof.
  unfold wavHeader, setUint32, setUint16, set_bytes, zeros.
  cbn [repeat firstn skipn app List.length Nat.add].
  repeat (constructor; [apply byte_at_range; lia |]). constructor.
Qed.

Lemma le_int16_after (header body : list Z) (k : nat) :
  le_int16 (header ++ body) (List.length header + k) = le_int16 body k.
Proof.
  unfold le_int16.
  rewrite <- Nat.add_assoc, !app_nth2_plus. reflexivity.
Qed.

(** On a well-formed buffer [bufferToWav] succeeds with a blob of type
    [audio/wav] whose bytes are all in [0, 256): the 44-byte header, then,
    for each frame in order, the little-endian 16-bit quantisation of the
    sample of channel 0. *)
Theorem bufferToWav_payload (buffer : AudioBuffer) :
  well_formed buffer ->
  exists blob channelData,
    getChannelData buffer 0 = Some channelData
    /\ bufferToWav buffer = Some blob
    /\ blob_type blob = "audio/wav"%string
    /\ List.length (blob_bytes blob) = (44 + 2 * frameCount buffer)%nat
    /\ Forall is_byte (blob_bytes blob)
    /\ forall i, (i < frameCount buffer)%nat ->
         le_int16 (blob_bytes blob) (44 + 2 * i)
         = wav_sample (nth i channelData NaN).
Proof.
  intros [Hne Hlen].
  destruct (channels buffer) as [| channelData others] eqn:Hch;
    [contradiction |].
  assert (getChannelData buffer 0 = Some channelData) as Hget
    by (unfold getChannelData; rewrite Hch; reflexivity).
  pose proof (bufferToWav_bytes buffer channelData Hget) as Hb.
  eexists. exists channelData.
  split; [exact Hget |]. split; [exact Hb |].
  cbn [blob_type blob_bytes].
  split; [reflexivity |].
  split.
  { rewrite length_app, wavHeader_length, Uint8Array_of_Int16Array_length,
      wav_pcm_length. reflexivity. }
  split.
  { apply Forall_app. split; [apply wavHeader_valid | apply int16_bytes_valid]. }
  intros i Hi.
  rewrite <- (wavHeader_length buffer) at 1.
  rewrite le_int16_after.
  apply le_int16_element.
  - exact (nth_error_map_seq
             (fun i => wav_sample (nth i channelData NaN)) _ _ Hi).
  - apply ToInt16_range.
Qed.

Lemma bufferToWav_payload_witness :
  well_formed stereo_frame
  /\ exists blob channelData,
       getChannelData stereo_frame 0 = Some channelData
       /\ bufferToWav stereo_frame = Some blob
       /\ blob_type blob = "audio/wav"%string
       /\ List.length (blob_bytes blob) = (44 + 2 * frameCount stereo_frame)%nat
       /\ Forall is_byte (blob_bytes blob)
       /\ forall i, (i < frameCount stereo_frame)%nat ->
            le_int16 (blob_bytes blob) (44 + 2 * i)
            = wav_sample (nth i channelData NaN).
Proof.
  assert (well_formed stereo_frame) as H
    by (split; [discriminate | repeat constructor]).
  split; [exact H | exact (bufferToWav_payload stereo_frame H)].
Defined.

(** Without a channel the builder fails: [getChannelData(0)] throws. *)
Lemma bufferToWav_no_channel (rate : Z) (frames : nat) :
  bufferToWav (mkAudioBuffer rate frames []) = None.
Proof. reflexivity. Qed.

(** The format chunk of every file built: the tags ["fmt "] and ["data"],
    a chunk size of 16, PCM format 1, 16 bits per sample, and, as long as
    the values fit their fields, the channel count and sample rate of the
    buffer, a block align of two bytes per channel and a byte rate of
    sample rate times block align. *)
Theorem bufferToWav_format_chunk (buffer : AudioBuffer) (blob : Blob) :
  bufferToWav buffer = Some blob ->
  numberOfChannels buffer < 32768 ->
  0 <= sampleRate buffer ->
  sampleRate buffer * 2 * numberOfChannels buffer < 4294967296 ->
  let wav := blob_bytes blob in
  slice wav 12 4 = ascii_bytes "fmt "
  /\ le_uint32 wav 16 = 16
  /\ le_uint16 wav 20 = 1
  /\ le_uint16 wav 22 = numberOfChannels buffer
  /\ le_uint32 wav 24 = sampleRate buffer
  /\ le_uint16 wav 32 = 2 * numberOfChannels buffer
  /\ le_uint32 wav 28 = sampleRate buffer * le_uint16 wav 32
  /\ le_uint16 wav 34 = 16
  /\ slice wav 36 4 = ascii_bytes "data".
Proof.
  intros Hb Hch Hrate Hbyte.
  assert (1 <= numberOfChannels buffer) as Hch1.
  { unfold bufferToWav, getChannelData, numberOfChannels in *.
    destruct (channels buffer); [discriminate | cbn [List.length]; lia]. }
  destruct (getChannelData buffer 0) as [channelData |] eqn:Hget.
  2: { unfold bufferToWav in Hb. rewrite Hget in Hb. discriminate. }
  rewrite (bufferToWav_bytes buffer channelData Hget) in Hb.
  assert (blob_bytes blob
          = wavHeader buffer
            ++ Uint8Array_of_Int16Array (wav_pcm buffer channelData)) as ->
    by (apply (f_equal (option_map blob_bytes)) in Hb;
        cbn [option_map blob_bytes] in Hb; congruence).
  cbv zeta.
  assert (le_uint16 (wavHeader buffer
                     ++ Uint8Array_of_Int16Array (wav_pcm buffer channelData))
                    32 = 2 * numberOfChannels buffer) as H32.
  { unfold le_uint16, wavHeader. cbn [Nat.add].
    change (nth 32 _ 0)
      with (byte_at (ToUint16 (numberOfChannels buffer * 2)) 0).
    change (nth 33 _ 0)
      with (byte_at (ToUint16 (numberOfChannels buffer * 2)) 1).
    rewrite le_bytes16. unfold ToUint16.
    rewrite Z.mod_mod, Z.mod_small by lia. lia. }
  split; [reflexivity |]. split; [reflexivity |]. split; [reflexivity |].
  split.
  { unfold le_uint16, wavHeader. cbn [Nat.add].
    change (nth 22 _ 0) with (byte_at (ToUint16 (numberOfChannels buffer)) 0).
    change (nth 23 _ 0) with (byte_at (ToUint16 (numberOfChannels buffer)) 1).
    rewrite le_bytes16. unfold ToUint16.
    rewrite Z.mod_mod, Z.mod_small by lia. reflexivity. }
  split.
  { unfold le_uint32, wavHeader. cbn [Nat.add].
    change (nth 24 _ 0) with (byte_at (ToUint32 (sampleRate buffer)) 0).
    change (nth 25 _ 0) with (byte_at (ToUint32 (sampleRate buffer)) 1).
    change (nth 26 _ 0) with (byte_at (ToUint32 (sampleRate buffer)) 2).
    change (nth 27 _ 0) with (byte_at (ToUint32 (sampleRate buffer)) 3).
    rewrite le_bytes32. unfold ToUint32.
    rewrite Z.mod_mod, Z.mod_small by nia. reflexivity. }
  split; [exact H32 |].
  split.
  { rewrite H32. unfold le_uint32, wavHeader. cbn [Nat.add].
    change (nth 28 _ 0)
      with (byte_at (ToUint32 (sampleRate buffer * 2 * numberOfChannels buffer)) 0).
    change (nth 29 _ 0)
      with (byte_at (ToUint32 (sampleRate buffer * 2 * numberOfChannels buffer)) 1).
    change (nth 30 _ 0)
      with (byte_at (ToUint32 (sampleRate buffer * 2 * numberOfChannels buffer)) 2).
    change (nth 31 _ 0)
      with (byte_at (ToUint32 (sampleRate buffer * 2 * numberOfChannels buffer)) 3).
    rewrite le_bytes32. unfold ToUint32.
    rewrite Z.mod_mod, Z.mod_small by nia. lia. }
  split; reflexivity.
Qed.

Lemma bufferToWav_format_chunk_witness :
  exists blob,
    bufferToWav (mkAudioBuffer 24000 2 [[Fin (1 # 2); Fin 0]]) = Some blob
    /\ le_uint16 (blob_bytes blob) 22 = 1
    /\ le_uint32 (blob_bytes blob) 24 = 24000
    /\ le_uint32 (blob_bytes blob) 28 = 48000.
Proof.
  eexists. split; [reflexivity |].
  pose proof (bufferToWav_format_chunk
                (mkAudioBuffer 24000 2 [[Fin (1 # 2); Fin 0]]) _ eq_refl
                eq_refl ltac:(discriminate) eq_refl)
    as (_ & _ & _ & H22 & H24 & H32 & H28 & _).
  split; [exact H22 |]. split; [exact H24 |].
  rewrite H28, H32. reflexivity.
Defined.

Lemma bufferToWav_mono_witness :
  channels (mkAudioBuffer 24000 2 [[Fin (1 # 2); Fin 0]])
  = [[Fin (1 # 2); Fin 0]]
  /\ exists blob,
       bufferToWav (mkAudioBuffer 24000 2 [[Fin (1 # 2); Fin 0]]) = Some blob
       /\ List.length (blob_bytes blob) = 48%nat
       /\ le_uint32 (blob_bytes blob) 40
          = Z.of_nat (List.length (payload (blob_bytes blob))).
Proof.
  split; [reflexivity |].
  destruct (bufferToWav_mono (mkAudioBuffer 24000 2 [[Fin (1 # 2); Fin 0]])
              [Fin (1 # 2); Fin 0] eq_refl eq_refl)
    as (blob & Hb & Hlen & _ & _ & _ & H40 & _).
  exists blob. split; [exact Hb |]. split; [exact Hlen | exact H40].
Defined.

End WavFile.

(** ** The text and speech service, further *)

Section ServiceMore.

Variable remote : Remote.

(** [summarizeText] sends exactly one request, for the model
    [gemini-2.5-flash] with the transcript quoted at the end of the prompt;
    it returns the text of the response unchanged, and turns every rejection,
    whatever its reason, into the error ["Failed to summarize text."]. *)
Theorem summarizeText_outcome (transcript : jsstring) (sent : Sent) :
  snd (summarizeText remote transcript sent)
  = sent ++ [summarize_request transcript]
  /\ (forall t, fst (summarizeText remote transcript sent) = Normal t
               <-> exists response,
                     remote (summarize_request transcript)
                     = ApiResolved response
                     /\ text response = t)
  /\ (forall e, fst (summarizeText remote transcript sent) = Throw e
               <-> e = mkError (lit "Failed to summarize text.")
                   /\ exists reason,
                        remote (summarize_request transcript)
                        = ApiRejected reason)
  /\ exists prefix,
       contents (summarize_request transcript)
       = prefix ++ [34%N] ++ transcript ++ [34%N].
Proof.
  unfold summarizeText, try_catch, bind, generateContent, throw, ret.
  fold (summarize_request transcript).
  destruct (remote (summarize_request transcript)) as [response | reason];
    cbn [fst snd].
  - split; [reflexivity |]. split; [| split].
    + intros t. split.
      * intros H. injection H as <-. exists response. split; reflexivity.
      * intros (r & Hr & <-). injection Hr as <-. reflexivity.
    + intros e. split; [discriminate |].
      intros (_ & (reason & Hr)). discriminate.
    + eexists. reflexivity.
  - split; [reflexivity |]. split; [| split].
    + intros t. split; [discriminate |].
      intros (r & Hr & _). discriminate.
    + intros e. split.
      * intros H. injection H as <-. split; [reflexivity |].
        exists reason. reflexivity.
      * intros (-> & _). reflexivity.
    + eexists. reflexivity.
Qed.

Lemma synthesizeSpeech_cases (text : jsstring) (voice : VoiceOption)
    (sent : Sent) :
  snd (synthesizeSpeech remote text voice sent)
  = sent ++ [speech_request text voice]
  /\ (forall a, fst (synthesizeSpeech remote text voice sent) = Normal a
               <-> exists response,
                     remote (speech_request text voice) = ApiResolved response
                     /\ audio_of response = Some a /\ a <> [])
  /\ (speech_fails remote text voice
      <-> fst (synthesizeSpeech remote text voice sent)
          = Throw generic_synthesis_error).
Proof.
  unfold synthesizeSpeech, try_catch, bind, generateContent, throw, ret,
    speech_fails.
  replace (match voice with Male => lit "Puck" | Female => lit "Kore" end)
    with (voice_name voice) by (destruct voice; reflexivity).
  fold (speech_request text voice).
  destruct (remote (speech_request text voice)) as [response | reason].
  - destruct (audio_of response) as [[| c rest] |] eqn:Ha; cbn [fst snd falsy no_audio].
    + split; [reflexivity |]. split.
      * intros a. split; [discriminate |].
        intros (r & Hr & Haud & Hne). injection Hr as <-.
        rewrite Ha in Haud. injection Haud as <-. contradiction.
      * split; reflexivity.
    + split; [reflexivity |]. split.
      * intros a. split.
        -- intros H. injection H as <-. exists response.
           repeat split; [exact Ha | discriminate].
        -- intros (r & Hr & Haud & _). injection Hr as <-.
           rewrite Ha in Haud. injection Haud as <-. reflexivity.
      * split; discriminate.
    + split; [reflexivity |]. split.
      * intros a. split; [discriminate |].
        intros (r & Hr & Haud & _). injection Hr as <-.
        rewrite Ha in Haud. discriminate.
      * split; reflexivity.
  - cbn [fst snd]. split; [reflexivity |]. split.
    + intros a. split; [discriminate |]. intros (r & Hr & _). discriminate.
    + split; [reflexivity | intros _; exact I].
Qed.

(** [synthesizeSpeech] sends exactly one request, for the model
    [gemini-2.5-flash-preview-tts] with the voice ["Puck"] for [Male] and
    ["Kore"] otherwise; it returns a string exactly when the first part of
    the first candidate of the response carries a non-empty one, and then
    returns that string, so it never returns an empty string. *)
Theorem synthesizeSpeech_outcome (text : jsstring) (voice : VoiceOption)
    (sent : Sent) :
  snd (synthesizeSpeech remote text voice sent)
  = sent ++ [speech_request text voice]
  /\ (forall a, fst (synthesizeSpeech remote text voice sent) = Normal a
               <-> exists response,
                     remote (speech_request text voice) = ApiResolved response
                     /\ audio_of response = Some a /\ a <> [])
  /\ (speech_fails remote text voice
      <-> fst (synthesizeSpeech remote text voice sent)
          = Throw generic_synthesis_error).
Proof. exact (synthesizeSpeech_cases text voice sent). Qed.

End ServiceMore.

Lemma summarizeText_outcome_witness :
  fst (summarizeText helpful_remote (lit "um hello") [])
  = Normal (lit "Hello world.").
Proof.
  apply (proj1 (proj2 (summarizeText_outcome helpful_remote (lit "um hello")
                         []))).
  eexists. split; reflexivity.
Defined.

Lemma synthesizeSpeech_outcome_witness :
  fst (synthesizeSpeech helpful_remote (lit "Hello world.") Male [])
  = Normal (lit "AAAA")
  /\ speech_fails silent_remote (lit "Hello world.") Male.
Proof.
  split.
  - apply (proj1 (proj2 (synthesizeSpeech_outcome helpful_remote
                           (lit "Hello world.") Male []))).
    eexists. split; [reflexivity |]. split; [reflexivity | discriminate].
  - reflexivity.
Defined.

(** ** The recording session, further *)

Section SessionFields.

(** What the events of the live session leave alone. *)
Lemma deliver_fields (ev : LiveEvent) (s : App) :
  isProcessing (deliver ev s) = isProcessing s
  /\ processingStep (deliver ev s) = processingStep s
  /\ selectedVoice (deliver ev s) = selectedVoice s
  /\ List.length (promises (deliver ev s)) = List.length (promises s)
  /\ (torn_down s = true -> torn_down (deliver ev s) = true)
  /\ (ev <> ConnectionError -> error (deliver ev s) = error s)
  /\ ((forall m, ev <> Message m) ->
      transcriptRef (deliver ev s) = transcriptRef s).
Proof.
  unfold deliver.
  match goal with |- context [run_microtasks ?x] =>
    destruct (run_microtasks_fields x)
      as (H1 & H2 & H3 & H4 & H5 & H6 & H7 & H8 & H9 & H10 & H11 & H12 & _)
  end.
  cbv zeta in *. unfold torn_down.
  rewrite H1, H2, H3, H4, H6, H7, H8, H9, H10, H11, H12.
  clear H1 H2 H3 H4 H5 H6 H7 H8 H9 H10 H11 H12.
  assert (forall A n (f : A -> A) l,
            List.length (update_nth n f l) = List.length l) as Hlen.
  { intros A n f l. revert n. induction l as [| x l IH]; intros [| n];
      cbn; try reflexivity; f_equal; apply IH. }
  destruct ev as [p | p | m | | p].
  - unfold fulfil.
    destruct (nth_error (promises s) p) as [[[ | | ] rs] |];
      cbn; rewrite ?Hlen; repeat split; auto.
  - unfold reject.
    destruct (nth_error (promises s) p) as [[[ | | ] rs] |];
      cbn; rewrite ?Hlen; repeat split; auto.
  - unfold onmessage.
    destruct (opt_bind (serverContent m) inputTranscription);
      cbn; repeat split; auto; intros H; exfalso; exact (H m eq_refl).
  - unfold onerror.
    set (s1 := setError _ s).
    pose proof (stopRecordingFlow_torn_down s1) as Htd.
    pose proof (stopRecordingFlow_frame s1) as (_ & _ & Htr & _ & Hproc & _).
    cbv zeta in Htr, Hproc. unfold torn_down in Htd.
    destruct s as [rec proc step voice fa err tr ctx sp src sess proms micro
                   cls reqs].
    subst s1. unfold stopRecordingFlow, promise_then, promise_status in *.
    cbn in *.
    destruct sess as [p |]; cbn in *;
      [destruct (nth_error proms p) as [[[ | | ] rs] |] eqn:En; cbn in * |];
      destruct src; cbn in *; destruct sp; cbn in *;
      destruct ctx as [[ | | ] |]; cbn in *; rewrite ?Hlen;
      repeat split; auto; intros; congruence.
  - cbn. repeat split; auto.
Qed.

Lemma suspend_fields (during : list LiveEvent) (s : App) :
  isProcessing (suspend during s) = isProcessing s
  /\ processingStep (suspend during s) = processingStep s
  /\ selectedVoice (suspend during s) = selectedVoice s
  /\ List.length (promises (suspend during s)) = List.length (promises s)
  /\ (torn_down s = true -> torn_down (suspend during s) = true)
  /\ (~ In ConnectionError during -> error (suspend during s) = error s)
  /\ ((forall m, ~ In (Message m) during) ->
      transcriptRef (suspend during s) = transcriptRef s).
Proof.
  unfold suspend.
  destruct (run_microtasks_fields s)
    as (H1 & H2 & H3 & H4 & H5 & H6 & H7 & H8 & H9 & H10 & H11 & H12 & _).
  cbv zeta in *.
  assert (torn_down s = true -> torn_down (run_microtasks s) = true) as Htd
    by apply run_microtasks_torn_down.
  rewrite <- H2, <- H3, <- H4, <- H6, <- H7, <- H12.
  revert Htd. generalize (torn_down s) as b.
  clear. generalize (run_microtasks s) as s0.
  induction during as [| ev during IH]; intros s0 b Htd; cbn [fold_left].
  - repeat split; auto.
  - destruct (deliver_fields ev s0) as (A1 & A2 & A3 & A4 & A5 & A6 & A7).
    destruct (IH (deliver ev s0) b) as (B1 & B2 & B3 & B4 & B5 & B6 & B7).
    { intros Hb. apply A5, Htd, Hb. }
    rewrite B1, B2, B3, B4, A1, A2, A3, A4.
    repeat split; auto.
    + intros Hn. rewrite B6, A6; [reflexivity | |].
      * intros ->. apply Hn. left. reflexivity.
      * intros Hin. apply Hn. right. exact Hin.
    + intros Hn. rewrite B7, A7; [reflexivity | |].
      * intros m ->. apply (Hn m). left. reflexivity.
      * intros m Hin. apply (Hn m). right. exact Hin.
Qed.

End SessionFields.

Section SessionMore.

Variable remote : Remote.

Lemma deliver_message_transcript (m : LiveServerMessage) (s : App) :
  transcriptRef (deliver (Message m) s) = transcriptRef s ++ message_text m.
Proof.
  unfold deliver.
  destruct (run_microtasks_fields (onmessage m s))
    as (_ & _ & _ & _ & _ & _ & -> & _).
  unfold onmessage, message_text, append_text.
  destruct (opt_bind (serverContent m) inputTranscription) as [tr |].
  - destruct (tr_text tr); reflexivity.
  - rewrite app_nil_r. reflexivity.
Qed.

(** The transcript read by a stop is what was transcribed while recording
    followed by the texts of the messages that arrive during the settle
    delay, in their order of arrival; a message without an input
    transcription adds nothing. *)
Theorem late_messages_are_accumulated (ms : list LiveServerMessage)
    (during_summary during_speech : list LiveEvent) (s : App) :
  accumulated_transcript
    (mkStopAwaits (map Message ms) during_summary during_speech) s
  = transcriptRef s ++ List.concat (map message_text ms)
  /\ (forall m, opt_bind (serverContent m) inputTranscription = None ->
                message_text m = []).
Proof.
  split.
  - unfold accumulated_transcript, suspend. cbn [during_settle].
    assert (transcriptRef (run_microtasks (stop_prologue s)) = transcriptRef s)
      as Hstart.
    { destruct (run_microtasks_fields (stop_prologue s))
        as (_ & _ & _ & _ & _ & _ & -> & _).
      unfold stop_prologue. cbn [transcriptRef setError setIsProcessing].
      destruct (stopRecordingFlow_frame s) as (_ & _ & Htr & _).
      exact Htr. }
    rewrite <- Hstart. generalize (run_microtasks (stop_prologue s)) as s0.
    induction ms as [| m ms IH]; intros s0; cbn [map fold_left List.concat].
    + rewrite app_nil_r. reflexivity.
    + rewrite IH, deliver_message_transcript, <- app_assoc. reflexivity.
  - intros m H. unfold message_text. rewrite H. reflexivity.
Qed.


(** A teardown makes, at once and in this order, exactly the calls for
    the resources the state still holds: the source, the processing node,
    the audio context unless it is closed.  It never calls [session.close()]
    itself: with the connection established the call is queued behind the
    callbacks already queued. *)
Theorem stopRecordingFlow_releases_held (s : App) :
  calls (stopRecordingFlow s) = calls s ++ held_calls s
  /\ (forall p, sessionPromiseRef s = Some p ->
                promise_status p s = Some Fulfilled ->
                microtasks (stopRecordingFlow s)
                = microtasks s ++ [(p, CloseSession)])
  /\ (sessionPromiseRef s = None ->
      microtasks (stopRecordingFlow s) = microtasks s
      /\ promises (stopRecordingFlow s) = promises s).
Proof.
  destruct s as [rec proc step voice fa err tr ctx sp src sess proms micro
                 cls reqs].
  unfold stopRecordingFlow, held_calls, promise_then, promise_status.
  cbn.
  destruct sess as [p |]; cbn;
    [destruct (nth_error proms p) as [[[ | | ] rs] |] eqn:En; cbn |];
    destruct src; cbn; destruct sp; cbn;
    destruct ctx as [[ | | ] |]; cbn;
    rewrite <- ?app_assoc, ?app_nil_r; cbn [app];
    (split; [reflexivity |]); split;
    try (intros q Hq Hst; injection Hq as <-; rewrite En in Hst;
         cbn in Hst; congruence);
    try (intros q Hq; discriminate);
    try (intros; split; reflexivity);
    try discriminate.
Qed.

End SessionMore.

Section StopOutcomes.

Variable remote : Remote.
Variable env : StopAwaits.

Ltac run_stop :=
  cbv beta iota zeta
      delta [handleStopRecording bind gets modify try_finally try_catch ret
             zoom throw awaiting fst snd].

Lemma summarizeText_resolved (transcript : jsstring) (sent : Sent)
    (response : GenerateContentResponse) :
  remote (summarize_request transcript) = ApiResolved response ->
  summarizeText remote transcript sent
  = (Normal (text response), sent ++ [summarize_request transcript]).
Proof.
  intros H. unfold summarizeText, try_catch, bind, generateContent, ret.
  fold (summarize_request transcript). rewrite H. reflexivity.
Qed.

Lemma summarizeText_rejected (transcript : jsstring) (sent : Sent)
    (reason : Error) :
  remote (summarize_request transcript) = ApiRejected reason ->
  summarizeText remote transcript sent
  = (Throw (mkError (lit "Failed to summarize text.")),
     sent ++ [summarize_request transcript]).
Proof.
  intros H. unfold summarizeText, try_catch, bind, generateContent, ret.
  fold (summarize_request transcript). rewrite H. reflexivity.
Qed.

Lemma synthesizeSpeech_pair (text : jsstring) (voice : VoiceOption)
    (sent : Sent) :
  synthesizeSpeech remote text voice sent
  = (fst (synthesizeSpeech remote text voice sent),
     sent ++ [speech_request text voice]).
Proof.
  rewrite <- (proj1 (synthesizeSpeech_cases remote text voice sent)).
  apply surjective_pairing.
Qed.


Lemma stopRecordingFlow_voice (s : App) :
  selectedVoice (stopRecordingFlow s) = selectedVoice s.
Proof.
  destruct s as [rec proc step voice fa err tr ctx sp src sess proms micro
                 cls reqs].
  unfold stopRecordingFlow, promise_then, promise_status. cbn.
  destruct sess as [p |]; cbn;
    [destruct (nth_error proms p) as [[[ | | ] rs] |]; cbn |];
    destruct src; cbn; destruct sp; cbn;
    destruct ctx as [[ | | ] |]; reflexivity.
Qed.



Lemma stop_prologue_requests (during : list LiveEvent) (s : App) :
  requests (suspend during (stop_prologue s)) = requests s
  /\ finalAudio (suspend during (stop_prologue s)) = finalAudio s
  /\ selectedVoice (suspend during (stop_prologue s)) = selectedVoice s.
Proof.
  destruct (suspend_frame during (stop_prologue s)) as [-> ->].
  destruct (suspend_fields during (stop_prologue s)) as (_ & _ & -> & _).
  unfold stop_prologue.
  cbn [requests finalAudio selectedVoice setError setIsProcessing].
  destruct (stopRecordingFlow_frame s) as (-> & -> & _).
  rewrite stopRecordingFlow_voice. repeat split.
Qed.

(** The whole pipeline of a stop: when the transcript read after the
    settle delay holds more than white space, it is sent as it is to be
    condensed, the condensed text is sent to be spoken with the voice
    selected at the stop, and the audio returned becomes the final audio;
    exactly these two requests are sent, in this order. *)
Theorem handleStopRecording_success (s : App)
    (summary speech : GenerateContentResponse) (audio : jsstring) :
  isRecording s = true ->
  whitespace_only (accumulated_transcript env s) = false ->
  remote (summarize_request (accumulated_transcript env s))
  = ApiResolved summary ->
  remote (speech_request (text summary) (selectedVoice s))
  = ApiResolved speech ->
  audio_of speech = Some audio -> audio <> [] ->
  let s' := snd (handleStopRecording remote env s) in
  finalAudio s' = Some audio
  /\ requests s'
     = requests s
       ++ [summarize_request (accumulated_transcript env s);
           speech_request (text summary) (selectedVoice s)]
  /\ isProcessing s' = false
  /\ (~ In ConnectionError (all_events env) -> error s' = None).
Proof.
  intros Hrec Hws Hsum Hsp Haud Hne. cbv zeta.
  destruct (stop_prologue_requests (during_settle env) s)
    as (Hreq1 & Hfa1 & Hv1).
  rewrite <- falsy_trim in Hws.
  unfold accumulated_transcript in *.
  run_stop. rewrite Hrec. cbn [negb]. run_stop.
  change (setError None (setIsProcessing true (stopRecordingFlow s)))
    with (stop_prologue s).
  set (s1 := suspend (during_settle env) (stop_prologue s)) in *.
  rewrite Hws. run_stop.
  cbn [requests transcriptRef setProcessingStep].
  rewrite (summarizeText_resolved _ _ _ Hsum). run_stop.
  match goal with |- context [suspend (during_summarize env) ?x] =>
    destruct (suspend_frame (during_summarize env) x) as [Hreq2 _];
    destruct (suspend_fields (during_summarize env) x)
      as (_ & _ & Hv2 & _ & _ & He2 & _);
    set (s2 := suspend (during_summarize env) x) in *
  end.
  cbn [requests selectedVoice error set_requests setProcessingStep] in Hreq2, Hv2, He2.
  cbn [requests selectedVoice setProcessingStep].
  rewrite Hv2, Hv1, Hreq2, Hreq1.
  rewrite synthesizeSpeech_pair.
  assert (fst (synthesizeSpeech remote (text summary) (selectedVoice s)
                 (requests s
                  ++ [summarize_request (transcriptRef s1)]))
          = Normal audio) as ->.
  { apply (proj1 (proj2 (synthesizeSpeech_cases remote _ _ _))).
    exists speech. repeat split; assumption. }
  run_stop.
  match goal with |- context [suspend (during_synthesize env) ?y] =>
    destruct (suspend_frame (during_synthesize env) y) as [Hreq3 _];
    destruct (suspend_fields (during_synthesize env) y)
      as (_ & _ & _ & _ & _ & He3 & _);
    set (s3 := suspend (during_synthesize env) y) in *
  end.
  cbn [requests error set_requests setProcessingStep] in Hreq3, He3.
  cbn [finalAudio requests isProcessing error setFinalAudio setProcessingStep
       setIsProcessing].
  split; [reflexivity |]. split.
  { rewrite Hreq3, <- app_assoc. reflexivity. }
  split; [reflexivity |].
  intros Hno. unfold all_events in Hno.
  rewrite He3, He2.
  - destruct (suspend_fields (during_settle env) (stop_prologue s))
      as (_ & _ & _ & _ & _ & He1 & _).
    fold s1 in He1. rewrite He1; [reflexivity |].
    intros Hin. apply Hno. apply in_or_app. left. exact Hin.
  - intros Hin. apply Hno. apply in_or_app. right. apply in_or_app. left.
    exact Hin.
  - intros Hin. apply Hno. apply in_or_app. right. apply in_or_app. right.
    exact Hin.
Qed.

(** When the condensing request is rejected the stop ends with the error
    ["Failed to summarize text."], has sent that one request and no speech
    request, and leaves the final audio as it was. *)
Theorem handleStopRecording_summarize_fails (s : App) (reason : Error) :
  isRecording s = true ->
  whitespace_only (accumulated_transcript env s) = false ->
  remote (summarize_request (accumulated_transcript env s))
  = ApiRejected reason ->
  let s' := snd (handleStopRecording remote env s) in
  error s' = Some (lit "Failed to summarize text.")
  /\ requests s'
     = requests s ++ [summarize_request (accumulated_transcript env s)]
  /\ finalAudio s' = finalAudio s
  /\ isProcessing s' = false.
Proof.
  intros Hrec Hws Hsum. cbv zeta.
  destruct (stop_prologue_requests (during_settle env) s)
    as (Hreq1 & Hfa1 & Hv1).
  rewrite <- falsy_trim in Hws.
  unfold accumulated_transcript in *.
  run_stop. rewrite Hrec. cbn [negb]. run_stop.
  change (setError None (setIsProcessing true (stopRecordingFlow s)))
    with (stop_prologue s).
  set (s1 := suspend (during_settle env) (stop_prologue s)) in *.
  rewrite Hws. run_stop.
  cbn [requests transcriptRef setProcessingStep].
  rewrite (summarizeText_rejected _ _ _ Hsum). run_stop.
  match goal with |- context [suspend (during_summarize env) ?x] =>
    destruct (suspend_frame (during_summarize env) x) as [Hreq2 Hfa2];
    set (s2 := suspend (during_summarize env) x) in *
  end.
  cbn [requests finalAudio set_requests setProcessingStep] in Hreq2, Hfa2.
  cbn [finalAudio requests isProcessing error setError setProcessingStep
       setIsProcessing message or_else].
  rewrite Hreq2, Hfa2, Hreq1, Hfa1. repeat split.
Qed.

(** When the condensed text cannot be spoken (the speech request is
    rejected or its response carries no audio) the stop ends with the error
    ["Failed to synthesize speech."], has sent both requests, and leaves the
    final audio as it was. *)
Theorem handleStopRecording_synthesize_fails (s : App)
    (summary : GenerateContentResponse) :
  isRecording s = true ->
  whitespace_only (accumulated_transcript env s) = false ->
  remote (summarize_request (accumulated_transcript env s))
  = ApiResolved summary ->
  speech_fails remote (text summary) (selectedVoice s) ->
  let s' := snd (handleStopRecording remote env s) in
  error s' = Some (lit "Failed to synthesize speech.")
  /\ requests s'
     = requests s
       ++ [summarize_request (accumulated_transcript env s);
           speech_request (text summary) (selectedVoice s)]
  /\ finalAudio s' = finalAudio s
  /\ isProcessing s' = false.
Proof.
  intros Hrec Hws Hsum Hfail. cbv zeta.
  destruct (stop_prologue_requests (during_settle env) s)
    as (Hreq1 & Hfa1 & Hv1).
  rewrite <- falsy_trim in Hws.
  unfold accumulated_transcript in *.
  run_stop. rewrite Hrec. cbn [negb]. run_stop.
  change (setError None (setIsProcessing true (stopRecordingFlow s)))
    with (stop_prologue s).
  set (s1 := suspend (during_settle env) (stop_prologue s)) in *.
  rewrite Hws. run_stop.
  cbn [requests transcriptRef setProcessingStep].
  rewrite (summarizeText_resolved _ _ _ Hsum). run_stop.
  match goal with |- context [suspend (during_summarize env) ?x] =>
    destruct (suspend_frame (during_summarize env) x) as [Hreq2 Hfa2];
    destruct (suspend_fields (during_summarize env) x)
      as (_ & _ & Hv2 & _);
    set (s2 := suspend (during_summarize env) x) in *
  end.
  cbn [requests finalAudio selectedVoice set_requests setProcessingStep]
    in Hreq2, Hfa2, Hv2.
  cbn [requests selectedVoice setProcessingStep].
  rewrite Hv2, Hv1, Hreq2, Hreq1.
  rewrite synthesizeSpeech_pair.
  rewrite (proj1 (proj2 (proj2 (synthesizeSpeech_cases remote _ _ _)))
             Hfail).
  run_stop.
  match goal with |- context [suspend (during_synthesize env) ?y] =>
    destruct (suspend_frame (during_synthesize env) y) as [Hreq3 Hfa3];
    set (s3 := suspend (during_synthesize env) y) in *
  end.
  cbn [requests finalAudio set_requests setProcessingStep] in Hreq3, Hfa3.
  cbn [finalAudio requests isProcessing error setError setProcessingStep
       setIsProcessing message or_else generic_synthesis_error].
  rewrite Hreq3, Hfa3, Hfa2, Hfa1, <- app_assoc. repeat split.
Qed.

End StopOutcomes.


Lemma handleStopRecording_success_witness :
  isRecording started = true
  /\ whitespace_only (accumulated_transcript (closed_in_time 0) started) = false
  /\ finalAudio (snd (handleStopRecording helpful_remote (closed_in_time 0)
                        started))
     = Some (lit "AAAA").
Proof.
  split; [reflexivity |]. split; [reflexivity |].
  refine (proj1 (handleStopRecording_success helpful_remote (closed_in_time 0)
                   started (mkResponse (lit "Hello world.") None)
                   (mkResponse []
                      (Some [mkCandidate (Some (mkContent (Some
                         [mkPart (Some (mkInlineData (Some (lit "AAAA"))))])))]))
                   (lit "AAAA") eq_refl eq_refl eq_refl eq_refl eq_refl _)).
  discriminate.
Defined.

Lemma handleStopRecording_summarize_fails_witness :
  isRecording started = true
  /\ error (snd (handleStopRecording failing_remote (closed_in_time 0) started))
     = Some (lit "Failed to summarize text.").
Proof.
  split; [reflexivity |].
  exact (proj1 (handleStopRecording_summarize_fails failing_remote
                  (closed_in_time 0) started (mkError (lit "503"))
                  eq_refl eq_refl eq_refl)).
Defined.

Lemma handleStopRecording_synthesize_fails_witness :
  isRecording started = true
  /\ speech_fails silent_remote [] Female
  /\ error (snd (handleStopRecording silent_remote (closed_in_time 0) started))
     = Some (lit "Failed to synthesize speech.").
Proof.
  split; [reflexivity |]. split; [reflexivity |].
  exact (proj1 (handleStopRecording_synthesize_fails silent_remote
                  (closed_in_time 0) started (mkResponse [] None)
                  eq_refl eq_refl eq_refl eq_refl)).
Defined.

Section StartOutcomes.

Lemma nth_error_app_length {A} (l : list A) (x : A) :
  nth_error (l ++ [x]) (List.length l) = Some x.
Proof.
  rewrite nth_error_app2 by lia. rewrite Nat.sub_diag. reflexivity.
Qed.

Lemma update_nth_app_length {A} (f : A -> A) (l : list A) (x : A) :
  update_nth (List.length l) f (l ++ [x]) = l ++ [f x].
Proof.
  induction l as [| y l IH]; [reflexivity |].
  cbn [List.length app update_nth]. rewrite IH. reflexivity.
Qed.

(** The state in which [getUserMedia] answers. *)
Lemma start_await_state (granted : bool) (failing : option SetupStep)
    (during : list LiveEvent) (s : App) :
  torn_down s = true ->
  let s0 := suspend during (emit GetUserMedia (start_prologue s)) in
  torn_down s0 = true
  /\ microtasks s0 = []
  /\ List.length (promises s0) = List.length (promises s)
  /\ requests s0 = requests s
  /\ finalAudio s0 = None
  /\ (~ In ConnectionError during -> error s0 = None)
  /\ (granted = false \/ failing = None ->
      handleStartRecording granted failing during s
      = if granted
        then (Normal tt,
              emit ProcessorConnect
                (emit SourceConnect
                   (set_scriptProcessorRef (Some (mkProcessor true))
                      (live_connect
                         (set_scriptProcessorRef (Some (mkProcessor false))
                            (set_mediaStreamSourceRef (Some tt)
                               (set_audioContextRef (Some Running)
                                  (setIsRecording true s0))))))))
        else (Normal tt,
              setIsRecording false
                (setError
                   (Some (lit
                      "Could not access the microphone. Please check permissions and try again."))
                   s0))).
Proof.
  intros Htd. cbv zeta.
  set (s00 := emit GetUserMedia (start_prologue s)).
  destruct (suspend_fields during s00) as (_ & _ & _ & Hlen & Htd' & Herr & _).
  destruct (suspend_frame during s00) as [Hreq Hfa].
  split; [apply Htd'; exact Htd |].
  split; [apply suspend_quiet |].
  split; [exact Hlen |]. split; [exact Hreq |]. split; [exact Hfa |].
  split; [intros Hn; rewrite (Herr Hn); reflexivity |].
  assert (isRecording s = false) as Hrec
    by (unfold torn_down in Htd; destruct (isRecording s);
        [discriminate | reflexivity]).
  intros Hcase.
  cbv beta iota zeta delta [handleStartRecording bind gets modify try_catch
                            getUserMedia awaiting].
  cbn [isRecording set_transcriptRef setFinalAudio setError].
  rewrite Hrec.
  destruct granted; [| reflexivity].
  destruct Hcase as [Hcase | ->]; [discriminate | reflexivity].
Qed.

(** What the wait for the capture device adds to the calls: the request
    for the device, then what the events do; a device is released only by
    a close notification among them. *)
Lemma start_await_calls (during : list LiveEvent) (s : App) :
  exists rest,
    calls (suspend during (emit GetUserMedia (start_prologue s)))
    = calls s ++ GetUserMedia :: rest
    /\ forall q, In (StopTracks q) rest -> In (ConnectionClosed q) during.
Proof.
  unfold suspend.
  destruct (deliver_all_calls during
              (run_microtasks (emit GetUserMedia (start_prologue s))))
    as (rest & Heq & Hrel).
  rewrite run_microtasks_calls in Heq.
  cbn [calls microtasks emit set_calls start_prologue set_transcriptRef
       setFinalAudio setError] in Heq.
  exists (map reaction_call (microtasks s) ++ rest).
  split.
  - rewrite Heq, <- !app_assoc. reflexivity.
  - intros q H. apply in_app_or in H. destruct H as [H | H].
    + exfalso. exact (reaction_call_not_release _ _ H).
    + exact (Hrel q H).
Qed.

(** A start from a torn-down state with the capture device granted and
    no call of the set-up failing opens a session: the component is
    recording, a new connection [p] is being established with nothing
    queued on it, no request has been sent, and once that connection is
    established the session is in the recording state from which a stop
    tears down in order. *)
Theorem handleStartRecording_opens (during : list LiveEvent) (s : App) :
  torn_down s = true ->
  let r := handleStartRecording true None during s in
  let p := List.length (promises s) in
  fst r = Normal tt
  /\ isRecording (snd r) = true
  /\ connecting_with p (snd r) = true
  /\ recording_with p (deliver (Fulfil p) (snd r)) = true
  /\ requests (snd r) = requests s
  /\ finalAudio (snd r) = None.
Proof.
  intros Htd. cbv zeta.
  destruct (start_await_state true None during s Htd)
    as (Htd0 & Hq0 & Hlen0 & Hreq0 & Hfa0 & _ & Hrun).
  rewrite (Hrun (or_intror eq_refl)). clear Hrun.
  cbv zeta in *. cbn [fst snd].
  destruct (suspend during (emit GetUserMedia (start_prologue s)))
    as [rec proc step voice fa err tr ctx sp src sess proms micro cls reqs].
  cbn in Hq0, Hlen0, Hreq0, Hfa0. subst micro reqs fa. rewrite <- Hlen0.
  unfold connecting_with, recording_with, deliver, fulfil, promise_status,
    live_connect, emit.
  cbn [isRecording sessionPromiseRef promises mediaStreamSourceRef
       scriptProcessorRef audioContextRef microtasks requests finalAudio calls
       setIsRecording set_audioContextRef set_mediaStreamSourceRef
       set_scriptProcessorRef set_sessionPromiseRef set_promises set_calls
       set_microtasks].
  rewrite !nth_error_app_length, Nat.eqb_refl.
  unfold run_microtasks. cbn.
  rewrite update_nth_app_length, nth_error_app_length, Nat.eqb_refl.
  repeat split.
Qed.

Lemma handleStartRecording_opens_witness :
  torn_down initial = true
  /\ connecting_with 0 (snd (handleStartRecording true None [] initial)) = true
  /\ recording_with 0
       (deliver (Fulfil 0) (snd (handleStartRecording true None [] initial)))
     = true.
Proof.
  split; [reflexivity |].
  destruct (handleStartRecording_opens [] initial eq_refl)
    as (_ & _ & Hc & Hr & _).
  split; [exact Hc | exact Hr].
Defined.

(** A start whose capture device is refused leaves the session torn
    down: it shows the microphone error, opens no connection and sends no
    request. *)
Theorem handleStartRecording_refused (failing : option SetupStep)
    (during : list LiveEvent) (s : App) :
  torn_down s = true ->
  let r := handleStartRecording false failing during s in
  fst r = Normal tt
  /\ torn_down (snd r) = true
  /\ error (snd r)
     = Some (lit
         "Could not access the microphone. Please check permissions and try again.")
  /\ List.length (promises (snd r)) = List.length (promises s)
  /\ requests (snd r) = requests s
  /\ finalAudio (snd r) = None.
Proof.
  intros Htd. cbv zeta.
  destruct (start_await_state false failing during s Htd)
    as (Htd0 & Hq0 & Hlen0 & Hreq0 & Hfa0 & _ & Hrun).
  rewrite (Hrun (or_introl eq_refl)). clear Hrun.
  cbv zeta in *. cbn [fst snd].
  split; [reflexivity |].
  split.
  { unfold torn_down in *.
    cbn [isRecording sessionPromiseRef mediaStreamSourceRef scriptProcessorRef
         audioContextRef setIsRecording setError].
    destruct (isRecording (suspend during (emit GetUserMedia (start_prologue s))));
      [discriminate | exact Htd0]. }
  split; [reflexivity |].
  split; [exact Hlen0 |]. split; [exact Hreq0 | exact Hfa0].
Qed.

Lemma handleStartRecording_refused_witness :
  torn_down initial = true
  /\ torn_down (snd (handleStartRecording false None [] initial)) = true
  /\ List.length (promises (snd (handleStartRecording false None [] initial)))
     = 0%nat.
Proof.
  split; [reflexivity |].
  destruct (handleStartRecording_refused None [] initial eq_refl)
    as (_ & Htd & _ & Hlen & _).
  split; [exact Htd | exact Hlen].
Defined.

(** When a call of the set-up throws after the capture device was
    granted, the start ends without an exception, shows the microphone
    error and is not recording, but nothing is released: the state is torn
    down only when the very first call, the creation of the audio context,
    is the one that failed; the handler does not stop the tracks of the
    stream it was granted; and a stop after it does nothing. *)
Theorem handleStartRecording_setup_fails (step : SetupStep)
    (during : list LiveEvent) (s : App) :
  torn_down s = true ->
  let r := handleStartRecording true (Some step) during s in
  fst r = Normal tt
  /\ isRecording (snd r) = false
  /\ error (snd r)
     = Some (lit
         "Could not access the microphone. Please check permissions and try again.")
  /\ requests (snd r) = requests s
  /\ finalAudio (snd r) = None
  /\ torn_down (snd r) = same_step step NewAudioContext
  /\ (exists rest,
        calls (snd r) = calls s ++ GetUserMedia :: rest
        /\ forall q, In (StopTracks q) rest -> In (ConnectionClosed q) during)
  /\ (forall remote env,
        handleStopRecording remote env (snd r) = (Normal tt, snd r)).
Proof.
  intros Htd. cbv zeta.
  destruct (start_await_state true (Some step) during s Htd)
    as (Htd0 & _ & _ & Hreq0 & Hfa0 & _).
  destruct (start_await_calls during s) as (rest0 & Hcalls0 & Hrel0).
  assert (isRecording s = false) as Hrec
    by (unfold torn_down in Htd; destruct (isRecording s);
        [discriminate | reflexivity]).
  cbv zeta in Htd0, Hreq0, Hfa0.
  cbv beta iota zeta delta [handleStartRecording bind gets modify try_catch
                            getUserMedia awaiting].
  cbn [isRecording set_transcriptRef setFinalAudio setError].
  rewrite Hrec.
  change (set_transcriptRef [] (setFinalAudio None (setError None s)))
    with (start_prologue s).
  revert Htd0 Hreq0 Hfa0 Hcalls0.
  generalize (suspend during (emit GetUserMedia (start_prologue s))) as s0.
  intros [rec proc stp voice fa err tr ctx sp src sess proms micro cls reqs].
  unfold torn_down. cbn. intros Htd0 -> -> ->.
  destruct rec; [discriminate |].
  destruct sess; [discriminate |].
  destruct src; [discriminate |].
  destruct sp; [discriminate |].
  cbn in Htd0.
  destruct step;
    cbv beta iota zeta delta [fallible same_step throw ret modify];
    cbn; rewrite ?Htd0;
    (split; [reflexivity |]); (split; [reflexivity |]);
    (split; [reflexivity |]); (split; [reflexivity |]);
    (split; [reflexivity |]); (split; [reflexivity |]);
    (split; [| intros remote env; reflexivity]);
    rewrite <- ?app_assoc; cbn [app];
    eexists; (split; [reflexivity |]); intros q Hq;
    repeat (apply in_app_or in Hq; destruct Hq as [Hq | Hq]);
    try (apply Hrel0; exact Hq);
    cbn in Hq; intuition discriminate.
Qed.

Lemma handleStartRecording_setup_fails_witness :
  torn_down initial = true
  /\ (let r := handleStartRecording true (Some AiLiveConnect) [] initial in
      isRecording (snd r) = false
      /\ torn_down (snd r) = false
      /\ audioContextRef (snd r) = Some Running
      /\ calls (snd r) = [GetUserMedia]).
Proof.
  split; [reflexivity |].
  destruct (handleStartRecording_setup_fails AiLiveConnect [] initial eq_refl)
    as (_ & Hrec & _ & _ & _ & Htd & _).
  cbv zeta. split; [exact Hrec |]. split; [exact Htd |].
  split; reflexivity.
Defined.

End StartOutcomes.

(** ** Streaming the captured blocks *)

Section Streaming.

Variable encode : list Z -> jsstring.

(** One block while the session [p] is open: its blob is sent at once. *)
Lemma audio_event_open (block : list jsnum) (p : nat) (s : App) :
  recording_with p s = true ->
  calls (audio_event encode block s)
  = calls s ++ [SendRealtimeInput p (pcm_blob encode block)]
  /\ recording_with p (audio_event encode block s) = true.
Proof.
  destruct s as [rec proc step voice fa err tr ctx sp src sess proms micro
                 cls reqs].
  unfold recording_with, audio_event, onaudioprocess, promise_then,
    promise_status, run_microtasks, pcm_blob, capture_bytes.
  cbn. intros H.
  destruct rec; [| discriminate].
  destruct sess as [q |]; [| discriminate].
  destruct (Nat.eqb_spec q p) as [-> |]; [| discriminate].
  destruct (nth_error proms p) as [[[ | | ] rs] |] eqn:En; cbn in H |- *;
    try discriminate.
  destruct src; [| discriminate].
  destruct sp; [| discriminate].
  destruct ctx as [[ | | ] |]; cbn in H |- *; try discriminate;
    (destruct micro; [| discriminate]); cbn;
    rewrite En, Nat.eqb_refl; split; reflexivity.
Qed.

(** While the live session is open every captured block is sent as soon as
    it is captured, so the blocks reach the session in capture order, each
    as the encoded PCM bytes of the block with the type
    [audio/pcm;rate=16000]; nothing else is called. *)
Theorem blocks_sent_in_order (blocks : list (list jsnum)) (p : nat) (s : App) :
  recording_with p s = true ->
  calls (capture_blocks encode blocks s)
  = calls s
    ++ map (fun block => SendRealtimeInput p (pcm_blob encode block)) blocks
  /\ recording_with p (capture_blocks encode blocks s) = true
  /\ forall block, mimeType (pcm_blob encode block)
                   = lit "audio/pcm;rate=16000"
                   /\ blob_data (pcm_blob encode block)
                      = encode (capture_bytes block).
Proof.
  intros Hrec. split; [| split; [| intros block; split; reflexivity]];
    revert s Hrec; unfold capture_blocks;
    induction blocks as [| block blocks IH]; intros s Hrec;
    cbn [fold_left map].
  - rewrite app_nil_r. reflexivity.
  - destruct (audio_event_open block p s Hrec) as [Hc Hr].
    rewrite (IH _ Hr), Hc, <- app_assoc. reflexivity.
  - exact Hrec.
  - destruct (audio_event_open block p s Hrec) as [Hc Hr].
    exact (IH _ Hr).
Qed.

(** The blocks captured while the connection is still being established. *)
Lemma capture_blocks_pending (blocks : list (list jsnum)) (p : nat)
    rec proc step voice fa err tr ctx sp src cls reqs :
  forall proms rs,
    nth_error proms p = Some (mkPromise Pending rs) ->
    capture_blocks encode blocks
      (mkApp rec proc step voice fa err tr ctx sp src (Some p) proms [] cls
             reqs)
    = mkApp rec proc step voice fa err tr ctx sp src (Some p)
        (update_nth p
           (fun _ => mkPromise Pending
                       (rs ++ map (fun b => SendInput (pcm_blob encode b))
                                  blocks))
           proms)
        [] cls reqs.
Proof.
  unfold capture_blocks.
  induction blocks as [| block blocks IH]; intros proms rs Hn;
    cbn [fold_left map].
  - rewrite app_nil_r, (update_nth_same _ _ _ Hn). reflexivity.
  - unfold audio_event at 2. unfold onaudioprocess, promise_then,
      promise_status, run_microtasks.
    cbn [sessionPromiseRef promises microtasks option_map set_promises
         set_microtasks fold_left].
    rewrite Hn. cbn [option_map status fold_left promises microtasks
                     set_promises set_microtasks
                     isRecording isProcessing processingStep selectedVoice
                     finalAudio error transcriptRef audioContextRef
                     scriptProcessorRef mediaStreamSourceRef sessionPromiseRef
                     calls requests].
    unfold set_microtasks, set_promises.
    cbn [isRecording isProcessing processingStep selectedVoice
         finalAudio error transcriptRef audioContextRef
         scriptProcessorRef mediaStreamSourceRef sessionPromiseRef
         promises microtasks calls requests].
    rewrite (IH _ (rs ++ [SendInput (pcm_blob encode block)])).
    + rewrite update_nth_twice, <- app_assoc. reflexivity.
    + rewrite (nth_error_update_nth _ _ _ _ Hn). reflexivity.
Qed.

(** Blocks captured while the connection is still being established are
    held back, and sent in capture order once it is established.  When the
    recording is stopped before that, they are still sent on connection,
    after the disconnects and before the session is closed. *)
Theorem queued_blocks_precede_close (blocks : list (list jsnum)) (p : nat)
    (s : App) :
  connecting_with p s = true ->
  let sends :=
    map (fun block => SendRealtimeInput p (pcm_blob encode block)) blocks in
  calls (capture_blocks encode blocks s) = calls s
  /\ calls (deliver (Fulfil p) (capture_blocks encode blocks s))
     = calls s ++ sends
  /\ calls (deliver (Fulfil p)
              (stopRecordingFlow (capture_blocks encode blocks s)))
     = calls s
       ++ [SourceDisconnect; ProcessorDisconnect; ClearOnaudioprocess;
           ContextClose]
       ++ sends ++ [SessionClose p].
Proof.
  destruct s as [rec proc step voice fa err tr ctx sp src sess proms micro
                 cls reqs].
  unfold connecting_with. cbn. intros H.
  destruct rec; [| discriminate].
  destruct sess as [q |]; [| discriminate].
  destruct (Nat.eqb_spec q p) as [-> |]; [| discriminate].
  destruct (nth_error proms p) as [[[ | | ] [| r rs]] |] eqn:En;
    cbn in H; try discriminate.
  destruct src; [| discriminate].
  destruct sp; [| discriminate].
  destruct ctx as [st |]; [| discriminate].
  destruct (is_closed st) eqn:Est; [discriminate |].
  destruct micro; [| discriminate].
  rewrite (capture_blocks_pending blocks p _ _ _ _ _ _ _ _ _ _ _ _ proms []
             En).
  cbn [app].
  set (queued := map (fun b => SendInput (pcm_blob encode b)) blocks).
  assert (map reaction_call (map (fun r => (p, r)) queued)
          = map (fun block => SendRealtimeInput p (pcm_blob encode block))
                blocks) as Hsends.
  { unfold queued. rewrite !map_map. reflexivity. }
  split; [reflexivity |]. split.
  - unfold deliver. rewrite run_microtasks_calls.
    unfold fulfil. cbn [promises].
    rewrite (nth_error_update_nth _ _ _ _ En).
    cbn [calls microtasks set_microtasks set_promises app].
    rewrite Hsends. reflexivity.
  - unfold deliver. rewrite run_microtasks_calls.
    unfold stopRecordingFlow, promise_then, promise_status, fulfil, emit.
    cbn [isRecording sessionPromiseRef promises mediaStreamSourceRef
         scriptProcessorRef audioContextRef microtasks calls
         setIsRecording set_sessionPromiseRef set_promises
         set_mediaStreamSourceRef set_scriptProcessorRef set_audioContextRef
         set_calls set_microtasks option_map].
    rewrite (nth_error_update_nth _ _ _ _ En).
    cbn [option_map status reactions promises set_promises
         isRecording sessionPromiseRef mediaStreamSourceRef
         scriptProcessorRef audioContextRef microtasks calls
         setIsRecording set_sessionPromiseRef
         set_mediaStreamSourceRef set_scriptProcessorRef set_audioContextRef
         set_calls set_microtasks].
    rewrite Est.
    cbn [isRecording sessionPromiseRef promises mediaStreamSourceRef
         scriptProcessorRef audioContextRef microtasks calls
         setIsRecording set_sessionPromiseRef set_promises
         set_mediaStreamSourceRef set_scriptProcessorRef set_audioContextRef
         set_calls set_microtasks].
    rewrite update_nth_twice, (nth_error_update_nth _ _ _ _ En).
    cbn [isRecording sessionPromiseRef promises mediaStreamSourceRef
         scriptProcessorRef audioContextRef microtasks calls reactions
         setIsRecording set_sessionPromiseRef set_promises
         set_mediaStreamSourceRef set_scriptProcessorRef set_audioContextRef
         set_calls set_microtasks app].
    rewrite map_app, map_app, Hsends. cbn [map reaction_call].
    rewrite <- !app_assoc. reflexivity.
Qed.

End Streaming.

Lemma blocks_sent_in_order_witness :
  recording_with 0 started = true
  /\ calls (capture_blocks raw_encode [[Fin (1 # 2)]; [Fin (-1 # 2)]] started)
     = calls started
       ++ [SendRealtimeInput 0 (pcm_blob raw_encode [Fin (1 # 2)]);
           SendRealtimeInput 0 (pcm_blob raw_encode [Fin (-1 # 2)])].
Proof.
  split; [reflexivity |].
  exact (proj1 (blocks_sent_in_order raw_encode
                  [[Fin (1 # 2)]; [Fin (-1 # 2)]] 0%nat started eq_refl)).
Defined.

Lemma queued_blocks_precede_close_witness :
  connecting_with 0 connecting = true
  /\ calls (deliver (Fulfil 0)
              (stopRecordingFlow
                 (capture_blocks raw_encode [[Fin (1 # 2)]] connecting)))
     = calls connecting
       ++ [SourceDisconnect; ProcessorDisconnect; ClearOnaudioprocess;
           ContextClose]
       ++ [SendRealtimeInput 0 (pcm_blob raw_encode [Fin (1 # 2)])]
       ++ [SessionClose 0].
Proof.
  split; [reflexivity |].
  exact (proj2 (proj2 (queued_blocks_precede_close raw_encode
                         [[Fin (1 # 2)]] 0%nat connecting eq_refl))).
Defined.

Lemma late_messages_are_accumulated_witness :
  accumulated_transcript
    (mkStopAwaits
       [Message (mkMessage (Some (mkServerContent
          (Some (mkTranscription (Some (lit " world")))))));
        Message (mkMessage None)] [] [])
    started
  = lit "hello world".
Proof.
  exact (proj1 (late_messages_are_accumulated
                  [mkMessage (Some (mkServerContent
                     (Some (mkTranscription (Some (lit " world"))))));
                   mkMessage None] [] [] started)).
Defined.

Lemma stopRecordingFlow_releases_held_witness :
  sessionPromiseRef started = Some 0%nat
  /\ promise_status 0 started = Some Fulfilled
  /\ microtasks (stopRecordingFlow started) = [(0%nat, CloseSession)]
  /\ calls (stopRecordingFlow started)
     = calls started
       ++ [SourceDisconnect; ProcessorDisconnect; ClearOnaudioprocess;
           ContextClose].
Proof.
  split; [reflexivity |]. split; [reflexivity |].
  destruct (stopRecordingFlow_releases_held started) as (Hc & Hm & _).
  split; [exact (Hm 0%nat eq_refl eq_refl) | exact Hc].
Defined.

Lemma js_mul_is_binary64_witness :
  Binary64.is_float32 (S754_finite false 7 (-17))
  /\ Binary64.same_number
       (Binary64.number_of
          (Binary64.b64_mul (S754_finite false 7 (-17))
                            (Binary64.b64_const 32768)))
       (js_mul (Binary64.number_of (S754_finite false 7 (-17)))
               (js_int 32768)).
Proof.
  assert (Binary64.is_float32 (S754_finite false 7 (-17))) as H
    by (cbn; lia).
  split; [exact H |].
  exact (js_mul_is_binary64 (S754_finite false 7 (-17)) 32768 H eq_refl).
Defined.
